(** * LogView: grouping, merging, tailing and line classification

    A shallow embedding of the log viewer's server (server/index.js) and of
    the pure helpers of its line view (src/components/LogViewer.jsx).

    Conventions of the model.
    - A JavaScript string is a [string]; its characters are the bytes of the
      text.  ASCII text is modelled exactly; characters above 127 are opaque
      (no case folding, never white space, never a line terminator).
    - A file is the list of its bytes; [Buffer.toString("utf-8")] keeps the
      bytes as characters, which leaves line terminators where they are.
    - Sizes and offsets are [N]; roll numbers are exact integers.
    - What the host answers (directory listings, stat results, collation
      order, the Date constructor) enters as data or as a parameter. *)

From Stdlib Require Import String Ascii List ZArith NArith Lia Bool Arith Permutation Sorted.
Import ListNotations.
Open Scope string_scope.
Open Scope list_scope.

Set Implicit Arguments.

(* ===================================================================== *)
(** ** Characters *)
(* ===================================================================== *)

Module Chars.

Definition code (c : ascii) : N := N_of_ascii c.

Definition between (lo hi : N) (c : ascii) : bool :=
  ((lo <=? code c) && (code c <=? hi))%N.

Definition is_digit (c : ascii) : bool := between 48 57 c.
Definition is_upper (c : ascii) : bool := between 65 90 c.
Definition is_lower (c : ascii) : bool := between 97 122 c.
Definition is_alpha (c : ascii) : bool := is_upper c || is_lower c.

(** [\w] is [[A-Za-z0-9_]]. *)
Definition is_word (c : ascii) : bool :=
  is_alpha c || is_digit c || (code c =? 95)%N.

(** [\s] restricted to the modelled alphabet: TAB, LF, VT, FF, CR, SPACE. *)
Definition is_space (c : ascii) : bool :=
  between 9 13 c || (code c =? 32)%N.

(** Line terminators, which [.] does not match. *)
Definition is_line_terminator (c : ascii) : bool :=
  (code c =? 10)%N || (code c =? 13)%N.

Definition to_upper (c : ascii) : ascii :=
  if is_lower c then ascii_of_N (code c - 32) else c.

Definition to_lower (c : ascii) : ascii :=
  if is_upper c then ascii_of_N (code c + 32) else c.

Definition LF : ascii := ascii_of_N 10.
Definition CR : ascii := ascii_of_N 13.
Definition NUL : ascii := ascii_of_N 0.
Definition DQUOTE : ascii := ascii_of_N 34.

(** The fourteen syntax characters of a pattern; the class that
    [escapeRegex] replaces, [[.*+?^${}()|[\]\\]], lists the same ones. *)
Definition syntax_chars : list ascii :=
  list_ascii_of_string "^$\.*+?()[]{}|".

Definition is_syntax_char (c : ascii) : bool :=
  existsb (Ascii.eqb c) syntax_chars.

End Chars.

(* ===================================================================== *)
(** ** Regular expressions of the host

    The source writes its patterns as regular-expression literals and
    builds two from strings.  [RegExp_new] parses a pattern the way the
    host does (no [u] flag, with the web-compatibility rules), for the part
    of the grammar listed below; [exec] is the backtracking matcher. *)
(* ===================================================================== *)

Module Regex.

Inductive cls := Digit | NotDigit | Word | NotWord | Space | NotSpace.

Inductive citem :=
| CRange (lo hi : ascii)
| CEsc (k : cls).

Inductive re :=
| Empty
| Chr (c : ascii)
| Any
| Cls (neg : bool) (items : list citem)
| Seq (a b : re)
| Alt (a b : re)
| Rep (mn : nat) (mx : option nat) (greedy : bool) (a : re)
| Group (n : nat) (a : re)
| NGroup (a : re)
| Bol
| Eol
| WordB (neg : bool).

Record flags := {
  f_global : bool;
  f_ignoreCase : bool;
  f_multiline : bool;
  f_dotAll : bool;
  f_sticky : bool;
  f_indices : bool
}.

Record regex := { source : re; rflags : flags }.

(** *** Matching *)

Record mstate := {
  before : list ascii;          (* consumed input, last character first *)
  after : list ascii;           (* input still to read *)
  caps : list (nat * string)    (* captures set so far *)
}.

Definition in_cls (k : cls) (c : ascii) : bool :=
  match k with
  | Digit => Chars.is_digit c
  | NotDigit => negb (Chars.is_digit c)
  | Word => Chars.is_word c
  | NotWord => negb (Chars.is_word c)
  | Space => Chars.is_space c
  | NotSpace => negb (Chars.is_space c)
  end.

Definition in_item (it : citem) (c : ascii) : bool :=
  match it with
  | CRange lo hi => Chars.between (Chars.code lo) (Chars.code hi) c
  | CEsc k => in_cls k c
  end.

Definition in_items (items : list citem) (c : ascii) : bool :=
  existsb (fun it => in_item it c) items.

(** With [i], a character is in a set when some member has the same
    canonical (upper-case) form. *)
Definition in_set (ci : bool) (items : list citem) (c : ascii) : bool :=
  in_items items c
  || (ci && (in_items items (Chars.to_upper c) || in_items items (Chars.to_lower c))).

Definition chr_eq (ci : bool) (p c : ascii) : bool :=
  if ci then Ascii.eqb (Chars.to_upper p) (Chars.to_upper c) else Ascii.eqb p c.

Definition step1 (st : mstate) (c : ascii) (rest : list ascii) : mstate :=
  {| before := c :: before st; after := rest; caps := caps st |}.

Fixpoint groups_of (r : re) : list nat :=
  match r with
  | Seq a b | Alt a b => groups_of a ++ groups_of b
  | Rep _ _ _ a | NGroup a => groups_of a
  | Group n a => n :: groups_of a
  | _ => []
  end.

Definition clear_caps (ns : list nat) (st : mstate) : mstate :=
  {| before := before st; after := after st;
     caps := filter (fun p => negb (existsb (Nat.eqb (fst p)) ns)) (caps st) |}.

(** The text read between two states of one match. *)
Definition consumed (st st' : mstate) : string :=
  string_of_list_ascii
    (firstn (List.length (after st) - List.length (after st')) (after st)).

Definition set_cap (n : nat) (s : string) (st : mstate) : mstate :=
  {| before := before st; after := after st;
     caps := (n, s) :: filter (fun p => negb (Nat.eqb (fst p) n)) (caps st) |}.

Definition is_word_opt (o : option ascii) : bool :=
  match o with Some c => Chars.is_word c | None => false end.

Definition at_word_boundary (st : mstate) : bool :=
  xorb (is_word_opt (hd_error (before st))) (is_word_opt (hd_error (after st))).

Definition max_is_zero (mx : option nat) : bool :=
  match mx with Some O => true | _ => false end.

(** [^] and [$]: the ends of the input, and with [m] the ends of a line. *)
Definition at_line_start (fl : flags) (st : mstate) : bool :=
  match before st with
  | [] => true
  | c :: _ => f_multiline fl && Chars.is_line_terminator c
  end.

Definition at_line_end (fl : flags) (st : mstate) : bool :=
  match after st with
  | [] => true
  | c :: _ => f_multiline fl && Chars.is_line_terminator c
  end.

(** The repetition loop of a quantified atom: [mt_a] matches the atom once,
    [gs] are its groups, whose captures each turn clears; a turn that
    reads nothing is refused once the minimum is reached. *)
Fixpoint rep_loop
  (mt_a : mstate -> (mstate -> option mstate) -> option mstate)
  (gs : list nat) (greedy : bool) (k : mstate -> option mstate)
  (fuel mn : nat) (mx : option nat) (st : mstate) {struct fuel}
  : option mstate :=
  match fuel with
  | O => None
  | S fuel' =>
      if max_is_zero mx then k st
      else
        let iter (_ : unit) :=
          mt_a (clear_caps gs st)
               (fun st' =>
                  if Nat.eqb mn 0
                     && Nat.eqb (List.length (after st')) (List.length (after st))
                  then None
                  else rep_loop mt_a gs greedy k fuel' (pred mn)
                                (option_map pred mx) st') in
        if Nat.ltb 0 mn then iter tt
        else if greedy
        then match iter tt with Some r' => Some r' | None => k st end
        else match k st with Some r' => Some r' | None => iter tt end
  end.

Section Matcher.
Variable fl : flags.

Fixpoint mt (r : re) (st : mstate) (k : mstate -> option mstate) {struct r}
  : option mstate :=
  match r with
  | Empty => k st
  | Chr p =>
      match after st with
      | c :: rest => if chr_eq (f_ignoreCase fl) p c then k (step1 st c rest) else None
      | [] => None
      end
  | Any =>
      match after st with
      | c :: rest =>
          if f_dotAll fl || negb (Chars.is_line_terminator c)
          then k (step1 st c rest) else None
      | [] => None
      end
  | Cls neg items =>
      match after st with
      | c :: rest =>
          if xorb neg (in_set (f_ignoreCase fl) items c)
          then k (step1 st c rest) else None
      | [] => None
      end
  | Seq a b => mt a st (fun st' => mt b st' k)
  | Alt a b =>
      match mt a st k with
      | Some r' => Some r'
      | None => mt b st k
      end
  | Group n a => mt a st (fun st' => k (set_cap n (consumed st st') st'))
  | NGroup a => mt a st k
  | Bol => if at_line_start fl st then k st else None
  | Eol => if at_line_end fl st then k st else None
  | WordB neg => if xorb neg (at_word_boundary st) then k st else None
  | Rep mn mx greedy a =>
      rep_loop (mt a) (groups_of a) greedy k
               (S (mn + List.length (after st))) mn mx st
  end.

(** One attempt at the current position. *)
Definition match_here (r : re) (st : mstate) : option mstate :=
  mt r st (fun st' => Some st').

(** Leftmost match: try every start position from the current one on. *)
Fixpoint search (r : re) (pre : list ascii) (s : list ascii) {struct s}
  : option (mstate * mstate) :=
  let st := {| before := pre; after := s; caps := [] |} in
  match match_here r st with
  | Some st' => Some (st, st')
  | None =>
      match s with
      | [] => None
      | c :: rest => search r (c :: pre) rest
      end
  end.
End Matcher.

(** The result of [exec] (and of [String.prototype.match] without [g]). *)
Record match_result := {
  index : nat;
  whole : string;
  captures : list (nat * string)
}.

(** [m[n]] for n >= 1; [None] is [undefined]. *)
Fixpoint assoc_nat (n : nat) (l : list (nat * string)) : option string :=
  match l with
  | [] => None
  | (k, v) :: l' => if Nat.eqb k n then Some v else assoc_nat n l'
  end.

Definition capture (n : nat) (m : match_result) : option string :=
  assoc_nat n (captures m).

(** Matching from index 0, as every use in the source does (a fresh
    literal, or a regex whose [lastIndex] is 0). *)
Definition exec (r : regex) (s : string) : option match_result :=
  match search (rflags r) (source r) [] (list_ascii_of_string s) with
  | Some (st, st') =>
      Some {| index := List.length (before st);
              whole := consumed st st';
              captures := caps st' |}
  | None => None
  end.

Definition test (r : regex) (s : string) : bool :=
  match exec r s with Some _ => true | None => false end.

(** *** Parsing a pattern

    Covered: pattern characters, [.], [^ $ \b \B], the class escapes
    [\d \D \w \W \s \S], the control escapes [\t \n \v \f \r], identity
    escapes, classes with ranges, capturing and [(?:)] groups, [|], and the
    quantifiers [* + ? {n} {n,} {n,m}] with their lazy forms.  A pattern
    that uses anything else (look-around, named groups, back references,
    [\c \x \u \k \p], the flags [u] and [v]) is [PUnsupported]: the model
    says nothing about it.  [PSyntaxError] is the host throwing. *)

Inductive presult (A : Type) :=
| POk (a : A)
| PSyntaxError
| PUnsupported.
Arguments PSyntaxError {A}.
Arguments PUnsupported {A}.

Definition pbind {A B : Type} (x : presult A) (f : A -> presult B) : presult B :=
  match x with
  | POk a => f a
  | PSyntaxError => PSyntaxError
  | PUnsupported => PUnsupported
  end.

Notation "x <- c ;; k" := (pbind c (fun x => k))
  (at level 61, c at next level, right associativity).
Notation "' pat <- c ;; k" := (pbind c (fun x => match x with pat => k end))
  (at level 61, pat pattern, c at next level, right associativity).

Definition is_chr (c : ascii) (lit : string) : bool :=
  match lit with
  | String d EmptyString => Ascii.eqb c d
  | _ => false
  end.

Definition one_of (c : ascii) (lits : string) : bool :=
  existsb (Ascii.eqb c) (list_ascii_of_string lits).

Fixpoint span_digits (s : list ascii) : list ascii * list ascii :=
  match s with
  | c :: s' =>
      if Chars.is_digit c
      then let (ds, rest) := span_digits s' in (c :: ds, rest)
      else ([], s)
  | [] => ([], [])
  end.

Definition digit_val (c : ascii) : N := (Chars.code c - 48)%N.

Definition N_of_digits (ds : list ascii) : N :=
  fold_left (fun acc c => (10 * acc + digit_val c)%N) ds 0%N.

Definition nat_of_digits (ds : list ascii) : nat := N.to_nat (N_of_digits ds).

(** The text after an opening brace, when it completes a quantifier. *)
Definition parse_brace (s : list ascii) : option (nat * option nat * list ascii) :=
  match span_digits s with
  | ([], _) => None
  | (d1, c :: s1) =>
      if is_chr c "}" then Some (nat_of_digits d1, Some (nat_of_digits d1), s1)
      else if is_chr c "," then
        match span_digits s1 with
        | (d2, c2 :: s2) =>
            if is_chr c2 "}" then
              Some (nat_of_digits d1,
                    match d2 with [] => None | _ => Some (nat_of_digits d2) end,
                    s2)
            else None
        | (_, []) => None
        end
      else None
  | (_, []) => None
  end.

Definition lazy_suffix (mn : nat) (mx : option nat) (atom : re) (s : list ascii)
  : presult (re * list ascii) :=
  match s with
  | c :: s' =>
      if is_chr c "?" then POk (Rep mn mx false atom, s')
      else POk (Rep mn mx true atom, s)
  | [] => POk (Rep mn mx true atom, s)
  end.

Definition out_of_order (mn : nat) (mx : option nat) : bool :=
  match mx with Some m => Nat.ltb m mn | None => false end.

(** An optional quantifier after an atom. *)
Definition parse_quant (atom : re) (s : list ascii) : presult (re * list ascii) :=
  match s with
  | c :: s1 =>
      if is_chr c "*" then lazy_suffix 0 None atom s1
      else if is_chr c "+" then lazy_suffix 1 None atom s1
      else if is_chr c "?" then lazy_suffix 0 (Some 1) atom s1
      else if is_chr c "{" then
        match parse_brace s1 with
        | Some (mn, mx, s2) =>
            if out_of_order mn mx then PSyntaxError else lazy_suffix mn mx atom s2
        | None => POk (atom, s)
        end
      else POk (atom, s)
  | [] => POk (atom, s)
  end.

Definition starts_quantifier (s : list ascii) : bool :=
  match s with
  | c :: s1 =>
      one_of c "*+?"
      || (is_chr c "{" && match parse_brace s1 with Some _ => true | None => false end)
  | [] => false
  end.

(** An assertion takes no quantifier. *)
Definition parse_assertion (a : re) (s : list ascii) : presult (re * list ascii) :=
  if starts_quantifier s then PSyntaxError else POk (a, s).

Definition cls_of_escape (x : ascii) : option cls :=
  if is_chr x "d" then Some Digit
  else if is_chr x "D" then Some NotDigit
  else if is_chr x "w" then Some Word
  else if is_chr x "W" then Some NotWord
  else if is_chr x "s" then Some Space
  else if is_chr x "S" then Some NotSpace
  else None.

Definition control_of_escape (x : ascii) : option ascii :=
  if is_chr x "t" then Some (ascii_of_N 9)
  else if is_chr x "n" then Some (ascii_of_N 10)
  else if is_chr x "v" then Some (ascii_of_N 11)
  else if is_chr x "f" then Some (ascii_of_N 12)
  else if is_chr x "r" then Some (ascii_of_N 13)
  else None.

(** Escapes the model leaves alone: digits (back references, octal and
    [\0]) and [\c \x \u \k \p \P]. *)
Definition unsupported_escape (x : ascii) : bool :=
  Chars.is_digit x || one_of x "cxukpP".

(** The atom or assertion after a backslash, outside a class. *)
Definition parse_escape (s : list ascii) : presult (re * list ascii) :=
  match s with
  | [] => PSyntaxError
  | x :: s' =>
      if Chars.is_syntax_char x || is_chr x "/" then parse_quant (Chr x) s'
      else if is_chr x "b" then parse_assertion (WordB false) s'
      else if is_chr x "B" then parse_assertion (WordB true) s'
      else match cls_of_escape x with
           | Some k => parse_quant (Cls false [CEsc k]) s'
           | None =>
               match control_of_escape x with
               | Some c => parse_quant (Chr c) s'
               | None =>
                   if unsupported_escape x then PUnsupported
                   else parse_quant (Chr x) s'
               end
           end
  end.

(** One member of a class: a character or a class escape. *)
Definition class_atom (s : list ascii) : presult ((ascii + cls) * list ascii) :=
  match s with
  | [] => PSyntaxError
  | c :: s' =>
      if is_chr c "\" then
        match s' with
        | [] => PSyntaxError
        | x :: s'' =>
            match cls_of_escape x with
            | Some k => POk (inr k, s'')
            | None =>
                if is_chr x "b" then POk (inl (ascii_of_N 8), s'')
                else match control_of_escape x with
                     | Some cc => POk (inl cc, s'')
                     | None =>
                         if unsupported_escape x then PUnsupported
                         else POk (inl x, s'')
                     end
            end
        end
      else POk (inl c, s')
  end.

Definition item_of (a : ascii + cls) : citem :=
  match a with
  | inl c => CRange c c
  | inr k => CEsc k
  end.

Definition dash : ascii := "-"%char.

Fixpoint class_items (fuel : nat) (s : list ascii) : presult (list citem * list ascii) :=
  match fuel with
  | O => PUnsupported
  | S f =>
      match s with
      | [] => PSyntaxError
      | c :: s' =>
          if is_chr c "]" then POk ([], s')
          else
            '(a, s1) <- class_atom s ;;
            match s1 with
            | d :: (e :: _) as s2 =>
                if is_chr d "-" && negb (is_chr e "]") then
                  '(b, s3) <- class_atom s2 ;;
                  '(rest, s4) <- class_items f s3 ;;
                  match a, b with
                  | inl lo, inl hi =>
                      if (Chars.code hi <? Chars.code lo)%N then PSyntaxError
                      else POk (CRange lo hi :: rest, s4)
                  | _, _ => POk (item_of a :: CRange dash dash :: item_of b :: rest, s4)
                  end
                else
                  '(rest, s4) <- class_items f s1 ;;
                  POk (item_of a :: rest, s4)
            | _ =>
                '(rest, s4) <- class_items f s1 ;;
                POk (item_of a :: rest, s4)
            end
      end
  end.

(** The text after an opening bracket. *)
Definition parse_class (s : list ascii) : presult (re * list ascii) :=
  match s with
  | c :: s' =>
      if is_chr c "^" then
        '(items, rest) <- class_items (S (List.length s')) s' ;;
        POk (Cls true items, rest)
      else
        '(items, rest) <- class_items (S (List.length s)) s ;;
        POk (Cls false items, rest)
  | [] => PSyntaxError
  end.

Definition expect_close (s : list ascii) : presult (list ascii) :=
  match s with
  | c :: s' => if is_chr c ")" then POk s' else PSyntaxError
  | [] => PSyntaxError
  end.

Fixpoint parse_disj (fuel : nat) (s : list ascii) (n : nat) {struct fuel}
  : presult (re * list ascii * nat) :=
  match fuel with
  | O => PUnsupported
  | S f =>
      '(a, s1, n1) <- parse_alt f s n ;;
      match s1 with
      | c :: s2 =>
          if is_chr c "|" then
            '(b, s3, n3) <- parse_disj f s2 n1 ;;
            POk (Alt a b, s3, n3)
          else POk (a, s1, n1)
      | [] => POk (a, s1, n1)
      end
  end
with parse_alt (fuel : nat) (s : list ascii) (n : nat) {struct fuel}
  : presult (re * list ascii * nat) :=
  match fuel with
  | O => PUnsupported
  | S f =>
      match s with
      | [] => POk (Empty, [], n)
      | c :: s' =>
          if one_of c "|)" then POk (Empty, s, n)
          else
            '(t, s1, n1) <- parse_term f c s' n ;;
            '(r, s2, n2) <- parse_alt f s1 n1 ;;
            POk (Seq t r, s2, n2)
      end
  end
with parse_term (fuel : nat) (c : ascii) (s : list ascii) (n : nat) {struct fuel}
  : presult (re * list ascii * nat) :=
  match fuel with
  | O => PUnsupported
  | S f =>
      let done (x : presult (re * list ascii)) :=
        '(t, s1) <- x ;; POk (t, s1, n) in
      if Chars.is_syntax_char c then
        if is_chr c "^" then done (parse_assertion Bol s)
        else if is_chr c "$" then done (parse_assertion Eol s)
        else if is_chr c "\" then done (parse_escape s)
        else if is_chr c "." then done (parse_quant Any s)
        else if one_of c "*+?" then PSyntaxError
        else if is_chr c "[" then
          done ('(a, s1) <- parse_class s ;; parse_quant a s1)
        else if is_chr c "(" then
          match s with
          | q :: s1 =>
              if is_chr q "?" then
                match s1 with
                | k :: s2 =>
                    if is_chr k ":" then
                      '(a, s3, n3) <- parse_disj f s2 n ;;
                      s4 <- expect_close s3 ;;
                      '(t, s5) <- parse_quant (NGroup a) s4 ;;
                      POk (t, s5, n3)
                    else PUnsupported
                | [] => PSyntaxError
                end
              else
                '(a, s3, n3) <- parse_disj f s (S n) ;;
                s4 <- expect_close s3 ;;
                '(t, s5) <- parse_quant (Group (S n) a) s4 ;;
                POk (t, s5, n3)
          | [] => PSyntaxError
          end
        else if is_chr c "{" then
          match parse_brace s with
          | Some _ => PSyntaxError
          | None => done (parse_quant (Chr c) s)
          end
        else done (parse_quant (Chr c) s)
      else done (parse_quant (Chr c) s)
  end.

Definition no_flags : flags :=
  {| f_global := false; f_ignoreCase := false; f_multiline := false;
     f_dotAll := false; f_sticky := false; f_indices := false |}.

(** A flag may appear once; [u] and [v] change the grammar and are left
    out of the model. *)
Fixpoint parse_flags (s : list ascii) (fl : flags) : presult flags :=
  match s with
  | [] => POk fl
  | c :: s' =>
      if is_chr c "g" then
        if f_global fl then PSyntaxError else
        parse_flags s' {| f_global := true; f_ignoreCase := f_ignoreCase fl;
                          f_multiline := f_multiline fl; f_dotAll := f_dotAll fl;
                          f_sticky := f_sticky fl; f_indices := f_indices fl |}
      else if is_chr c "i" then
        if f_ignoreCase fl then PSyntaxError else
        parse_flags s' {| f_global := f_global fl; f_ignoreCase := true;
                          f_multiline := f_multiline fl; f_dotAll := f_dotAll fl;
                          f_sticky := f_sticky fl; f_indices := f_indices fl |}
      else if is_chr c "m" then
        if f_multiline fl then PSyntaxError else
        parse_flags s' {| f_global := f_global fl; f_ignoreCase := f_ignoreCase fl;
                          f_multiline := true; f_dotAll := f_dotAll fl;
                          f_sticky := f_sticky fl; f_indices := f_indices fl |}
      else if is_chr c "s" then
        if f_dotAll fl then PSyntaxError else
        parse_flags s' {| f_global := f_global fl; f_ignoreCase := f_ignoreCase fl;
                          f_multiline := f_multiline fl; f_dotAll := true;
                          f_sticky := f_sticky fl; f_indices := f_indices fl |}
      else if is_chr c "y" then
        if f_sticky fl then PSyntaxError else
        parse_flags s' {| f_global := f_global fl; f_ignoreCase := f_ignoreCase fl;
                          f_multiline := f_multiline fl; f_dotAll := f_dotAll fl;
                          f_sticky := true; f_indices := f_indices fl |}
      else if is_chr c "d" then
        if f_indices fl then PSyntaxError else
        parse_flags s' {| f_global := f_global fl; f_ignoreCase := f_ignoreCase fl;
                          f_multiline := f_multiline fl; f_dotAll := f_dotAll fl;
                          f_sticky := f_sticky fl; f_indices := true |}
      else if one_of c "uv" then PUnsupported
      else PSyntaxError
  end.

Definition parse_pattern (p : list ascii) : presult re :=
  '(r, rest, _) <- parse_disj (3 * List.length p + 3) p 0 ;;
  match rest with
  | [] => POk r
  | _ :: _ => PSyntaxError     (* a closing parenthesis with no opening one *)
  end.

(** [new RegExp(pattern, flags)]. *)
Definition RegExp_new (pattern flags_text : string) : presult regex :=
  fl <- parse_flags (list_ascii_of_string flags_text) no_flags ;;
  r <- parse_pattern (list_ascii_of_string pattern) ;;
  POk {| source := r; rflags := fl |}.

(** A regular-expression literal [/pattern/flags] of the source text; a
    literal the model does not cover would match nothing. *)
Definition never : regex := {| source := Cls false []; rflags := no_flags |}.

Definition literal (pattern flags_text : string) : regex :=
  match RegExp_new pattern flags_text with
  | POk r => r
  | _ => never
  end.

End Regex.

(* ===================================================================== *)
(** ** Host library: arrays, objects used as dictionaries, strings *)
(* ===================================================================== *)

Module JS.

(** *** [Array.prototype.sort] with a comparator: a stable sort.  An element
    moves behind another only when the comparator is positive. *)
Section Sort.
Variable A : Type.
Variable cmp : A -> A -> Z.

Fixpoint insert (x : A) (l : list A) : list A :=
  match l with
  | [] => [x]
  | y :: l' => if (0 <? cmp x y)%Z then y :: insert x l' else x :: l
  end.

Definition sort (l : list A) : list A := fold_right insert [] l.
End Sort.

(** *** Numbers.  A number of the host is a double.  The ones met here are
    whole and not negative, or [Infinity]; each is held as the integer it
    equals, and [Infinity] as [2^1024], which no double equals.  The
    comparators below subtract two such numbers and [sort] looks at the
    sign of the result only: the difference of the integers has the sign
    of the difference of the doubles, and is zero where that one is zero
    or, for [Infinity - Infinity], [NaN], which [sort] takes for zero. *)
Definition INFINITY : Z := (2 ^ 1024)%Z.

(** The double nearest to a natural number: the number itself up to 53
    bits, else its 53 leading bits, rounded on the bits cut off (a tie
    goes to the even significand), and [Infinity] from [2^1024] on. *)
Definition to_double (n : N) : Z :=
  let bits := N.size n in
  if (bits <=? 53)%N then Z.of_N n
  else
    let cut := (bits - 53)%N in
    let significand := N.shiftr n cut in
    let rest := (n - N.shiftl significand cut)%N in
    let half := N.shiftl 1 (cut - 1) in
    let rounded :=
      if ((half <? rest) || ((rest =? half) && N.odd significand))%N
      then (significand + 1)%N else significand in
    Z.min (Z.of_N (N.shiftl rounded cut)) INFINITY.

(** *** [parseInt(s, 10)] on the digits a pattern captured: the double
    nearest to the number the digits write, every digit counting, as
    Node's engine reads it. *)
Definition parseInt (s : string) : Z :=
  to_double (Regex.N_of_digits (fst (Regex.span_digits (list_ascii_of_string s)))).

(** *** [[...new Set(xs)]]: first occurrences, in order. *)
Fixpoint dedup_from (seen : list string) (xs : list string) : list string :=
  match xs with
  | [] => []
  | x :: xs' =>
      if existsb (String.eqb x) seen then dedup_from seen xs'
      else x :: dedup_from (x :: seen) xs'
  end.

Definition dedup (xs : list string) : list string := dedup_from [] xs.

(** *** An object literal [{}] used as a dictionary.

    Own properties are kept in creation order.  Reading a key that is not
    an own property falls through to [Object.prototype], whose members are
    all truthy and are not dictionaries. *)
Section Obj.
Variable V : Type.

Definition obj := list (string * V).

Inductive lookup :=
| Own (v : V)
| Inherited
| Undefined.

Definition proto_keys : list string :=
  [ "constructor"; "__defineGetter__"; "__defineSetter__"; "hasOwnProperty";
    "__lookupGetter__"; "__lookupSetter__"; "isPrototypeOf";
    "propertyIsEnumerable"; "toString"; "valueOf"; "__proto__";
    "toLocaleString" ].

Fixpoint own (k : string) (o : obj) : option V :=
  match o with
  | [] => None
  | (k', v) :: o' => if String.eqb k k' then Some v else own k o'
  end.

Definition get (k : string) (o : obj) : lookup :=
  match own k o with
  | Some v => Own v
  | None => if existsb (String.eqb k) proto_keys then Inherited else Undefined
  end.

(** [o[k] = v]: replaces an own property in place, or creates it last. *)
Fixpoint set (k : string) (v : V) (o : obj) : obj :=
  match o with
  | [] => [(k, v)]
  | (k', v') :: o' =>
      if String.eqb k k' then (k', v) :: o' else (k', v') :: set k v o'
  end.

(** A key is an array index when it is the canonical decimal text of an
    integer below 2^32 - 1. *)
Definition array_index (k : string) : option N :=
  match list_ascii_of_string k with
  | [] => None
  | c :: rest =>
      if forallb Chars.is_digit (c :: rest)
         && (negb (Ascii.eqb c "0") || match rest with [] => true | _ => false end)
         && (List.length (c :: rest) <=? 10)%nat
      then
        let n := Regex.N_of_digits (c :: rest) in
        if (n <? 4294967295)%N then Some n else None
      else None
  end.

Definition index_cmp (a b : N * (string * V)) : Z :=
  (Z.of_N (fst a) - Z.of_N (fst b))%Z.

Fixpoint index_entries (o : obj) : list (N * (string * V)) :=
  match o with
  | [] => []
  | (k, v) :: o' =>
      match array_index k with
      | Some n => (n, (k, v)) :: index_entries o'
      | None => index_entries o'
      end
  end.

(** [Object.entries]: array-index keys first, ascending, then the other
    keys in creation order. *)
Definition entries (o : obj) : list (string * V) :=
  map snd (sort index_cmp (index_entries o))
  ++ filter (fun kv => match array_index (fst kv) with
                       | Some _ => false
                       | None => true
                       end) o.
End Obj.

Arguments Inherited {V}.
Arguments Undefined {V}.

(** *** [String.prototype.split(/\r?\n/)]: never empty; a lone CR does not
    split. *)
Fixpoint split_from (cur : list ascii) (s : list ascii) : list string :=
  match s with
  | [] => [string_of_list_ascii (rev cur)]
  | c :: rest =>
      if Ascii.eqb c Chars.LF
      then string_of_list_ascii (rev cur) :: split_from [] rest
      else if Ascii.eqb c Chars.CR
      then match rest with
           | d :: rest' =>
               if Ascii.eqb d Chars.LF
               then string_of_list_ascii (rev cur) :: split_from [] rest'
               else split_from (c :: cur) rest
           | [] => split_from (c :: cur) rest
           end
      else split_from (c :: cur) rest
  end.

Definition split_lines (s : string) : list string :=
  split_from [] (list_ascii_of_string s).

(** *** [Buffer.alloc(len)] then [fs.readSync(fd, buffer, 0, len, pos)]: the
    bytes read, and zeros where the file ended early. *)
Definition read_into_buffer (content : list ascii) (len pos : N) : list ascii :=
  let got := firstn (N.to_nat len) (skipn (N.to_nat pos) content) in
  got ++ repeat Chars.NUL (N.to_nat len - List.length got).

(** [buffer.toString("utf-8")]. *)
Definition toString_utf8 (b : list ascii) : string := string_of_list_ascii b.

(** *** [path.basename] (POSIX): the last component, trailing separators
    dropped. *)
Fixpoint drop_slashes (r : list ascii) : list ascii :=
  match r with
  | c :: r' => if Ascii.eqb c "/" then drop_slashes r' else r
  | [] => []
  end.

Fixpoint take_component (r : list ascii) : list ascii :=
  match r with
  | c :: r' => if Ascii.eqb c "/" then [] else c :: take_component r'
  | [] => []
  end.

Definition path_basename (p : string) : string :=
  string_of_list_ascii
    (rev (take_component (drop_slashes (rev (list_ascii_of_string p))))).

End JS.

(* ===================================================================== *)
(** ** server/index.js *)
(* ===================================================================== *)

(** What a route answers: a JSON body, or a status with an error text. *)
Inductive response (A : Type) :=
| Ok (body : A)
| Fail (status : nat) (error : string).
Arguments Fail {A}.

(** [fs.statSync]: size in bytes and modification time in milliseconds. *)
Record stat := { st_size : N; st_mtime : Z }.

(** [m[n]] as a text, for the patterns where group [n] takes part in every
    match. *)
Definition group_text (n : nat) (m : Regex.match_result) : string :=
  match Regex.capture n m with
  | Some s => s
  | None => EmptyString
  end.

(** [escapeRegex]: [str.replace(/[.*+?^${}()|[\]\\]/g, "\\$&")]. *)
Definition ESCAPE_REGEX : Regex.regex := Regex.literal "[.*+?^${}()|[\]\\]" "g".

Definition escape_char (c : ascii) : list ascii :=
  if Regex.test ESCAPE_REGEX (String c EmptyString) then ["\"%char; c] else [c].

Definition escapeRegex (str : string) : string :=
  string_of_list_ascii (flat_map escape_char (list_ascii_of_string str)).

(** The message of the TypeError raised by [undefined.push(...)]. *)
Definition TYPE_ERROR_PUSH : string :=
  "Cannot read properties of undefined (reading 'push')".

(** *** POST /api/scan *)
Module Scan.

(** One path returned by [glob("**/*", {cwd, absolute, nodir, dot: false})],
    with what [path.basename], [path.dirname], [path.relative] and
    [fs.statSync] answer for it ([None]: statSync throws). *)
Record found := {
  fd_path : string;
  fd_basename : string;
  fd_dirname : string;
  fd_relative : string;
  fd_stat : option stat
}.

(** One entry of [req.body.folders]: [path.resolve(folder)], whether it
    exists, and the files found under it. *)
Record folder := {
  resolved : string;
  present : bool;
  found_files : list found
}.

Record logfile := {
  name : string;
  path : string;
  dir : string;
  relativePath : string;
  sourceFolder : string;
  size : N;
  modified : Z
}.

Definition LOG_FILE_REGEX : Regex.regex :=
  Regex.literal "\.(log|txt|out|err)(\.[0-9]+)?$" "i".

Definition OWNER_REGEX : Regex.regex := Regex.literal "\.log\.[a-z]+$" "i".

Definition collect_found (fo : folder) (f : found) : list logfile :=
  if negb (Regex.test LOG_FILE_REGEX (fd_basename f)) then []
  else if Regex.test OWNER_REGEX (fd_basename f) then []
  else match fd_stat f with
       | Some st =>
           [ {| name := fd_basename f; path := fd_path f; dir := fd_dirname f;
                relativePath := fd_relative f; sourceFolder := resolved fo;
                size := st_size st; modified := st_mtime st |} ]
       | None => []
       end.

Definition collect_folder (fo : folder) : list logfile :=
  if negb (present fo) then [] else flat_map (collect_found fo) (found_files fo).

Definition collect (folders : list folder) : list logfile :=
  flat_map collect_folder folders.

Definition ROLLED_REGEX : Regex.regex :=
  Regex.literal "^(.+)\.(log|txt|out|err)\.([0-9]+)$" "i".

Definition BASE_REGEX : Regex.regex :=
  Regex.literal "^(.+)\.(log|txt|out|err)$" "i".

Definition groupKey (file_name : string) : string :=
  match Regex.exec ROLLED_REGEX file_name with
  | Some rolledMatch => group_text 1 rolledMatch
  | None =>
      match Regex.exec BASE_REGEX file_name with
      | Some baseMatch => group_text 1 baseMatch
      | None => file_name
      end
  end.

Record bucket := { b_groupName : string; b_files : list logfile }.

(** One turn of the grouping loop; [None] is the TypeError of pushing onto
    a member of [Object.prototype]. *)
Definition add_file (acc : option (JS.obj bucket)) (file : logfile)
  : option (JS.obj bucket) :=
  match acc with
  | None => None
  | Some groups =>
      let k := groupKey (name file) in
      match JS.get k groups with
      | JS.Undefined =>
          Some (JS.set k {| b_groupName := k; b_files := [file] |} groups)
      | JS.Own b =>
          Some (JS.set k {| b_groupName := b_groupName b;
                            b_files := b_files b ++ [file] |} groups)
      | JS.Inherited => None
      end
  end.

Definition ROLL_SUFFIX_REGEX : Regex.regex := Regex.literal "\.([0-9]+)$" EmptyString.

Definition rollNum (file_name : string) : Z :=
  match Regex.exec ROLL_SUFFIX_REGEX file_name with
  | Some m => JS.parseInt (group_text 1 m)
  | None => 0%Z
  end.

(** The comparator of [group.files.sort]: [bNum - aNum]. *)
Definition by_roll (a b : logfile) : Z :=
  (rollNum (name b) - rollNum (name a))%Z.

Record loggroup := {
  groupName : string;
  files : list logfile;
  fileCount : nat;
  totalSize : N;
  lastModified : Z;
  directories : list string
}.

Definition make_group (kv : string * bucket) : loggroup :=
  let sorted := JS.sort by_roll (b_files (snd kv)) in
  {| groupName := fst kv;
     files := sorted;
     fileCount := List.length sorted;
     totalSize := fold_left (fun sum f => (sum + size f)%N) sorted 0%N;
     lastModified :=
       fold_left (fun latest f => if (modified f >? latest)%Z then modified f else latest)
                 sorted 0%Z;
     directories := JS.dedup (map dir sorted) |}.

Record result := {
  groups : list loggroup;
  totalFiles : nat;
  totalGroups : nat
}.

Section WithCollation.
(** [a.localeCompare(b, undefined, { sensitivity: "base" })]. *)
Variable localeCompareBase : string -> string -> Z.

Definition by_groupName (a b : loggroup) : Z :=
  localeCompareBase (groupName a) (groupName b).

(** The route from the grouping loop on. *)
Definition respond (allFiles : list logfile) : response result :=
  match fold_left add_file allFiles (Some []) with
  | None => Fail 500 TYPE_ERROR_PUSH
  | Some groups =>
      let sorted := JS.sort by_groupName (map make_group (JS.entries groups)) in
      Ok {| groups := sorted;
            totalFiles := List.length allFiles;
            totalGroups := List.length sorted |}
  end.

(** [folders] is [None] when the body has no array under that name. *)
Definition scan (folders : option (list folder)) : response result :=
  match folders with
  | None | Some [] => Fail 400 "folders array is required"
  | Some fs => respond (collect fs)
  end.
End WithCollation.

End Scan.

(** *** The file system seen by the merge and by the tail *)

(** A path names a regular file (its bytes) or a directory (with the size
    [statSync] reports for it); a path not in the map does not exist. *)
Inductive node :=
| File (bytes : list ascii)
| Dir (dsize : N).

Definition filesystem := string -> option node.

Definition node_size (n : node) : N :=
  match n with
  | File bytes => N.of_nat (List.length bytes)
  | Dir dsize => dsize
  end.

(** [10 * 1024 * 1024] *)
Definition MAX_READ : N := 10 * 1024 * 1024.

(** *** POST /api/read-multi *)
Module ReadMulti.

Record marker := {
  fileName : string;
  path : string;
  startLine : nat;
  lineCount : nat
}.

Record acc := {
  allLines : list string;
  totalSize : N;
  fileMarkers : list marker
}.

(** [lines.pop()] when the last element is the empty string. *)
Definition drop_last_empty (lines : list string) : list string :=
  match rev lines with
  | last :: front => if String.eqb last EmptyString then rev front else lines
  | [] => lines
  end.

(** The lines the loop body takes from one file of [size] bytes: at most
    [MAX_READ] bytes read at position 0. *)
Definition read_lines (bytes : list ascii) : list string :=
  let maxRead := N.min (N.of_nat (List.length bytes)) MAX_READ in
  let buffer := JS.read_into_buffer bytes maxRead 0 in
  drop_last_empty (JS.split_lines (JS.toString_utf8 buffer)).

(** The body of [for (const fp of filePaths)]. *)
Definition step (fs : filesystem) (a : acc) (fp : string) : acc :=
  match fs fp with
  | None => a                                     (* !fs.existsSync(fp) *)
  | Some (Dir _) => a                             (* stat.isDirectory() *)
  | Some (File bytes) =>
      let lines := read_lines bytes in
      {| allLines := allLines a ++ lines;
         totalSize := (totalSize a + node_size (File bytes))%N;
         fileMarkers :=
           fileMarkers a ++
           [ {| fileName := JS.path_basename fp; path := fp;
                startLine := List.length (allLines a);
                lineCount := List.length lines |} ] |}
  end.

Definition empty : acc := {| allLines := []; totalSize := 0; fileMarkers := [] |}.

Definition merge (fs : filesystem) (filePaths : list string) : acc :=
  fold_left (step fs) filePaths empty.

Record result := {
  r_lines : list string;
  r_totalSize : N;
  r_fileCount : nat;
  r_fileMarkers : list marker;
  r_fileName : string
}.

(** Decimal text of a count, for the summary name. *)
Fixpoint digits_of (fuel : nat) (n : N) (acc : list ascii) : list ascii :=
  match fuel with
  | O => acc
  | S f =>
      let d := ascii_of_N (48 + n mod 10) in
      if (n <? 10)%N then d :: acc else digits_of f (n / 10)%N (d :: acc)
  end.

Definition decimal (n : nat) : string :=
  string_of_list_ascii (digits_of (S n) (N.of_nat n) []).

(** [filePaths] is [None] when the body has no array under [paths]. *)
Definition readMulti (fs : filesystem) (filePaths : option (list string))
  : response result :=
  match filePaths with
  | None | Some [] => Fail 400 "paths array is required"
  | Some ps =>
      let a := merge fs ps in
      Ok {| r_lines := allLines a;
            r_totalSize := totalSize a;
            r_fileCount := List.length (fileMarkers a);
            r_fileMarkers := fileMarkers a;
            r_fileName :=
              if (0 <? List.length (fileMarkers a))%nat
              then decimal (List.length (fileMarkers a)) ++ " files merged"
              else "(empty)" |}
  end.

End ReadMulti.

(** *** The WebSocket session: one tail per connection *)
Module Tail.

(** Server to client messages. *)
Inductive server_msg :=
| TailStarted (path : string)
| NewLines (lines : list string)
| Truncated
| TailStopped
| Error (message : string).

(** [JSON.parse(data.toString())], as far as the handler looks at it:
    the members [type] and [path] of an object ([None]: absent or falsy);
    [NotObject] is a parse result whose [type] member is undefined;
    [JsonNull] makes the member access throw; [Malformed] makes
    [JSON.parse] throw, with the given message. *)
Inductive client_msg :=
| Msg (type : option string) (path : option string)
| NotObject
| JsonNull
| Malformed (message : string).

(** The variables of one connection.  [currentWatcher] holds the watched
    path while a watcher is open. *)
Record session := {
  currentWatcher : option string;
  currentFile : option string;
  lastSize : N
}.

Definition initial : session :=
  {| currentWatcher := None; currentFile := None; lastSize := 0 |}.

Definition ENOENT (syscall p : string) : string :=
  "ENOENT: no such file or directory, " ++ syscall ++ " '" ++ p ++ "'".

Definition EISDIR : string := "EISDIR: illegal operation on a directory, read".

Definition NULL_TYPE : string :=
  "Cannot read properties of null (reading 'type')".

Definition non_empty (l : string) : bool := negb (String.eqb l EmptyString).

(** The [change] handler of the open watcher. *)
Definition on_change (fs : filesystem) (s : session) : session * list server_msg :=
  match currentWatcher s, currentFile s with
  | Some _, Some file =>
      match fs file with
      | None => (s, [Error (ENOENT "stat" file)])
      | Some n =>
          let newSize := node_size n in
          let resized := {| currentWatcher := currentWatcher s;
                            currentFile := currentFile s;
                            lastSize := newSize |} in
          if (lastSize s <? newSize)%N then
            match n with
            | Dir _ => (s, [Error EISDIR])
            | File bytes =>
                let bytesToRead := (newSize - lastSize s)%N in
                let buffer := JS.read_into_buffer bytes bytesToRead (lastSize s) in
                let content := JS.toString_utf8 buffer in
                let newLines := filter non_empty (JS.split_lines content) in
                if (0 <? List.length newLines)%nat
                then (resized, [NewLines newLines])
                else (resized, [])
            end
          else if (newSize <? lastSize s)%N then (resized, [Truncated])
          else (resized, [])
      end
  | _, _ => (s, [])
  end.

Definition is_type (t : string) (m : option string) : bool :=
  match m with Some x => String.eqb x t | None => false end.

(** The [message] handler. *)
Definition on_message (fs : filesystem) (s : session) (m : client_msg)
  : session * list server_msg :=
  match m with
  | Malformed message => (s, [Error message])
  | JsonNull => (s, [Error NULL_TYPE])
  | NotObject => (s, [])
  | Msg type path =>
      if is_type "tail" type
      then
        match path with
        | Some p =>
            if String.eqb p EmptyString then (s, []) else
            match fs p with
            | None =>
                ({| currentWatcher := None; currentFile := Some p;
                    lastSize := lastSize s |},
                 [Error "File not found"])
            | Some n =>
                ({| currentWatcher := Some p; currentFile := Some p;
                    lastSize := node_size n |},
                 [TailStarted p])
            end
        | None => (s, [])
        end
      else if is_type "stop-tail" type
      then
        match currentWatcher s with
        | Some _ =>
            ({| currentWatcher := None; currentFile := currentFile s;
                lastSize := lastSize s |},
             [TailStopped])
        | None => (s, [])
        end
      else (s, [])
  end.

(** The [close] handler. *)
Definition on_close (s : session) : session :=
  {| currentWatcher := None; currentFile := currentFile s; lastSize := lastSize s |}.

Inductive event :=
| Message (m : client_msg)
| Change
| Close.

Definition handle (fs : filesystem) (s : session) (e : event)
  : session * list server_msg :=
  match e with
  | Message m => on_message fs s m
  | Change => on_change fs s
  | Close => (on_close s, [])
  end.

End Tail.

(** *** POST /api/browse *)
Module Browse.

(** One entry of [fs.readdirSync(resolved, { withFileTypes: true })], with
    [path.join(resolved, entry.name)] and what [fs.statSync] answers for
    that path ([inr message]: it throws). *)
Record dirent := {
  d_name : string;
  d_isDirectory : bool;
  d_path : string;
  d_stat : stat + string
}.

(** What the resolved path is on disk; [Threw message]: one of
    [path.resolve], [fs.statSync] and [fs.readdirSync] throws, as on a
    path that is no string or a directory that may not be read. *)
Inductive target :=
| Missing
| NotDirectory
| Directory (entries : list dirent)
| Threw (message : string).

Record folder_item := { fo_name : string; fo_path : string }.

(** A listed file; [rollNumber] is set on the copies kept as rolled
    members of a group. *)
Record file_item := {
  name : string;
  path : string;
  size : N;
  modified : Z;
  rollNumber : option Z
}.

Definition LOG_FILE_REGEX : Regex.regex :=
  Regex.literal "\.(log|txt|out|err)(\.[0-9]+)?$|\.log\.[a-z]+$" "i".

Definition startsWith_dot (s : string) : bool :=
  match s with
  | String c _ => Ascii.eqb c "."
  | EmptyString => false
  end.

(** The first loop: folders and eligible files, in directory order. *)
Fixpoint collect (entries : list dirent)
  : string + (list folder_item * list file_item) :=
  match entries with
  | [] => inr ([], [])
  | entry :: rest =>
      if startsWith_dot (d_name entry) then collect rest
      else if d_isDirectory entry then
        match collect rest with
        | inr (folders, files) =>
            inr ({| fo_name := d_name entry; fo_path := d_path entry |} :: folders,
                 files)
        | inl e => inl e
        end
      else if Regex.test LOG_FILE_REGEX (d_name entry) then
        match d_stat entry with
        | inl st =>
            match collect rest with
            | inr (folders, files) =>
                inr (folders,
                     {| name := d_name entry; path := d_path entry;
                        size := st_size st; modified := st_mtime st;
                        rollNumber := None |} :: files)
            | inl e => inl e
            end
        | inr message => inl message
        end
      else collect rest
  end.

Definition ROLLED_REGEX : Regex.regex :=
  Regex.literal "^(.+\.log)\.([0-9]+)$" "i".

(** [new RegExp(`^${escapeRegex(file.name)}\\.[0-9]+$`, "i")] *)
Definition sibling_regex (file_name : string) : Regex.presult Regex.regex :=
  Regex.RegExp_new ("^" ++ escapeRegex file_name ++ "\.[0-9]+$") "i".

Record pending := { base : option file_item; rolled : list file_item }.

Record grouping := {
  groups : JS.obj pending;
  standalone : list file_item
}.

(** [groups[k].rolled.push(member)], after [groups[k]] was created when
    absent; [None] is the TypeError raised when the key reads a member of
    [Object.prototype]. *)
Definition push_rolled (k : string) (member : file_item) (groups : JS.obj pending)
  : option (JS.obj pending) :=
  match JS.get k groups with
  | JS.Undefined => Some (JS.set k {| base := None; rolled := [member] |} groups)
  | JS.Own g =>
      Some (JS.set k {| base := base g; rolled := rolled g ++ [member] |} groups)
  | JS.Inherited => None
  end.

(** [groups[k].base = file], after [groups[k]] was created when absent;
    when the key reads a member of [Object.prototype] the write lands
    there and no group changes. *)
Definition assign_base (k : string) (file : file_item) (groups : JS.obj pending)
  : JS.obj pending :=
  match JS.get k groups with
  | JS.Undefined => JS.set k {| base := Some file; rolled := [] |} groups
  | JS.Own g => JS.set k {| base := Some file; rolled := rolled g |} groups
  | JS.Inherited => groups
  end.

(** One turn of the second loop, over the sorted [files]; [None] is an
    exception. *)
Definition classify (files : list file_item) (acc : option grouping)
  (file : file_item) : option grouping :=
  match acc with
  | None => None
  | Some a =>
      match Regex.exec ROLLED_REGEX (name file) with
      | Some rolledMatch =>
          let baseName := group_text 1 rolledMatch in
          let member :=
            {| name := name file; path := path file; size := size file;
               modified := modified file;
               rollNumber := Some (JS.parseInt (group_text 2 rolledMatch)) |} in
          match push_rolled baseName member (groups a) with
          | Some gs => Some {| groups := gs; standalone := standalone a |}
          | None => None
          end
      | None =>
          match sibling_regex (name file) with
          | Regex.POk r =>
              if existsb (fun f => Regex.test r (name f)) files
              then Some {| groups := assign_base (name file) file (groups a);
                           standalone := standalone a |}
              else Some {| groups := groups a;
                           standalone := standalone a ++ [file] |}
          | _ => None
          end
      end
  end.

Record file_group := {
  baseName : string;
  files : list file_item;
  fileCount : nat;
  totalSize : N;
  g_base : option file_item
}.

Definition roll_of (f : file_item) : Z :=
  match rollNumber f with Some n => n | None => 0%Z end.

Definition by_rollNumber (a b : file_item) : Z := (roll_of a - roll_of b)%Z.

Definition make_group (kv : string * pending) : file_group :=
  let sorted := JS.sort by_rollNumber (rolled (snd kv)) in
  let allFiles :=
    rev sorted ++ match base (snd kv) with Some b => [b] | None => [] end in
  {| baseName := fst kv;
     files := allFiles;
     fileCount := List.length allFiles;
     totalSize := fold_left (fun sum f => (sum + size f)%N) allFiles 0%N;
     g_base := match base (snd kv) with
               | Some b => Some b
               | None => hd_error sorted
               end |}.

Record listing := {
  current : string;
  parent : string;
  folders : list folder_item;
  l_files : list file_item;
  fileGroups : list file_group
}.

Section WithCollation.
(** [a.localeCompare(b)] *)
Variable localeCompare : string -> string -> Z.

(** [resolved] is [path.resolve(dirPath)], [dirname] its
    [path.dirname]. *)
Definition browse (resolved dirname : string) (t : target) : response listing :=
  match t with
  | Missing => Fail 404 "Directory not found"
  | NotDirectory => Fail 400 "Path is not a directory"
  | Threw message => Fail 500 message
  | Directory entries =>
      match collect entries with
      | inl message => Fail 500 message
      | inr (found_folders, found_files) =>
          let folders :=
            JS.sort (fun a b => localeCompare (fo_name a) (fo_name b)) found_folders in
          let files :=
            JS.sort (fun a b => localeCompare (name a) (name b)) found_files in
          match fold_left (classify files) files
                          (Some {| groups := []; standalone := [] |}) with
          | None => Fail 500 TYPE_ERROR_PUSH
          | Some a =>
              Ok {| current := resolved;
                    parent := dirname;
                    folders := folders;
                    l_files := standalone a;
                    fileGroups :=
                      JS.sort (fun a b => localeCompare (baseName a) (baseName b))
                              (map make_group (JS.entries (groups a))) |}
          end
      end
  end.
End WithCollation.

End Browse.

(* ===================================================================== *)
(** ** src/components/LogViewer.jsx *)
(* ===================================================================== *)

Module LogViewer.

Definition Q : string := String Chars.DQUOTE EmptyString.

(** [TIMESTAMP_PATTERNS] *)
Definition TIMESTAMP_PATTERNS : list Regex.regex :=
  [ Regex.literal "\[(\d{1,2})\/(\d{1,2})\/(\d{2,4})\s+(\d{1,2}:\d{2}:\d{2}:\d{3})\s+\w+\]" EmptyString;
    Regex.literal "(\d{4}-\d{2}-\d{2}T\d{2}:\d{2}:\d{2})" EmptyString;
    Regex.literal "\d{4}-\d{2}-\d{2}\s+\d{2}:\d{2}:\d{2}" EmptyString;
    Regex.literal "\[\d{4}-\d{2}-\d{2}\s+\d{2}:\d{2}:\d{2}" EmptyString;
    Regex.literal "\d{2}\/\d{2}\/\d{4}\s+\d{2}:\d{2}:\d{2}" EmptyString;
    Regex.literal "[A-Z][a-z]{2}\s+\d{1,2}\s+\d{2}:\d{2}:\d{2}" EmptyString ].

(** The pattern of the JSON [Timestamp] member, a quoted name, a colon
    and a quoted value captured as group 1; [Q] is the double quote. *)
Definition JSON_TIMESTAMP_REGEX : Regex.regex :=
  Regex.literal (Q ++ "Timestamp" ++ Q ++ "\s*:\s*" ++ Q ++ "([^" ++ Q ++ "]+)" ++ Q) EmptyString.

Definition WS_PATTERN : Regex.regex :=
  nth 0 TIMESTAMP_PATTERNS Regex.never.

(** [s.split(":")] *)
Fixpoint split_colon_from (cur : list ascii) (s : list ascii) : list string :=
  match s with
  | [] => [string_of_list_ascii (rev cur)]
  | c :: rest =>
      if Ascii.eqb c ":"
      then string_of_list_ascii (rev cur) :: split_colon_from [] rest
      else split_colon_from (c :: cur) rest
  end.

Definition split_colon (s : string) : list string :=
  split_colon_from [] (list_ascii_of_string s).

(** [match[1] || match[0]] *)
Definition first_group_or_whole (m : Regex.match_result) : string :=
  match Regex.capture 1 m with
  | Some s => if String.eqb s EmptyString then Regex.whole m else s
  | None => Regex.whole m
  end.

(** [raw.replace(/^\[/, ...)] with the empty replacement. *)
Definition strip_bracket (raw : string) : string :=
  match raw with
  | String c rest => if Ascii.eqb c "[" then rest else raw
  | EmptyString => raw
  end.

Section WithDate.
(** [new Date(text)]: the time value, [None] for an invalid date. *)
Variable Date_parse : string -> option Z.
(** [new Date(year, month, day, hours, minutes, seconds, ms)]. *)
Variable Date_local : Z -> Z -> Z -> Z -> Z -> Z -> Z -> option Z.

Definition json_timestamp (line : string) : option Z :=
  match Regex.exec JSON_TIMESTAMP_REGEX line with
  | Some jsonTsMatch => Date_parse (group_text 1 jsonTsMatch)
  | None => None
  end.

Definition ws_timestamp (line : string) : option Z :=
  match Regex.exec WS_PATTERN line with
  | Some wsMatch =>
      let month := (JS.parseInt (group_text 1 wsMatch) - 1)%Z in
      let day := JS.parseInt (group_text 2 wsMatch) in
      let year0 := JS.parseInt (group_text 3 wsMatch) in
      let year := if (year0 <? 100)%Z then (year0 + 2000)%Z else year0 in
      let timeParts := split_colon (group_text 4 wsMatch) in
      let hours := JS.parseInt (nth 0 timeParts EmptyString) in
      let minutes := JS.parseInt (nth 1 timeParts EmptyString) in
      let seconds := JS.parseInt (nth 2 timeParts EmptyString) in
      let ms := JS.parseInt (nth 3 timeParts EmptyString) in
      Date_local year month day hours minutes seconds ms
  | None => None
  end.

(** What one turn of the loop over the other patterns yields. *)
Definition candidate (line : string) (p : Regex.regex) : option Z :=
  match Regex.exec p line with
  | Some m => Date_parse (strip_bracket (first_group_or_whole m))
  | None => None
  end.

(** [for (let i = 1; i < TIMESTAMP_PATTERNS.length; i++)] *)
Fixpoint try_patterns (ps : list Regex.regex) (line : string) : option Z :=
  match ps with
  | [] => None
  | p :: ps' =>
      match candidate line p with
      | Some date => Some date
      | None => try_patterns ps' line
      end
  end.

Definition GENERIC_PATTERNS : list Regex.regex := tl TIMESTAMP_PATTERNS.

Definition extractTimestamp (line : string) : option Z :=
  match json_timestamp line with
  | Some date => Some date
  | None =>
      match ws_timestamp line with
      | Some date => Some date
      | None => try_patterns GENERIC_PATTERNS line
      end
  end.
End WithDate.

(** [buildSearchRegex] answers a regex or null; [OutOfModel] stands for a
    pattern outside the modelled part of the grammar. *)
Inductive matcher :=
| Matcher (r : Regex.regex)
| Null
| OutOfModel.

Definition DELIMITED_REGEX : Regex.regex := Regex.literal "^\/(.+)\/([gimsuy]*)$" EmptyString.

(** [try { return new RegExp(p, f) } catch { return null }] *)
Definition try_RegExp (p f : string) : matcher :=
  match Regex.RegExp_new p f with
  | Regex.POk r => Matcher r
  | Regex.PSyntaxError => Null
  | Regex.PUnsupported => OutOfModel
  end.

(** The file has its own copy of [escapeRegex], with the same text as the
    server's. *)
Definition buildSearchRegex (search : string) : matcher :=
  if String.eqb search EmptyString then Null
  else
    match Regex.exec DELIMITED_REGEX search with
    | Some regexMatch =>
        let flags := group_text 2 regexMatch in
        try_RegExp (group_text 1 regexMatch)
                   (if String.eqb flags EmptyString then "i" else flags)
    | None => try_RegExp (escapeRegex search) "i"
    end.

(** [searchRegex && searchRegex.test(text)] on a fresh matcher. *)
Definition matches (m : matcher) (text : string) : bool :=
  match m with
  | Matcher r => Regex.test r text
  | _ => false
  end.

(** [s.toUpperCase()] *)
Definition toUpperCase (s : string) : string :=
  string_of_list_ascii (map Chars.to_upper (list_ascii_of_string s)).

(** [JSON_SEVERITY_REGEX]: the quoted name [SeverityText], a colon and a
    quoted level captured as group 1, with [i]. *)
Definition JSON_SEVERITY_REGEX : Regex.regex :=
  Regex.literal
    (Q ++ "SeverityText" ++ Q ++ "\s*:\s*" ++ Q
       ++ "(TRACE|DEBUG|INFO|WARN(?:ING)?|ERROR|FATAL|SEVERE|CRITICAL)" ++ Q) "i".

Definition WS_CLASSIC_LEVEL_REGEX : Regex.regex :=
  Regex.literal "\]\s+[0-9a-f]+\s+\S+\s+([AIWEDFC])\s" EmptyString.

Definition LEVEL_REGEX : Regex.regex :=
  Regex.literal
    "\b(TRACE|DEBUG|INFO|WARN(?:ING)?|ERROR|FATAL|SEVERE|CRITICAL|AUDIT)\b" "i".

(** [detectLevel]; [None] is null. *)
Definition detectLevel (line : string) : option string :=
  match Regex.exec JSON_SEVERITY_REGEX line with
  | Some jsonMatch =>
      let level := toUpperCase (group_text 1 jsonMatch) in
      if String.eqb level "WARNING" then Some "WARN"
      else if String.eqb level "SEVERE" || String.eqb level "CRITICAL" then Some "FATAL"
      else Some level
  | None =>
      match Regex.exec WS_CLASSIC_LEVEL_REGEX line with
      | Some wsMatch =>
          let code := toUpperCase (group_text 1 wsMatch) in
          if String.eqb code "I" then Some "INFO"
          else if String.eqb code "A" then Some "INFO"
          else if String.eqb code "W" then Some "WARN"
          else if String.eqb code "E" then Some "ERROR"
          else if String.eqb code "D" then Some "DEBUG"
          else if String.eqb code "F" then Some "FATAL"
          else if String.eqb code "C" then Some "FATAL"
          else None
      | None =>
          match Regex.exec LEVEL_REGEX line with
          | Some m =>
              let level := toUpperCase (group_text 1 m) in
              if String.eqb level "WARNING" then Some "WARN"
              else if String.eqb level "SEVERE" || String.eqb level "CRITICAL"
              then Some "FATAL"
              else if String.eqb level "AUDIT" then Some "INFO"
              else Some level
          | None => None
          end
      end
  end.

(** [regex.exec(text)] on a regex with [g] whose [lastIndex] is [from]:
    the leftmost match starting at [from] or later, as its start index and
    its text; [None] also when [from] is past the end. *)
Definition exec_from (fl : Regex.flags) (r : Regex.re) (text : list ascii) (from : nat)
  : option (nat * string) :=
  if (List.length text <? from)%nat then None
  else
    match Regex.search fl r (rev (firstn from text)) (skipn from text) with
    | Some (st, st') =>
        Some (List.length (Regex.before st), Regex.consumed st st')
    | None => None
    end.

(** [text.slice(from, to)] *)
Definition slice (text : list ascii) (from to : nat) : string :=
  string_of_list_ascii (firstn (to - from) (skipn from text)).

(** One piece of a highlighted line: plain text, or a [mark] element. *)
Inductive part :=
| Plain (s : string)
| Mark (s : string).

(** The flags of the text [gi]. *)
Definition GLOBAL_IGNORE_CASE : Regex.flags :=
  {| Regex.f_global := true; Regex.f_ignoreCase := true;
     Regex.f_multiline := false; Regex.f_dotAll := false;
     Regex.f_sticky := false; Regex.f_indices := false |}.

(** The [while] loop of [highlightMatches]: [fuel] bounds the turns, each
    of which but the last moves [lastIndex] forward. *)
Fixpoint highlight_loop (fuel : nat) (r : Regex.re) (text : list ascii)
  (lastIndex : nat) (parts : list part) {struct fuel} : list part * nat :=
  match fuel with
  | O => (parts, lastIndex)
  | S fuel' =>
      match exec_from GLOBAL_IGNORE_CASE r text lastIndex with
      | None => (parts, lastIndex)
      | Some (index, m0) =>
          let parts1 :=
            if (lastIndex <? index)%nat
            then parts ++ [Plain (slice text lastIndex index)]
            else parts in
          let parts2 := parts1 ++ [Mark m0] in
          let lastIndex' := index + String.length m0 in
          if (String.length m0 =? 0)%nat then (parts2, lastIndex')
          else highlight_loop fuel' r text lastIndex' parts2
      end
  end.

(** [highlightMatches(text, regex)]; the regex is rebuilt from its source
    with the flags [gi]. *)
Definition highlightMatches (text : string) (regex : option Regex.regex) : list part :=
  match regex with
  | None => [Plain text]
  | Some rx =>
      let t := list_ascii_of_string text in
      let (parts, lastIndex) :=
        highlight_loop (S (S (List.length t))) (Regex.source rx) t 0 [] in
      let parts' :=
        if (lastIndex <? List.length t)%nat
        then parts ++ [Plain (slice t lastIndex (List.length t))]
        else parts in
      match parts' with
      | [] => [Plain text]
      | _ :: _ => parts'
      end
  end.

(** [searchRegex.test(text)] with the regex's [lastIndex]: a regex with [g]
    or [y] starts at [lastIndex] and moves it to the end of the match, or
    back to 0 when there is none; any other regex starts at 0 and leaves
    [lastIndex] alone. *)
Definition test_from (rx : Regex.regex) (lastIndex : nat) (text : string)
  : bool * nat :=
  let fl := Regex.rflags rx in
  let t := list_ascii_of_string text in
  if Regex.f_global fl || Regex.f_sticky fl then
    if (List.length t <? lastIndex)%nat then (false, 0)
    else
      let found :=
        if Regex.f_sticky fl
        then Regex.match_here fl (Regex.source rx)
               {| Regex.before := rev (firstn lastIndex t);
                  Regex.after := skipn lastIndex t; Regex.caps := [] |}
        else option_map snd
               (Regex.search fl (Regex.source rx)
                  (rev (firstn lastIndex t)) (skipn lastIndex t)) in
      match found with
      | Some st' => (true, List.length (Regex.before st'))
      | None => (false, 0)
      end
  else (Regex.test rx text, lastIndex).

(** One entry of [processedLines]. *)
Record processed := {
  p_index : nat;
  p_text : string;
  p_level : option string;
  p_timestamp : option Z
}.

(** What the line view reads of [filters]: the instants of [dateFrom] and
    [dateTo] ([None]: not set, or an invalid date, which compares false
    with everything), and the selected levels ([None]: none selected). *)
Record active_filters := {
  dateFrom : option Z;
  dateTo : option Z;
  activeLevels : option (list string)
}.

Definition level_rejected (f : active_filters) (level : option string) : bool :=
  match activeLevels f, level with
  | Some levels, Some l => negb (existsb (String.eqb l) levels)
  | _, _ => false
  end.

Definition date_rejected (f : active_filters) (timestamp : option Z) : bool :=
  match timestamp with
  | Some t =>
      match dateFrom f with Some from => (t <? from)%Z | None => false end
      || match dateTo f with Some to => (to <? t)%Z | None => false end
  | None => false
  end.

Section ProcessedLines.
Variable Date_parse : string -> option Z.
Variable Date_local : Z -> Z -> Z -> Z -> Z -> Z -> Z -> option Z.
Variable f : active_filters.
Variable searchRegex : option Regex.regex.

(** The [for] loop that builds [processedLines], from line number [i] on;
    [lastIndex] is the one of [searchRegex].  The loop answers the kept
    entries and the [lastIndex] it leaves. *)
Fixpoint process_from (i : nat) (lines : list string) (lastIndex : nat)
  : list processed * nat :=
  match lines with
  | [] => ([], lastIndex)
  | text :: rest =>
      let level := detectLevel text in
      let timestamp := extractTimestamp Date_parse Date_local text in
      if level_rejected f level then process_from (S i) rest lastIndex
      else
        let (found, lastIndex') :=
          match searchRegex with
          | Some rx => test_from rx lastIndex text
          | None => (true, lastIndex)
          end in
        if negb found then process_from (S i) rest lastIndex'
        else if date_rejected f timestamp then process_from (S i) rest lastIndex'
        else
          let (kept, final) := process_from (S i) rest lastIndex' in
          ({| p_index := i; p_text := text; p_level := level;
              p_timestamp := timestamp |} :: kept, final)
  end.

Definition processedLines (lines : list string) (lastIndex : nat)
  : list processed * nat :=
  process_from 0 lines lastIndex.
End ProcessedLines.

End LogViewer.


(** *** POST /api/read *)
Module Read.

Record result := {
  lines : list string;
  totalSize : N;
  offset : N;
  fileName : option string      (* absent in the answer past the end *)
}.

(** [filePath] is [req.body.path] ([None]: absent) and [offset] is
    [req.body.offset || 0] for a body whose [offset] is absent or a
    natural number, a byte count; the route does not check it, and what
    it does with any other value is not described here.  Every file the
    file system holds is taken to open and read without error. *)
Definition read (fs : filesystem) (filePath : option string) (offset : N)
  : response result :=
  match filePath with
  | None => Fail 404 "File not found"
  | Some p =>
      if String.eqb p EmptyString then Fail 404 "File not found"
      else
        match fs p with
        | None => Fail 404 "File not found"
        | Some (Dir _) => Fail 400 "Path is a directory"
        | Some (File bytes) =>
            let size := N.of_nat (List.length bytes) in
            if (size <=? offset)%N
            then Ok {| lines := []; totalSize := size; offset := size;
                       fileName := None |}
            else
              let bufferSize := (size - offset)%N in
              let maxRead := N.min bufferSize MAX_READ in
              let buffer := JS.read_into_buffer bytes maxRead offset in
              let content := JS.toString_utf8 buffer in
              Ok {| lines := ReadMulti.drop_last_empty (JS.split_lines content);
                    totalSize := size;
                    offset := (offset + maxRead)%N;
                    fileName := Some (JS.path_basename p) |}
        end
  end.

End Read.

(** *** POST /api/search-files *)
Module SearchFiles.

(** One path returned by [glob(pattern, {cwd, absolute, nodir})], with
    what [path.basename], [path.relative] and [fs.statSync] answer for it
    ([inr message]: statSync throws). *)
Record hit := {
  h_path : string;
  h_basename : string;
  h_relative : string;
  h_stat : stat + string
}.

Record item := {
  name : string;
  path : string;
  relativePath : string;
  size : N;
  modified : Z
}.

(** [files.map(...)]: the first stat that throws ends the map. *)
Fixpoint stat_all (hits : list hit) : string + list item :=
  match hits with
  | [] => inr []
  | h :: rest =>
      match h_stat h with
      | inr message => inl message
      | inl st =>
          match stat_all rest with
          | inl message => inl message
          | inr items =>
              inr ({| name := h_basename h; path := h_path h;
                      relativePath := h_relative h;
                      size := st_size st; modified := st_mtime st |} :: items)
          end
      end
  end.

(** The comparator of [results.sort]: [new Date(b.modified) - new Date(a.modified)]. *)
Definition newest_first (a b : item) : Z := (modified b - modified a)%Z.

(** What [path.resolve(dirPath)] and the walk under it come to: the paths
    found, or the message of what one of them throws ([path.resolve] on a
    body whose [path] is no string, [glob] on a pattern it refuses). *)
Inductive walk :=
| Found (hits : list hit)
| Threw (message : string).

Definition searchFiles (w : walk) : response (list item) :=
  match w with
  | Threw message => Fail 500 message
  | Found hits =>
      match stat_all hits with
      | inl message => Fail 500 message
      | inr results => Ok (JS.sort newest_first results)
      end
  end.

End SearchFiles.

(* ===================================================================== *)
(** ** src/hooks/useTail.js, src/components/FilterBar.jsx *)
(* ===================================================================== *)

(** *** The tail hook of the client, for one connection *)
Module UseTail.

Record state := {
  tailLines : list string;
  reloads : nat                 (* calls of [onTruncate] so far *)
}.

Definition opened : state := {| tailLines := []; reloads := 0 |}.

(** [ws.onmessage] on a message of the server. *)
Definition onmessage (s : state) (m : Tail.server_msg) : state :=
  match m with
  | Tail.NewLines lines =>
      {| tailLines := tailLines s ++ lines; reloads := reloads s |}
  | Tail.Truncated => {| tailLines := []; reloads := S (reloads s) |}
  | _ => s
  end.

Definition receive (s : state) (ms : list Tail.server_msg) : state :=
  fold_left onmessage ms s.

End UseTail.

(** *** The level buttons of the filter bar *)
Module FilterBar.

(** [LOG_LEVELS] *)
Definition LOG_LEVELS : list string :=
  ["TRACE"; "DEBUG"; "INFO"; "WARN"; "ERROR"; "FATAL"].

(** [toggleLevel]: the next value of [filters.levels]. *)
Definition toggleLevel (current : list string) (level : string) : list string :=
  if existsb (String.eqb level) current
  then filter (fun l => negb (String.eqb l level)) current
  else current ++ [level].

End FilterBar.

(* ===================================================================== *)
(** ** src/App.jsx *)
(* ===================================================================== *)

Module App.

(** The state [handleGroupSelect] sets. *)
Record selection := {
  mergedFiles : list string;          (* [mergedFiles.paths] *)
  mergedName : string;                (* [mergedFiles.name] *)
  selectedFile : option string;       (* [None]: undefined *)
  selectedGroupName : string;
  tailEnabled : bool
}.

(** [handleGroupSelect(group)]: all the files of the group are opened as
    one merged view, and the last of them is the file to tail. *)
Definition handleGroupSelect (group : Scan.loggroup) : selection :=
  let paths := map Scan.path (Scan.files group) in
  {| mergedFiles := paths;
     mergedName := Scan.groupName group;
     selectedFile := nth_error paths (List.length paths - 1);
     selectedGroupName := Scan.groupName group;
     tailEnabled := false |}.

(** The state of the merged view. *)
Record merged_view := {
  mergedLines : list string;
  mergedError : option string;
  mergedFileName : option string;
  fileMarkers : list ReadMulti.marker
}.

(** [loadMerged(paths, name)], from the view as it is: the request to
    POST /api/read-multi and what is kept of its answer. *)
Definition loadMerged (fs : filesystem) (view : merged_view)
  (paths : list string) (name : string) : merged_view :=
  match ReadMulti.readMulti fs (Some paths) with
  | Fail _ error =>
      {| mergedLines := []; mergedError := Some error;
         mergedFileName := mergedFileName view;
         fileMarkers := fileMarkers view |}
  | Ok data =>
      {| mergedLines := ReadMulti.r_lines data;
         mergedError := None;
         mergedFileName :=
           Some (if String.eqb (ReadMulti.r_fileName data) EmptyString
                 then name else ReadMulti.r_fileName data);
         fileMarkers := ReadMulti.r_fileMarkers data |}
  end.

End App.

(* ===================================================================== *)
(** * Vocabulary of the properties *)
(* ===================================================================== *)

Module MergeSpec.
Import ReadMulti.

(** The line counts of the files a merge reads: the regular files among
    the paths, in order. *)
Definition line_counts (fs : filesystem) (paths : list string) : list nat :=
  flat_map (fun fp => match fs fp with
                      | Some (File bytes) => [List.length (read_lines bytes)]
                      | _ => []
                      end) paths.

(** The full on-disk sizes of those files. *)
Definition disk_sizes (fs : filesystem) (paths : list string) : list N :=
  flat_map (fun fp => match fs fp with
                      | Some (File bytes) => [N.of_nat (List.length bytes)]
                      | _ => []
                      end) paths.

Definition sum_N (l : list N) : N := fold_right N.add 0%N l.

(** What the loop keeps true of its accumulator. *)
Record consistent (a : acc) : Prop := {
  total_lines :
    List.length (allLines a) = list_sum (map lineCount (fileMarkers a));
  starts :
    forall i, i < List.length (fileMarkers a) ->
      option_map startLine (nth_error (fileMarkers a) i)
      = Some (list_sum (firstn i (map lineCount (fileMarkers a))))
}.

(** The file system with one path removed. *)
Definition without (d : string) (fs : filesystem) : filesystem :=
  fun p => if String.eqb p d then None else fs p.

(** A file system holding the listed nodes and nothing else. *)
Fixpoint holding (nodes : list (string * node)) : filesystem :=
  fun p =>
    match nodes with
    | [] => None
    | (q, n) :: rest => if String.eqb p q then Some n else holding rest p
    end.

(** The lines of a run of bytes read whole. *)
Definition lines_of (bytes : list ascii) : list string :=
  drop_last_empty (JS.split_lines (JS.toString_utf8 bytes)).

(** The first and the last [cap] bytes of a file. *)
Definition first_bytes (cap : N) (bytes : list ascii) : list ascii :=
  firstn (N.to_nat cap) bytes.

Definition last_bytes (cap : N) (bytes : list ascii) : list ascii :=
  skipn (List.length bytes - N.to_nat cap) bytes.

(** The line [A], then [k] letters [b] with no terminator. *)
Definition headed (k : nat) : list ascii :=
  "A"%char :: Chars.LF :: repeat "b"%char k.

(** A file two bytes over the cap. *)
Definition oversized : list ascii := headed (N.to_nat MAX_READ).

Definition text (s : string) : list ascii := list_ascii_of_string s.

(** Three small files and a directory. *)
Definition sample_fs : filesystem :=
  holding [ ("/logs/app.log.1", File (text "one" ++ [Chars.LF] ++ text "two" ++ [Chars.LF]));
            ("/logs/archive", Dir 4096);
            ("/logs/empty.log", File []);
            ("/logs/app.log", File (text "three" ++ [Chars.CR; Chars.LF] ++ text "four")) ].

Definition sample_paths : list string :=
  [ "/logs/app.log.1"; "/logs/missing.log"; "/logs/archive";
    "/logs/empty.log"; "/logs/app.log" ].

End MergeSpec.

Module TailSpec.
Import Tail.

(** A session with an open watcher on [file], last seen at [size] bytes. *)
Definition watching (file : string) (size : N) : session :=
  {| currentWatcher := Some file; currentFile := Some file; lastSize := size |}.

(** The session after a change that found the file at [size] bytes. *)
Definition resized (s : session) (size : N) : session :=
  {| currentWatcher := currentWatcher s; currentFile := currentFile s;
     lastSize := size |}.

(** The bytes of a file from offset [from] to its end. *)
Definition appended (from : N) (bytes : list ascii) : list ascii :=
  skipn (N.to_nat from) bytes.

(** The batch a run of new bytes yields: its non-empty lines. *)
Definition batch_of (new_bytes : list ascii) : list string :=
  filter non_empty (JS.split_lines (JS.toString_utf8 new_bytes)).

(** What is sent for a batch: one message, or nothing when it is empty. *)
Definition sent_for (batch : list string) : list server_msg :=
  match batch with
  | [] => []
  | _ :: _ => [NewLines batch]
  end.

(** The bytes [hello], LF, [world], LF. *)
Definition hello_world : list ascii :=
  MergeSpec.text "hello" ++ [Chars.LF] ++ MergeSpec.text "world" ++ [Chars.LF].

(** A file of 100 bytes, and the same file grown to 140: [hello_world]
    was appended to it, and 28 empty lines behind. *)
Definition hundred : list ascii := repeat "x"%char 100.

Definition grown : list ascii := hundred ++ hello_world ++ repeat Chars.LF 28.

Definition log_path : string := "/logs/app.log".

Definition stop_tail : client_msg := Msg (Some "stop-tail") None.

End TailSpec.

Module ScanSpec.
Import Scan.

(** The files the walk returns, each with the folder it was found under:
    those of the folders that exist, in order. *)
Definition visible (folders : list folder) : list (folder * found) :=
  flat_map (fun fo => if present fo then map (pair fo) (found_files fo) else [])
           folders.

(** The record the route keeps for a found file whose stat is [st]. *)
Definition logfile_of (fo : folder) (f : found) (st : stat) : logfile :=
  {| name := fd_basename f; path := fd_path f; dir := fd_dirname f;
     relativePath := fd_relative f; sourceFolder := resolved fo;
     size := st_size st; modified := st_mtime st |}.

(** A found file [/logs/<name>] of the given size and time. *)
Definition found_in_logs (file_name : string) (sz : N) (mtime : Z) : found :=
  {| fd_path := "/logs/" ++ file_name; fd_basename := file_name;
     fd_dirname := "/logs"; fd_relative := file_name;
     fd_stat := Some {| st_size := sz; st_mtime := mtime |} |}.

Definition logs_folder (found_files : list found) : folder :=
  {| resolved := "/logs"; present := true; found_files := found_files |}.

(** Every file of a bucket was given to the grouping loop. *)
Definition filled_from (l : list logfile) (o : JS.obj bucket) : Prop :=
  forall k b x, In (k, b) o -> In x (b_files b) -> In x l.

(** A collation that orders nothing; the properties below hold for any. *)
Definition no_order (a b : string) : Z := 0%Z.

End ScanSpec.

Module ScanSample.
Import Scan ScanSpec.

Definition current : found := found_in_logs "app.log" 300 1700000003000.
Definition rolled1 : found := found_in_logs "app.log.1" 200 1700000002000.
Definition rolled2 : found := found_in_logs "app.log.2" 100 1700000001000.

(** The three files as a walk may return them. *)
Definition walked : folder := logs_folder [rolled1; current; rolled2].

Definition stat_of (sz : N) (mtime : Z) : stat := {| st_size := sz; st_mtime := mtime |}.

End ScanSample.

Module TimestampSpec.
Import LogViewer.

(** Days from 1970-01-01 to a date of the proleptic Gregorian calendar. *)
Definition days_from_civil (y m d : Z) : Z :=
  let y' := if (m <=? 2)%Z then (y - 1)%Z else y in
  let era := (y' / 400)%Z in
  let yoe := (y' - era * 400)%Z in
  let mp := if (2 <? m)%Z then (m - 3)%Z else (m + 9)%Z in
  let doy := ((153 * mp + 2) / 5 + d - 1)%Z in
  let doe := (yoe * 365 + yoe / 4 - yoe / 100 + doy)%Z in
  (era * 146097 + doe - 719468)%Z.

Definition civil_ms (y m d h mi s ms : Z) : Z :=
  ((((days_from_civil y m d * 24 + h) * 60 + mi) * 60 + s) * 1000 + ms)%Z.

Definition DATE_TIME_SHAPE : Regex.regex :=
  Regex.literal "^(\d{4})-(\d{2})-(\d{2})[T ](\d{2}):(\d{2}):(\d{2})$" EmptyString.

Definition US_DATE_TIME_SHAPE : Regex.regex :=
  Regex.literal "^(\d{2})\/(\d{2})\/(\d{4}) (\d{2}):(\d{2}):(\d{2})$" EmptyString.

(** The time value of date and time fields read as UTC; a month outside
    1..12, a day outside 1..31 or a time of day out of range is an invalid
    date. *)
Definition checked_ms (y mo d h mi s : Z) : option Z :=
  if ((1 <=? mo) && (mo <=? 12) && (1 <=? d) && (d <=? 31)
      && (h <=? 23) && (mi <=? 59) && (s <=? 59))%Z
  then Some (civil_ms y mo d h mi s 0)
  else None.

Definition field (n : nat) (m : Regex.match_result) : Z :=
  JS.parseInt (group_text n m).

(** A stand-in for [new Date(text)] on the texts of the examples: year,
    month and day with dashes, a [T] or a blank, and a time of day; or
    month, day and year with slashes, a blank, and a time of day.  Any
    other text is an invalid date. *)
Definition sample_Date (text : string) : option Z :=
  match Regex.exec DATE_TIME_SHAPE text with
  | Some m =>
      checked_ms (field 1 m) (field 2 m) (field 3 m)
                 (field 4 m) (field 5 m) (field 6 m)
  | None =>
      match Regex.exec US_DATE_TIME_SHAPE text with
      | Some m =>
          checked_ms (field 3 m) (field 1 m) (field 2 m)
                     (field 4 m) (field 5 m) (field 6 m)
      | None => None
      end
  end.

(** A stand-in for [new Date(year, month, ...)], read as UTC. *)
Definition sample_Date_local (y mo d h mi s ms : Z) : option Z :=
  Some (civil_ms y (mo + 1) d h mi s ms).

(** A line whose first date-time has month 13 and whose second one is a
    valid date in the month/day/year shape. *)
Definition two_stamps : string :=
  "2024-13-45T10:30:00 retry at 01/15/2024 10:30:00".

Definition ISO_PATTERN : Regex.regex := nth 1 TIMESTAMP_PATTERNS Regex.never.

End TimestampSpec.

Module SearchSpec.

(** The pattern of a literal text: its characters in sequence, then [r]. *)
Definition chain (cs : list ascii) (r : Regex.re) : Regex.re :=
  fold_right (fun c acc => Regex.Seq (Regex.Chr c) acc) r cs.

Definition literal_re (s : string) : Regex.re :=
  chain (list_ascii_of_string s) Regex.Empty.

(** The flags of the text [i]. *)
Definition IGNORE_CASE : Regex.flags :=
  {| Regex.f_global := false; Regex.f_ignoreCase := true;
     Regex.f_multiline := false; Regex.f_dotAll := false;
     Regex.f_sticky := false; Regex.f_indices := false |}.

Definition literal_matcher (s : string) : Regex.regex :=
  {| Regex.source := literal_re s; Regex.rflags := IGNORE_CASE |}.

(** Two runs of characters that differ by letter case at most. *)
Definition same_letters (a b : list ascii) : Prop :=
  Forall2 (fun x y => Chars.to_upper x = Chars.to_upper y) a b.

(** [text] holds [s] somewhere, letter case apart. *)
Definition holds (s text : string) : Prop :=
  exists pre mid post,
    list_ascii_of_string text = pre ++ mid ++ post
    /\ same_letters (list_ascii_of_string s) mid.

(** A text with a backslash put before each syntax character. *)
Definition backslashed_char (c : ascii) : list ascii :=
  if Chars.is_syntax_char c then ["\"%char; c] else [c].

Definition backslashed (s : string) : string :=
  string_of_list_ascii (flat_map backslashed_char (list_ascii_of_string s)).

(** Reading the characters [cs] off the input, one comparison each. *)
Fixpoint read_chain (ci : bool) (cs : list ascii) (st : Regex.mstate)
  : option Regex.mstate :=
  match cs with
  | [] => Some st
  | p :: cs' =>
      match Regex.after st with
      | c :: rest =>
          if Regex.chr_eq ci p c then read_chain ci cs' (Regex.step1 st c rest)
          else None
      | [] => None
      end
  end.

(** The state of a match attempted after [s1], with [s2] still to read. *)
Definition start_at (pre s1 s2 : list ascii) : Regex.mstate :=
  {| Regex.before := rev s1 ++ pre; Regex.after := s2; Regex.caps := [] |}.

(** The head of a pattern text does not start a quantifier. *)
Definition plain_head (s : list ascii) : bool :=
  match s with
  | c :: _ => negb (Regex.one_of c "*+?{")
  | [] => true
  end.

End SearchSpec.

(** The matches of a pattern, as a relation between the state before and
    the state after; the matcher finds only such matches. *)
Module MatchSpec.
Import Regex.

(** [n] turns of [R], each started with the captures of [gs] cleared. *)
Fixpoint turns (R : mstate -> mstate -> Prop) (gs : list nat) (n : nat)
  (st st' : mstate) : Prop :=
  match n with
  | O => st' = st
  | S n' => exists st1, R (clear_caps gs st) st1 /\ turns R gs n' st1 st'
  end.

(** The counts of turns a quantifier allows: at least the minimum, or the
    maximum when that is smaller, and never more than the maximum. *)
Definition count_ok (mn : nat) (mx : option nat) (n : nat) : Prop :=
  (mn <= n \/ mx = Some n) /\ match mx with Some m => n <= m | None => True end.

Definition reads_one (ok : ascii -> bool) (st st' : mstate) : Prop :=
  exists c rest, after st = c :: rest /\ ok c = true /\ st' = step1 st c rest.

Section Sem.
Variable fl : flags.

Fixpoint sem (r : re) (st st' : mstate) {struct r} : Prop :=
  match r with
  | Empty => st' = st
  | Chr p => reads_one (chr_eq (f_ignoreCase fl) p) st st'
  | Any =>
      reads_one (fun c => f_dotAll fl || negb (Chars.is_line_terminator c)) st st'
  | Cls neg items =>
      reads_one (fun c => xorb neg (in_set (f_ignoreCase fl) items c)) st st'
  | Seq a b => exists st1, sem a st st1 /\ sem b st1 st'
  | Alt a b => sem a st st' \/ sem b st st'
  | Group n a => exists st1, sem a st st1 /\ st' = set_cap n (consumed st st1) st1
  | NGroup a => sem a st st'
  | Bol => at_line_start fl st = true /\ st' = st
  | Eol => at_line_end fl st = true /\ st' = st
  | WordB neg => xorb neg (at_word_boundary st) = true /\ st' = st
  | Rep mn mx _ a =>
      exists n, count_ok mn mx n /\ turns (sem a) (groups_of a) n st st'
  end.
End Sem.

(** The text read between two states. *)
Definition reads (w : list ascii) (st st' : mstate) : Prop :=
  after st = w ++ after st' /\ before st' = rev w ++ before st.

(** The captures of the groups outside [gs] are the same in both states. *)
Definition keeps_outside (gs : list nat) (st st' : mstate) : Prop :=
  forall n, ~ In n gs -> assoc_nat n (caps st') = assoc_nat n (caps st).

End MatchSpec.

Module BrowseSpec.
Import Browse.

(** The end of the pattern built for the rolled siblings of a name: a dot,
    digits, the end of the input. *)
Definition SIBLING_TAIL : Regex.re :=
  Regex.Seq (Regex.Chr ".")
    (Regex.Seq (Regex.Rep 1 None true (Regex.Cls false [Regex.CRange "0" "9"]))
       (Regex.Seq Regex.Eol Regex.Empty)).

Definition sibling_matcher (file_name : string) : Regex.regex :=
  {| Regex.source :=
       Regex.Seq Regex.Bol
         (SearchSpec.chain (list_ascii_of_string file_name) SIBLING_TAIL);
     Regex.rflags := SearchSpec.IGNORE_CASE |}.

(** The base of each pending group is named like its key. *)
Definition based (o : JS.obj pending) : Prop :=
  forall k g b, JS.own k o = Some g -> base g = Some b -> name b = k.

(** A pending group holds a file of the given name. *)
Definition in_group (nm : string) (g : pending) : Prop :=
  (exists b, base g = Some b /\ name b = nm)
  \/ (exists y, In y (rolled g) /\ name y = nm).

Definition grouped (nm : string) (o : JS.obj pending) : Prop :=
  exists k g, JS.own k o = Some g /\ in_group nm g.

(** The second loop has placed a file of the given name. *)
Definition placed (nm : string) (a : grouping) : Prop :=
  (exists x, In x (standalone a) /\ name x = nm) \/ grouped nm (groups a).

(** The answer lists a file of the given name, alone or in a group. *)
Definition shown (nm : string) (l : listing) : Prop :=
  exists item, name item = nm
    /\ (In item (l_files l)
        \/ exists g, In g (fileGroups l) /\ In item (files g)).

Definition fresh : pending := {| base := None; rolled := [] |}.

(** A regular file [/logs/<name>] whose stat succeeds. *)
Definition file_entry (file_name : string) (sz : N) (mtime : Z) : dirent :=
  {| d_name := file_name; d_isDirectory := false;
     d_path := "/logs/" ++ file_name;
     d_stat := inl {| st_size := sz; st_mtime := mtime |} |}.

(** A directory with a log and its owner sidecar. *)
Definition with_sidecar : list dirent :=
  [ file_entry "app.log" 300 1700000003000;
    file_entry "app.log.owner" 12 1700000003000 ].

End BrowseSpec.

(* ===================================================================== *)
(** ** Vocabulary for the properties of the remaining code *)
(* ===================================================================== *)

Module OrderSpec.

(** Ordered by a numeric key, largest first and smallest first. *)
Definition descending (A : Type) (key : A -> Z) (a b : A) : Prop :=
  (key b <= key a)%Z.

Definition ascending (A : Type) (key : A -> Z) (a b : A) : Prop :=
  (key a <= key b)%Z.

(** Ordered as a comparator says: the first is not placed after the second. *)
Definition not_after (A : Type) (cmp : A -> A -> Z) (a b : A) : Prop :=
  (cmp a b <= 0)%Z.

(** A comparator that orders consistently. *)
Definition consistent (A : Type) (cmp : A -> A -> Z) : Prop :=
  (forall a b, (0 < cmp a b)%Z -> (cmp b a <= 0)%Z)
  /\ (forall a b c, (cmp a b <= 0)%Z -> (cmp b c <= 0)%Z -> (cmp a c <= 0)%Z).

(** The text has no line feed. *)
Definition one_line (l : string) : Prop :=
  ~ In Chars.LF (list_ascii_of_string l).

End OrderSpec.

Module ScanMore.
Import Scan.

(** The files held by a dictionary of buckets, bucket after bucket. *)
Definition held (o : JS.obj bucket) : list logfile :=
  flat_map (fun kv => b_files (snd kv)) o.

(** Each bucket is filed under the group key of its files, carries that
    key as its name, and is not empty. *)
Definition keyed (o : JS.obj bucket) : Prop :=
  forall k b, In (k, b) o ->
    b_groupName b = k /\ b_files b <> []
    /\ forall x, In x (b_files b) -> groupKey (name x) = k.

(** No bucket is filed under the name of a member of [Object.prototype]. *)
Definition clear_of_prototype (o : JS.obj bucket) : Prop :=
  forall k, In k (map fst o) -> ~ In k (@JS.proto_keys).

(** What the grouping loop keeps true. *)
Definition grouped (seen : list logfile) (o : JS.obj bucket) : Prop :=
  NoDup (map fst o) /\ Permutation (held o) seen /\ keyed o
  /\ clear_of_prototype o.

(** The roll number the scan reads off a file's name. *)
Definition roll (x : logfile) : Z := rollNum (name x).

Definition total_bytes (l : list logfile) : N :=
  fold_right (fun x sum => (size x + sum)%N) 0%N l.

(** A collation by length, for samples: shorter names first. *)
Definition by_length (a b : string) : Z :=
  (Z.of_nat (String.length a) - Z.of_nat (String.length b))%Z.

(** A walk that found two families and a text file. *)
Definition two_families : folder :=
  ScanSpec.logs_folder
    [ ScanSpec.found_in_logs "server.log.1" 20 1700000001000;
      ScanSpec.found_in_logs "app.log" 300 1700000003000;
      ScanSpec.found_in_logs "server.log" 10 1700000005000;
      ScanSpec.found_in_logs "app.log.2" 100 1700000002000;
      ScanSpec.found_in_logs "notes.txt" 5 1700000000000 ].

(** A walk that found a log named like a member of [Object.prototype]. *)
Definition with_constructor : folder :=
  ScanSpec.logs_folder
    [ ScanSpec.found_in_logs "app.log" 300 1700000003000;
      ScanSpec.found_in_logs "constructor.log" 10 1700000005000 ].

(** What the scan answers for the two families. *)
Definition sample_answer : result :=
  match scan by_length (Some [two_families]) with
  | Ok r => r
  | Fail _ _ => {| groups := []; totalFiles := 0; totalGroups := 0 |}
  end.

(** The group of the sample answer named [app], and a merged view that
    shows nothing yet. *)
Definition app_group : loggroup :=
  match find (fun g => String.eqb (groupName g) "app") (groups sample_answer) with
  | Some g => g
  | None => {| groupName := EmptyString; files := []; fileCount := 0;
               totalSize := 0; lastModified := 0; directories := [] |}
  end.

Definition empty_view : App.merged_view :=
  {| App.mergedLines := []; App.mergedError := None;
     App.mergedFileName := None; App.fileMarkers := [] |}.

End ScanMore.

Module ReadSpec.
Import ReadMulti.

(** The path names a regular file. *)
Definition is_file (fs : filesystem) (fp : string) : bool :=
  match fs fp with
  | Some (File _) => true
  | _ => false
  end.

(** A marker moved down by [n] lines. *)
Definition shifted (n : nat) (m : marker) : marker :=
  {| fileName := fileName m; path := path m;
     startLine := n + startLine m; lineCount := lineCount m |}.

(** The lines a marker stands for. *)
Definition lines_under (m : marker) (lines : list string) : list string :=
  firstn (lineCount m) (skipn (startLine m) lines).

(** The bytes of a file from offset [from] up to offset [to]. *)
Definition byte_range (from to : N) (bytes : list ascii) : list ascii :=
  firstn (N.to_nat (to - from)) (skipn (N.to_nat from) bytes).

(** A log of two lines, and the same log after a third was written. *)
Definition two_lines : list ascii :=
  MergeSpec.text "one" ++ [Chars.LF] ++ MergeSpec.text "two" ++ [Chars.LF].

Definition third_line : list ascii := MergeSpec.text "three" ++ [Chars.LF].

Definition before_write : filesystem :=
  MergeSpec.holding [("/logs/app.log", File two_lines)].

Definition after_write : filesystem :=
  MergeSpec.holding [("/logs/app.log", File (two_lines ++ third_line))].

(** The body of an answer, for samples. *)
Definition answer (x : response Read.result) : Read.result :=
  match x with
  | Ok r => r
  | Fail _ _ =>
      {| Read.lines := []; Read.totalSize := 0; Read.offset := 0;
         Read.fileName := None |}
  end.

Definition first_read : Read.result :=
  answer (Read.read before_write (Some "/logs/app.log") 0).

Definition next_read : Read.result :=
  answer (Read.read after_write (Some "/logs/app.log") (Read.offset first_read)).

Definition whole_read : Read.result :=
  answer (Read.read after_write (Some "/logs/app.log") 0).

End ReadSpec.

Module TailMore.
Import Tail.

(** A connection over time: each event comes with the file system as it
    is when the event is handled.  The run answers the last state and all
    the messages sent, in order. *)
Fixpoint run (s : session) (steps : list (filesystem * event))
  : session * list server_msg :=
  match steps with
  | [] => (s, [])
  | (fs, e) :: rest =>
      let (s1, ms) := handle fs s e in
      let (s2, ms') := run s1 rest in
      (s2, ms ++ ms')
  end.

(** A batch of new lines is not empty and holds no empty line and no line
    feed; the other messages are not constrained. *)
Definition well_formed (m : server_msg) : Prop :=
  match m with
  | NewLines lines =>
      lines <> []
      /\ Forall (fun l => l <> EmptyString /\ OrderSpec.one_line l) lines
  | _ => True
  end.

(** While a watcher is open, it is on the current file. *)
Definition watches_current (s : session) : Prop :=
  match currentWatcher s with
  | Some w => currentFile s = Some w
  | None => True
  end.

(** The path an event asks to tail: the event is a message whose [type]
    is [tail] and whose [path] is not empty. *)
Definition tail_request (e : event) : option string :=
  match e with
  | Message (Msg type (Some p)) =>
      if is_type "tail" type && negb (String.eqb p EmptyString)
      then Some p else None
  | _ => None
  end.

(** The paths the events of a connection ask to tail, in order, and the
    last of them. *)
Definition requests (steps : list (filesystem * event)) : list string :=
  flat_map (fun step => match tail_request (snd step) with
                        | Some p => [p]
                        | None => []
                        end) steps.

Definition last_request (steps : list (filesystem * event)) : option string :=
  last (map Some (requests steps)) None.

Definition ends_with_line_feed (chunk : list ascii) : Prop :=
  exists a, chunk = a ++ [Chars.LF].

(** The log at [p] holds [bytes] and then grows chunk by chunk; the
    watcher reports a change after each chunk, and the client takes what
    the server sends. *)
Fixpoint follow (p : string) (bytes : list ascii) (chunks : list (list ascii))
  (s : session) (c : UseTail.state) : session * UseTail.state :=
  match chunks with
  | [] => (s, c)
  | chunk :: rest =>
      let bytes' := bytes ++ chunk in
      let (s', ms) := handle (MergeSpec.holding [(p, File bytes')]) s Change in
      follow p bytes' rest s' (UseTail.receive c ms)
  end.

(** The client opens a connection and asks to tail [p], which holds
    [base]; then the log grows. *)
Definition tail_session (p : string) (base : list ascii)
  (chunks : list (list ascii)) : session * UseTail.state :=
  let (s0, ms0) :=
    handle (MergeSpec.holding [(p, File base)]) initial
           (Message (Msg (Some "tail") (Some p))) in
  follow p base chunks s0 (UseTail.receive UseTail.opened ms0).


End TailMore.

Module KeySpec.

(** One of the four extensions of a log, in any letter case. *)
Definition is_extension (ext : list ascii) : Prop :=
  In (string_of_list_ascii (map Chars.to_upper ext)) ["LOG"; "TXT"; "OUT"; "ERR"].

(** A roll number as written: one digit or more. *)
Definition is_roll (digits : list ascii) : Prop :=
  digits <> [] /\ Forall (fun c => Chars.is_digit c = true) digits.

(** [key] is [file_name] without its extension and roll number: the name
    is the key, a dot, an extension and, for a rolled file, a dot and a
    roll number. *)
Definition stripped (file_name key : string) : Prop :=
  key <> EmptyString
  /\ exists ext,
       is_extension ext
       /\ (list_ascii_of_string file_name
           = list_ascii_of_string key ++ "."%char :: ext
           \/ exists digits,
                is_roll digits
                /\ list_ascii_of_string file_name
                   = list_ascii_of_string key ++ "."%char :: ext
                     ++ "."%char :: digits).

End KeySpec.

Module BrowseMore.
Import Browse.

(** An entry the listing shows as a folder: not hidden, a directory. *)
Definition visible_folder (e : dirent) : bool :=
  negb (startsWith_dot (d_name e)) && d_isDirectory e.

(** An entry the listing takes as a log: not hidden, no directory, with a
    name the pattern accepts. *)
Definition visible_file (e : dirent) : bool :=
  negb (startsWith_dot (d_name e)) && negb (d_isDirectory e)
  && Regex.test LOG_FILE_REGEX (d_name e).

Definition folder_of (e : dirent) : folder_item :=
  {| fo_name := d_name e; fo_path := d_path e |}.

Definition item_of (e : dirent) (st : stat) : file_item :=
  {| name := d_name e; path := d_path e; size := st_size st;
     modified := st_mtime st; rollNumber := None |}.

Definition listed_folders (entries : list dirent) : list folder_item :=
  map folder_of (filter visible_folder entries).

Definition listed_files (entries : list dirent) : list file_item :=
  flat_map (fun e =>
              if visible_file e
              then match d_stat e with
                   | inl st => [item_of e st]
                   | inr _ => []
                   end
              else []) entries.

(** The message of the first log of the directory whose stat throws. *)
Fixpoint stat_error (entries : list dirent) : option string :=
  match entries with
  | [] => None
  | e :: rest =>
      if visible_file e
      then match d_stat e with
           | inr message => Some message
           | inl _ => stat_error rest
           end
      else stat_error rest
  end.

(** A listed file without the roll number a group gives it. *)
Definition plain (f : file_item) : file_item :=
  {| name := name f; path := path f; size := size f; modified := modified f;
     rollNumber := None |}.

Definition base_list (g : pending) : list file_item :=
  match base g with Some b => [b] | None => [] end.

Definition members (g : pending) : list file_item := rolled g ++ base_list g.

Definition held (o : JS.obj pending) : list file_item :=
  flat_map (fun kv => members (snd kv)) o.

Definition all_items (a : grouping) : list file_item :=
  standalone a ++ held (groups a).

(** A rolled member of the group filed under [k]: its name is [k], a
    dot and a roll number, and it carries that number. *)
Definition rolls_under (k : string) (y : file_item) : Prop :=
  exists digits,
    KeySpec.is_roll digits
    /\ list_ascii_of_string (name y)
       = list_ascii_of_string k ++ "."%char :: digits
    /\ rollNumber y = Some (JS.parseInt (string_of_list_ascii digits)).

(** The rolled members of every group are rolls of its key; the base
    carries no roll number. *)
Definition numbered (o : JS.obj pending) : Prop :=
  forall k g, In (k, g) o ->
    (forall y, In y (rolled g) -> rolls_under k y)
    /\ (forall b, base g = Some b -> rollNumber b = None).

(** What the second loop keeps true, [seen] being the files it has
    taken. *)
Definition sorted_out (seen : list file_item) (a : grouping) : Prop :=
  BrowseSpec.based (groups a)
  /\ numbered (groups a)
  /\ Permutation (map plain (all_items a)) (map plain seen)
  /\ NoDup (map fst (groups a)).

(** All the files of an answer, alone or in groups. *)
Definition shown_files (l : listing) : list file_item :=
  l_files l ++ flat_map files (fileGroups l).

Definition total_bytes (l : list file_item) : N :=
  fold_right (fun x sum => (size x + sum)%N) 0%N l.

(** A directory with a rolled family, a text file, a folder, a hidden
    file and a file that is no log. *)
Definition sample_directory : list dirent :=
  [ BrowseSpec.file_entry "app.log.2" 100 1700000001000;
    BrowseSpec.file_entry "notes.txt" 5 1700000000000;
    {| d_name := "archive"; d_isDirectory := true; d_path := "/logs/archive";
       d_stat := inl {| st_size := 4096; st_mtime := 1700000000000 |} |};
    BrowseSpec.file_entry "app.log" 300 1700000003000;
    BrowseSpec.file_entry ".hidden.log" 7 1700000000000;
    BrowseSpec.file_entry "app.log.10" 50 1700000000500;
    BrowseSpec.file_entry "README" 9 1700000000000 ].

Definition sample_listing : listing :=
  match browse ScanMore.by_length "/logs" "/" (Directory sample_directory) with
  | Ok l => l
  | Fail _ _ =>
      {| current := EmptyString; parent := EmptyString; folders := [];
         l_files := []; fileGroups := [] |}
  end.

End BrowseMore.

Module SearchFilesSpec.
Import SearchFiles.

(** The message of the first found path whose stat throws. *)
Fixpoint stat_failure (hits : list hit) : option string :=
  match hits with
  | [] => None
  | h :: rest =>
      match h_stat h with
      | inr message => Some message
      | inl _ => stat_failure rest
      end
  end.

(** The entry answered for a found path. *)
Definition item_of (h : hit) : list item :=
  match h_stat h with
  | inl st =>
      [ {| name := h_basename h; path := h_path h; relativePath := h_relative h;
           size := st_size st; modified := st_mtime st |} ]
  | inr _ => []
  end.

End SearchFilesSpec.

Module RegexMore.
Import Regex.

(** A pattern that is a sequence holding group [n]: the pattern inside
    the group and the pattern after it. *)
Fixpoint after_group (n : nat) (r : re) : option (re * re) :=
  match r with
  | Seq (Group m a) rest =>
      if Nat.eqb m n then Some (a, rest) else after_group n rest
  | Seq _ rest => after_group n rest
  | _ => None
  end.

Definition product (xs ys : list (list ascii)) : list (list ascii) :=
  flat_map (fun x => map (app x) ys) xs.

(** The words made of at most [mx] words of [ws]. *)
Fixpoint powers (ws : list (list ascii)) (mx : nat) : list (list ascii) :=
  match mx with
  | O => [[]]
  | S k => [] :: product ws (powers ws k)
  end.

(** The words of a pattern made of characters, sequences, alternatives,
    groups and bounded repetitions: every text the pattern reads is one of
    them, letter case apart when the case is ignored. *)
Fixpoint words (r : re) : option (list (list ascii)) :=
  match r with
  | Empty => Some [[]]
  | Chr p => Some [[p]]
  | Seq a b =>
      match words a, words b with
      | Some x, Some y => Some (product x y)
      | _, _ => None
      end
  | Alt a b =>
      match words a, words b with
      | Some x, Some y => Some (x ++ y)
      | _, _ => None
      end
  | Group _ a | NGroup a => words a
  | Rep _ (Some mx) _ a =>
      match words a with
      | Some x => Some (powers x mx)
      | None => None
      end
  | _ => None
  end.

(** The words in upper case, as texts. *)
Definition upper_words (ws : list (list ascii)) : list string :=
  map (fun w => string_of_list_ascii (map Chars.to_upper w)) ws.

End RegexMore.

Module HighlightSpec.
Import LogViewer.

Definition part_chars (p : part) : list ascii :=
  match p with
  | Plain s | Mark s => list_ascii_of_string s
  end.

(** The text the parts show, one after the other. *)
Definition joined (parts : list part) : string :=
  string_of_list_ascii (flat_map part_chars parts).

(** The pattern reads [s] somewhere in [text], letter case apart. *)
Definition read_in (r : Regex.re) (text : string) (s : string) : Prop :=
  exists pre post st',
    list_ascii_of_string text = pre ++ list_ascii_of_string s ++ post
    /\ MatchSpec.sem GLOBAL_IGNORE_CASE r
         (SearchSpec.start_at [] pre (list_ascii_of_string s ++ post)) st'
    /\ MatchSpec.reads (list_ascii_of_string s)
         (SearchSpec.start_at [] pre (list_ascii_of_string s ++ post)) st'.

(** A marked part is a text the pattern reads. *)
Definition marks_read (r : Regex.re) (text : string) (p : part) : Prop :=
  match p with
  | Mark s => read_in r text s
  | Plain _ => True
  end.

End HighlightSpec.

Module FilterSpec.
Import LogViewer.

(** The search pattern keeps no position between two tests: it has
    neither [g] nor [y] (or there is no pattern). *)
Definition stateless (searchRegex : option Regex.regex) : bool :=
  match searchRegex with
  | Some rx =>
      negb (Regex.f_global (Regex.rflags rx) || Regex.f_sticky (Regex.rflags rx))
  | None => true
  end.

Definition found (searchRegex : option Regex.regex) (text : string) : bool :=
  match searchRegex with
  | Some rx => Regex.test rx text
  | None => true
  end.

Definition no_filters : active_filters :=
  {| dateFrom := None; dateTo := None; activeLevels := None |}.

(** The lines with their numbers, from [i] on. *)
Definition numbered (i : nat) (lines : list string) : list (nat * string) :=
  combine (seq i (List.length lines)) lines.

Section Kept.
Variable Date_parse : string -> option Z.
Variable Date_local : Z -> Z -> Z -> Z -> Z -> Z -> Z -> option Z.
Variable f : active_filters.
Variable searchRegex : option Regex.regex.

(** The line passes the three filters. *)
Definition passes (text : string) : bool :=
  negb (level_rejected f (detectLevel text))
  && found searchRegex text
  && negb (date_rejected f (extractTimestamp Date_parse Date_local text)).

Definition entry (it : nat * string) : processed :=
  {| p_index := fst it; p_text := snd it;
     p_level := detectLevel (snd it);
     p_timestamp := extractTimestamp Date_parse Date_local (snd it) |}.

(** An entry of the view stands for the line of its number, carries what
    was detected on it, and passes the level and date filters. *)
Definition stands_for (lines : list string) (e : processed) : Prop :=
  nth_error lines (p_index e) = Some (p_text e)
  /\ p_level e = detectLevel (p_text e)
  /\ p_timestamp e = extractTimestamp Date_parse Date_local (p_text e)
  /\ level_rejected f (p_level e) = false
  /\ date_rejected f (p_timestamp e) = false.
End Kept.

(** The pattern the view searches with, for the text of the search box:
    what [buildSearchRegex] answers, or none. *)
Definition pattern_of (search : string) : option Regex.regex :=
  match buildSearchRegex search with
  | Matcher rx => Some rx
  | _ => None
  end.

(** Lines of a sample log. *)
Definition sample_lines : list string :=
  [ "2024-01-15 10:30:00 INFO started";
    "plain text";
    "2024-01-15 10:30:01 ERROR failed";
    "2024-01-15 10:30:02 warning: slow" ].

Definition errors_only : active_filters :=
  {| dateFrom := None; dateTo := None; activeLevels := Some ["ERROR"] |}.

End FilterSpec.

(* ===================================================================== *)
(** * Properties *)
(* ===================================================================== *)

(** ** The merge: file markers *)

(** Facts on running totals of a list of counts. *)

Lemma sum_firstn_le (cs : list nat) (i : nat) :
  list_sum (firstn i cs) <= list_sum cs.
Proof.
  revert i; induction cs as [|c cs IH]; intros [|i]; simpl; try lia.
  specialize (IH i); lia.
Qed.

Lemma sum_firstn_succ (cs : list nat) (i : nat) :
  i < List.length cs ->
  list_sum (firstn (S i) cs) = list_sum (firstn i cs) + nth i cs 0.
Proof.
  revert i; induction cs as [|c cs IH]; intros i Hi; simpl in Hi; [lia|].
  destruct i as [|i]; [simpl; lia|].
  rewrite !firstn_cons.
  change (list_sum (c :: firstn (S i) cs)) with (c + list_sum (firstn (S i) cs)).
  change (list_sum (c :: firstn i cs)) with (c + list_sum (firstn i cs)).
  change (nth (S i) (c :: cs) 0) with (nth i cs 0).
  specialize (IH i ltac:(lia)). lia.
Qed.

Lemma sum_firstn_mono (cs : list nat) (i j : nat) :
  i <= j -> list_sum (firstn i cs) <= list_sum (firstn j cs).
Proof.
  revert i j; induction cs as [|c cs IH]; intros i j Hij.
  - now rewrite !firstn_nil.
  - destruct i as [|i]; [simpl; lia|].
    destruct j as [|j]; [lia|].
    simpl. specialize (IH i j). lia.
Qed.

Lemma running_total_covers (cs : list nat) (k : nat) :
  k < list_sum cs ->
  exists i, i < List.length cs
            /\ list_sum (firstn i cs) <= k < list_sum (firstn i cs) + nth i cs 0.
Proof.
  induction cs as [|c cs IH] using rev_ind; simpl; [lia|].
  rewrite list_sum_app; simpl; intros Hk.
  destruct (Nat.lt_ge_cases k (list_sum cs)) as [Hlt|Hge].
  - destruct (IH Hlt) as (i & Hi & Hr).
    exists i. rewrite length_app; simpl.
    rewrite firstn_app, app_nth1 by lia.
    replace (i - List.length cs) with 0 by lia.
    simpl; rewrite app_nil_r. split; [lia|exact Hr].
  - exists (List.length cs). rewrite length_app; simpl.
    rewrite firstn_app, Nat.sub_diag, firstn_all; simpl; rewrite app_nil_r.
    rewrite app_nth2, Nat.sub_diag by lia. simpl. lia.
Qed.

Lemma running_total_disjoint (cs : list nat) (i j k : nat) :
  i < List.length cs -> j < List.length cs ->
  list_sum (firstn i cs) <= k < list_sum (firstn i cs) + nth i cs 0 ->
  list_sum (firstn j cs) <= k < list_sum (firstn j cs) + nth j cs 0 ->
  i = j.
Proof.
  intros Hi Hj Ki Kj.
  destruct (Nat.lt_trichotomy i j) as [H|[H|H]]; [|exact H|].
  - pose proof (sum_firstn_mono cs (i := S i) (j := j) H) as M.
    rewrite sum_firstn_succ in M by exact Hi. lia.
  - pose proof (sum_firstn_mono cs (i := S j) (j := i) H) as M.
    rewrite sum_firstn_succ in M by exact Hj. lia.
Qed.

Module MergeFacts.
Import ReadMulti MergeSpec.

Lemma consistent_empty : consistent empty.
Proof. split; simpl; [reflexivity | intros i Hi; lia]. Qed.

Lemma consistent_step (fs : filesystem) (a : acc) (fp : string) :
  consistent a -> consistent (step fs a fp).
Proof.
  intros [Htot Hst]. unfold step.
  destruct (fs fp) as [[bytes|]|]; try (split; assumption).
  split; simpl.
  - rewrite length_app, map_app, list_sum_app; simpl. lia.
  - intros i Hi. rewrite length_app in Hi; simpl in Hi.
    rewrite map_app.
    destruct (Nat.lt_ge_cases i (List.length (fileMarkers a))) as [Hlt|Hge].
    + rewrite nth_error_app1 by exact Hlt.
      rewrite firstn_app, length_map.
      replace (i - List.length (fileMarkers a)) with 0 by lia.
      simpl; rewrite app_nil_r. apply Hst, Hlt.
    + assert (i = List.length (fileMarkers a)) as -> by lia.
      rewrite nth_error_app2, Nat.sub_diag by lia. simpl.
      rewrite firstn_app, length_map, Nat.sub_diag; simpl.
      rewrite app_nil_r, firstn_all2 by (rewrite length_map; lia).
      now rewrite Htot.
Qed.

Lemma merge_snoc (fs : filesystem) (ps : list string) (fp : string) :
  merge fs (ps ++ [fp]) = step fs (merge fs ps) fp.
Proof. unfold merge. now rewrite fold_left_app. Qed.

Lemma merge_consistent (fs : filesystem) (ps : list string) :
  consistent (merge fs ps).
Proof.
  induction ps as [|fp ps IH] using rev_ind.
  - apply consistent_empty.
  - rewrite merge_snoc. now apply consistent_step.
Qed.

Lemma merge_counts (fs : filesystem) (ps : list string) :
  map lineCount (fileMarkers (merge fs ps)) = line_counts fs ps.
Proof.
  induction ps as [|fp ps IH] using rev_ind; [reflexivity|].
  rewrite merge_snoc. unfold line_counts in *. rewrite flat_map_app; simpl.
  unfold step. destruct (fs fp) as [[bytes|]|]; simpl;
    rewrite ?app_nil_r, ?map_app, ?IH; reflexivity.
Qed.

Lemma merge_totalSize (fs : filesystem) (ps : list string) :
  totalSize (merge fs ps) = sum_N (disk_sizes fs ps).
Proof.
  induction ps as [|fp ps IH] using rev_ind; [reflexivity|].
  rewrite merge_snoc. unfold disk_sizes in *. rewrite flat_map_app; simpl.
  unfold step. destruct (fs fp) as [[bytes|]|]; simpl;
    rewrite ?app_nil_r; try exact IH.
  rewrite IH. unfold sum_N. rewrite fold_right_app. simpl.
  generalize (flat_map (fun fp0 => match fs fp0 with
                                   | Some (File bytes0) => [N.of_nat (List.length bytes0)]
                                   | _ => []
                                   end) ps) as l.
  induction l as [|x l IHl]; simpl; lia.
Qed.

Lemma step_skips (fs : filesystem) (a : acc) (fp : string) :
  match fs fp with Some (File _) => False | _ => True end ->
  step fs a fp = a.
Proof. unfold step. destruct (fs fp) as [[?|?]|]; intros H; [destruct H|reflexivity..]. Qed.

End MergeFacts.

(** C2. For any merge, the markers carry the line counts of the files
    read, in order; marker i starts at the sum of the counts before it;
    the counts add up to the number of merged lines; the start lines are
    sorted; and every line index below the total lies in the range of
    exactly one marker. *)
Theorem C2_marker_partition (fs : filesystem) (paths : list string) :
  let a := ReadMulti.merge fs paths in
  let ms := ReadMulti.fileMarkers a in
  let cs := MergeSpec.line_counts fs paths in
  map ReadMulti.lineCount ms = cs
  /\ (forall i m, nth_error ms i = Some m ->
        ReadMulti.startLine m = list_sum (firstn i cs))
  /\ list_sum cs = List.length (ReadMulti.allLines a)
  /\ (forall i j mi mj, i <= j -> nth_error ms i = Some mi -> nth_error ms j = Some mj ->
        ReadMulti.startLine mi <= ReadMulti.startLine mj)
  /\ (forall i m mnext, nth_error ms i = Some m -> nth_error ms (S i) = Some mnext ->
        ReadMulti.startLine mnext = ReadMulti.startLine m + ReadMulti.lineCount m)
  /\ (forall k, k < List.length (ReadMulti.allLines a) ->
        exists i m, nth_error ms i = Some m
          /\ ReadMulti.startLine m <= k < ReadMulti.startLine m + ReadMulti.lineCount m
          /\ forall j m', nth_error ms j = Some m' ->
               ReadMulti.startLine m' <= k < ReadMulti.startLine m' + ReadMulti.lineCount m' ->
               j = i)
  /\ match ReadMulti.readMulti fs (Some paths) with
     | Ok r =>
         ReadMulti.r_lines r = ReadMulti.allLines a
         /\ ReadMulti.r_fileMarkers r = ms
         /\ ReadMulti.r_fileCount r = List.length ms
     | Fail _ _ => paths = []
     end.
Proof.
  intros a ms cs.
  pose proof (MergeFacts.merge_consistent fs paths) as [Htot Hst].
  pose proof (MergeFacts.merge_counts fs paths) as Hcs.
  fold a in Htot, Hst, Hcs. fold ms in Htot, Hst, Hcs. fold cs in Hcs.
  rewrite Hcs in Htot, Hst.
  assert (Hlen : List.length ms = List.length cs)
    by (rewrite <- Hcs; now rewrite length_map).
  assert (Start : forall i m, nth_error ms i = Some m ->
            ReadMulti.startLine m = list_sum (firstn i cs)).
  { intros i m Hm.
    assert (Hi : i < List.length ms) by (apply nth_error_Some; congruence).
    specialize (Hst i Hi). rewrite Hm in Hst. simpl in Hst. congruence. }
  assert (Count : forall i m, nth_error ms i = Some m ->
            ReadMulti.lineCount m = nth i cs 0 /\ i < List.length cs).
  { intros i m Hm. split.
    - rewrite <- Hcs. erewrite nth_error_nth; [reflexivity|].
      rewrite nth_error_map, Hm. reflexivity.
    - rewrite <- Hlen. apply nth_error_Some; congruence. }
  split; [|split; [|split; [|split; [|split; [|split]]]]].
  - exact Hcs.
  - exact Start.
  - symmetry; exact Htot.
  - intros i j mi mj Hij Hi Hj.
    rewrite (Start _ _ Hi), (Start _ _ Hj). now apply sum_firstn_mono.
  - intros i m mnext Hm Hn.
    rewrite (Start _ _ Hm), (Start _ _ Hn).
    destruct (Count _ _ Hm) as [-> Hi]. now apply sum_firstn_succ.
  - intros k Hk. rewrite Htot in Hk.
    destruct (running_total_covers cs Hk) as (i & Hi & Hr).
    destruct (nth_error ms i) as [m|] eqn:Hm;
      [|apply nth_error_None in Hm; lia].
    exists i, m. split; [exact Hm|].
    destruct (Count _ _ Hm) as [Hc _].
    rewrite (Start _ _ Hm), Hc. split; [exact Hr|].
    intros j m' Hm' Hr'.
    destruct (Count _ _ Hm') as [Hc' Hj].
    rewrite (Start _ _ Hm'), Hc' in Hr'.
    exact (running_total_disjoint cs Hj Hi Hr' Hr).
  - unfold ReadMulti.readMulti. destruct paths; [reflexivity|].
    repeat split.
Qed.

(** ** The merge: directories and the read cap *)

Module CapFacts.
Import ReadMulti MergeSpec.

Lemma read_prefix (bytes : list ascii) (len : N) :
  N.to_nat len <= List.length bytes ->
  JS.read_into_buffer bytes len 0 = firstn (N.to_nat len) bytes.
Proof.
  intros Hle. unfold JS.read_into_buffer.
  change (N.to_nat 0) with 0. rewrite skipn_O.
  rewrite length_firstn, Nat.min_l by exact Hle.
  now rewrite Nat.sub_diag, app_nil_r.
Qed.

Lemma read_lines_unfold (bytes : list ascii) :
  read_lines bytes
  = lines_of (JS.read_into_buffer bytes
                (N.min (N.of_nat (List.length bytes)) MAX_READ) 0).
Proof. reflexivity. Qed.

Lemma read_lines_small (bytes : list ascii) :
  (N.of_nat (List.length bytes) <= MAX_READ)%N ->
  read_lines bytes = lines_of bytes.
Proof.
  intros Hle. unfold read_lines, lines_of.
  rewrite N.min_l by exact Hle.
  rewrite read_prefix by lia.
  now rewrite Nat2N.id, firstn_all.
Qed.

Lemma read_lines_capped (bytes : list ascii) :
  (MAX_READ < N.of_nat (List.length bytes))%N ->
  read_lines bytes = lines_of (first_bytes MAX_READ bytes).
Proof.
  intros Hlt. unfold read_lines, lines_of, first_bytes.
  rewrite N.min_r by lia.
  now rewrite read_prefix by lia.
Qed.

Lemma split_letters (c : ascii) (n : nat) (cur : list ascii) :
  Ascii.eqb c Chars.LF = false -> Ascii.eqb c Chars.CR = false ->
  JS.split_from cur (repeat c n) = [string_of_list_ascii (rev cur ++ repeat c n)].
Proof.
  intros Hlf Hcr. revert cur.
  induction n as [|n IH]; intros cur; simpl.
  - now rewrite app_nil_r.
  - rewrite Hlf, Hcr, IH. simpl. now rewrite <- app_assoc.
Qed.

Lemma headed_length (k : nat) : List.length (headed k) = S (S k).
Proof. unfold headed. simpl. now rewrite repeat_length. Qed.

(** The two readings of a file [A], LF, then [k] letters [b], under a cap
    of [k] bytes. *)
Lemma headed_first (k : nat) :
  3 <= k ->
  lines_of (firstn k (headed k))
  = [ "A"; string_of_list_ascii (repeat "b"%char (k - 2)) ].
Proof.
  intros Hk. destruct k as [|[|[|n]]]; try lia. clear Hk.
  unfold lines_of, JS.toString_utf8, JS.split_lines, headed.
  rewrite list_ascii_of_string_of_list_ascii.
  rewrite !firstn_cons.
  replace (firstn (S n) (repeat "b"%char (S (S (S n))))) with (repeat "b"%char (S n)).
  2:{ replace (S (S (S n))) with (S n + 2) by lia.
      rewrite repeat_app, firstn_app, repeat_length, Nat.sub_diag, firstn_O, app_nil_r.
      now rewrite firstn_all2 by (rewrite repeat_length; lia). }
  cbn [JS.split_from]. change (Ascii.eqb "A" Chars.LF) with false.
  change (Ascii.eqb "A" Chars.CR) with false. cbv iota.
  change (Ascii.eqb Chars.LF Chars.LF) with true. cbv iota.
  rewrite split_letters by reflexivity.
  reflexivity.
Qed.

Lemma headed_last (k : nat) :
  1 <= k ->
  lines_of (skipn (List.length (headed k) - k) (headed k))
  = [ string_of_list_ascii (repeat "b"%char k) ].
Proof.
  intros Hk. rewrite headed_length.
  replace (S (S k) - k) with 2 by lia.
  destruct k as [|n]; [lia|]. clear Hk.
  unfold lines_of, JS.toString_utf8, JS.split_lines, headed.
  rewrite list_ascii_of_string_of_list_ascii.
  change (skipn 2 ("A"%char :: Chars.LF :: repeat "b"%char (S n)))
    with (repeat "b"%char (S n)).
  rewrite split_letters by reflexivity.
  reflexivity.
Qed.

(** Reading [headed k] under a cap of [k] bytes. *)
Lemma headed_read (cap : N) (k : nat) :
  k = N.to_nat cap ->
  JS.read_into_buffer (headed k) (N.min (N.of_nat (List.length (headed k))) cap) 0
  = firstn k (headed k).
Proof.
  intros ->. rewrite headed_length.
  rewrite N.min_r by lia.
  apply read_prefix. rewrite headed_length. lia.
Qed.

Lemma cap_nat_at_least_3 : 3 <= N.to_nat MAX_READ.
Proof.
  assert (H : (3 <= MAX_READ)%N) by (vm_compute; discriminate).
  revert H. generalize MAX_READ. intros c H. lia.
Qed.

Lemma oversized_size : N.of_nat (List.length oversized) = (MAX_READ + 2)%N.
Proof.
  unfold oversized. rewrite headed_length.
  generalize MAX_READ. intros c. lia.
Qed.

Lemma oversized_is_big : (MAX_READ < N.of_nat (List.length oversized))%N.
Proof. rewrite oversized_size. generalize MAX_READ. intros c. lia. Qed.

Lemma oversized_read_lines :
  read_lines oversized
  = [ "A"; string_of_list_ascii (repeat "b"%char (N.to_nat MAX_READ - 2)) ].
Proof.
  rewrite read_lines_unfold. unfold oversized.
  rewrite (@headed_read MAX_READ (N.to_nat MAX_READ) eq_refl).
  rewrite (headed_first cap_nat_at_least_3).
  reflexivity.
Qed.

Lemma oversized_last_lines :
  lines_of (last_bytes MAX_READ oversized)
  = [ string_of_list_ascii (repeat "b"%char (N.to_nat MAX_READ)) ].
Proof.
  unfold last_bytes, oversized.
  rewrite (@headed_last (N.to_nat MAX_READ)).
  - reflexivity.
  - apply Nat.le_trans with (m := 3); [repeat constructor | exact cap_nat_at_least_3].
Qed.

Lemma merge_one (fs : filesystem) (fp : string) (bytes : list ascii) :
  fs fp = Some (File bytes) ->
  allLines (merge fs [fp]) = read_lines bytes
  /\ totalSize (merge fs [fp]) = N.of_nat (List.length bytes).
Proof.
  intros H. unfold merge. cbn [fold_left]. unfold step. rewrite H. split; reflexivity.
Qed.

Lemma step_same_without (fs : filesystem) (d : string) (n : N) (a : acc) (fp : string) :
  fs d = Some (Dir n) -> step fs a fp = step (without d fs) a fp.
Proof.
  intros Hd. unfold step, without.
  destruct (String.eqb_spec fp d) as [->|Hne]; [now rewrite Hd|reflexivity].
Qed.

Lemma merge_same_without (fs : filesystem) (d : string) (n : N) (ps : list string) :
  fs d = Some (Dir n) -> merge fs ps = merge (without d fs) ps.
Proof.
  intros Hd. induction ps as [|fp ps IH] using rev_ind; [reflexivity|].
  rewrite !MergeFacts.merge_snoc, IH. now apply step_same_without with (n := n).
Qed.

Lemma merge_app (fs : filesystem) (ps qs : list string) :
  merge fs (ps ++ qs) = fold_left (step fs) qs (merge fs ps).
Proof. unfold merge. now rewrite fold_left_app. Qed.

End CapFacts.

(** C10. A path of the request that names a directory is passed over like
    a path that does not exist: the loop body leaves lines, markers and
    total size as they were; the merge is the merge of the other paths;
    the answer is the one given when the path is missing; and the request
    is answered, not failed. *)
Theorem C10_directory_is_skipped
  (fs : filesystem) (d : string) (n : N) (before after : list string)
  (a : ReadMulti.acc) :
  fs d = Some (Dir n) ->
  ReadMulti.step fs a d = a
  /\ ReadMulti.step fs a d = ReadMulti.step (MergeSpec.without d fs) a d
  /\ ReadMulti.merge fs (before ++ d :: after) = ReadMulti.merge fs (before ++ after)
  /\ ReadMulti.readMulti fs (Some (before ++ d :: after))
     = ReadMulti.readMulti (MergeSpec.without d fs) (Some (before ++ d :: after))
  /\ exists r, ReadMulti.readMulti fs (Some (before ++ d :: after)) = Ok r
       /\ ReadMulti.r_lines r = ReadMulti.allLines (ReadMulti.merge fs (before ++ after))
       /\ ReadMulti.r_fileMarkers r = ReadMulti.fileMarkers (ReadMulti.merge fs (before ++ after))
       /\ ReadMulti.r_totalSize r = ReadMulti.totalSize (ReadMulti.merge fs (before ++ after))
       /\ ReadMulti.r_fileCount r
          = List.length (ReadMulti.fileMarkers (ReadMulti.merge fs (before ++ after))).
Proof.
  intros Hd.
  assert (Hstep : forall b, ReadMulti.step fs b d = b)
    by (intros b; unfold ReadMulti.step; now rewrite Hd).
  assert (Hmerge : ReadMulti.merge fs (before ++ d :: after)
                   = ReadMulti.merge fs (before ++ after)).
  { rewrite !CapFacts.merge_app. cbn [fold_left]. now rewrite Hstep. }
  split; [apply Hstep|].
  split; [now apply CapFacts.step_same_without with (n := n)|].
  split; [exact Hmerge|].
  split.
  - unfold ReadMulti.readMulti.
    rewrite <- (@CapFacts.merge_same_without fs d n (before ++ d :: after) Hd).
    reflexivity.
  - unfold ReadMulti.readMulti. rewrite Hmerge.
    destruct (before ++ d :: after) as [|x l] eqn:E.
    + destruct before; discriminate.
    + eexists. split; [reflexivity|]. cbn. repeat split; reflexivity.
Qed.

(** C10, on the sample directory [/logs/archive] among the sample paths. *)
Lemma C10_directory_is_skipped_witness :
  ReadMulti.readMulti MergeSpec.sample_fs (Some MergeSpec.sample_paths)
  = ReadMulti.readMulti (MergeSpec.without "/logs/archive" MergeSpec.sample_fs)
      (Some MergeSpec.sample_paths).
Proof.
  exact (proj1 (proj2 (proj2 (proj2
    (@C10_directory_is_skipped MergeSpec.sample_fs "/logs/archive" 4096
       [ "/logs/app.log.1"; "/logs/missing.log" ]
       [ "/logs/empty.log"; "/logs/app.log" ]
       ReadMulti.empty eq_refl))))).
Defined.

(** C6, as stated, fails: of a file two bytes over the cap the merge keeps
    the first line [A], which the last [MAX_READ] bytes do not hold. *)
Lemma C6_reads_last_bytes_counterexample :
  let fs := MergeSpec.holding [("/logs/big.log", File MergeSpec.oversized)] in
  (MAX_READ < N.of_nat (List.length MergeSpec.oversized))%N
  /\ hd_error (ReadMulti.allLines (ReadMulti.merge fs ["/logs/big.log"])) = Some "A"
  /\ ReadMulti.allLines (ReadMulti.merge fs ["/logs/big.log"])
     <> MergeSpec.lines_of (MergeSpec.last_bytes MAX_READ MergeSpec.oversized).
Proof.
  intros fs.
  destruct (@CapFacts.merge_one fs "/logs/big.log" MergeSpec.oversized eq_refl) as [Hl _].
  rewrite Hl, CapFacts.oversized_read_lines, CapFacts.oversized_last_lines.
  split; [exact CapFacts.oversized_is_big|]. split; [reflexivity|]. discriminate.
Qed.

(** C6, amended. A file larger than the cap contributes the lines of its
    first [MAX_READ] bytes, and adds its full size on disk to the total;
    the total of a merge is the sum of the full sizes of the files read. *)
Theorem C6_reads_first_bytes
  (fs : filesystem) (a : ReadMulti.acc) (fp : string) (bytes : list ascii)
  (paths : list string) :
  fs fp = Some (File bytes) ->
  (MAX_READ < N.of_nat (List.length bytes))%N ->
  ReadMulti.allLines (ReadMulti.step fs a fp)
  = ReadMulti.allLines a ++ MergeSpec.lines_of (MergeSpec.first_bytes MAX_READ bytes)
  /\ ReadMulti.totalSize (ReadMulti.step fs a fp)
     = (ReadMulti.totalSize a + N.of_nat (List.length bytes))%N
  /\ ReadMulti.totalSize (ReadMulti.merge fs paths)
     = MergeSpec.sum_N (MergeSpec.disk_sizes fs paths).
Proof.
  intros Hf Hbig. unfold ReadMulti.step. rewrite Hf. cbn [ReadMulti.allLines ReadMulti.totalSize].
  rewrite (CapFacts.read_lines_capped _ Hbig).
  repeat split. apply MergeFacts.merge_totalSize.
Qed.

(** C6 amended, on the oversized file. *)
Lemma C6_reads_first_bytes_witness :
  ReadMulti.allLines
    (ReadMulti.step (MergeSpec.holding [("/logs/big.log", File MergeSpec.oversized)])
                    ReadMulti.empty "/logs/big.log")
  = ReadMulti.allLines ReadMulti.empty
    ++ MergeSpec.lines_of (MergeSpec.first_bytes MAX_READ MergeSpec.oversized)
  /\ ReadMulti.totalSize
       (ReadMulti.step (MergeSpec.holding [("/logs/big.log", File MergeSpec.oversized)])
                       ReadMulti.empty "/logs/big.log")
     = (ReadMulti.totalSize ReadMulti.empty + N.of_nat (List.length MergeSpec.oversized))%N
  /\ ReadMulti.totalSize
       (ReadMulti.merge (MergeSpec.holding [("/logs/big.log", File MergeSpec.oversized)])
                        ["/logs/big.log"])
     = MergeSpec.sum_N
         (MergeSpec.disk_sizes
            (MergeSpec.holding [("/logs/big.log", File MergeSpec.oversized)])
            ["/logs/big.log"]).
Proof.
  exact (@C6_reads_first_bytes
           (MergeSpec.holding [("/logs/big.log", File MergeSpec.oversized)])
           ReadMulti.empty "/logs/big.log" MergeSpec.oversized
           ["/logs/big.log"] eq_refl CapFacts.oversized_is_big).
Defined.

(** ** The tail *)

Module TailFacts.
Import Tail TailSpec.

Lemma read_range (bytes : list ascii) (from : N) :
  (from <= N.of_nat (List.length bytes))%N ->
  JS.read_into_buffer bytes (N.of_nat (List.length bytes) - from) from
  = appended from bytes.
Proof.
  intros Hle. unfold JS.read_into_buffer, appended.
  assert (Hlen : List.length (skipn (N.to_nat from) bytes)
                 = N.to_nat (N.of_nat (List.length bytes) - from))
    by (rewrite length_skipn; lia).
  rewrite firstn_all2 by lia.
  rewrite Hlen, Nat.sub_diag. apply app_nil_r.
Qed.

Lemma on_change_grows (fs : filesystem) (s : session) (w file : string)
  (bytes : list ascii) :
  currentWatcher s = Some w -> currentFile s = Some file ->
  fs file = Some (File bytes) ->
  (lastSize s < N.of_nat (List.length bytes))%N ->
  on_change fs s
  = (resized s (N.of_nat (List.length bytes)),
     sent_for (batch_of (appended (lastSize s) bytes))).
Proof.
  destruct s as [cw cf ls]. cbn [currentWatcher currentFile lastSize].
  intros -> -> Hfs Hlt. unfold on_change, resized.
  cbn [currentWatcher currentFile lastSize]. rewrite Hfs.
  cbn [node_size].
  apply N.ltb_lt in Hlt as Hb. rewrite Hb.
  rewrite read_range by lia.
  fold (batch_of (appended ls bytes)).
  destruct (batch_of (appended ls bytes)); reflexivity.
Qed.

Lemma on_change_shrinks (fs : filesystem) (s : session) (w file : string) (n : node) :
  currentWatcher s = Some w -> currentFile s = Some file ->
  fs file = Some n ->
  (node_size n < lastSize s)%N ->
  on_change fs s = (resized s (node_size n), [Truncated]).
Proof.
  destruct s as [cw cf ls]. cbn [currentWatcher currentFile lastSize].
  intros -> -> Hfs Hlt. unfold on_change, resized.
  cbn [currentWatcher currentFile lastSize]. rewrite Hfs.
  assert (Hb : (ls <? node_size n)%N = false) by (apply N.ltb_ge; lia).
  rewrite Hb. apply N.ltb_lt in Hlt. rewrite Hlt. reflexivity.
Qed.

End TailFacts.

(** C3. When the watched file is found larger than last seen, the
    handler reads the bytes from the old size to the new one, sends their
    non-empty lines as one batch (nothing when there is none), and
    records the new size.  New bytes that are [hello], LF, [world], LF
    are sent as the one batch [hello], [world]; a growth from 100 bytes
    to 140 whose new bytes hold the lines [hello] and [world] sends that
    one batch and records 140. *)
Theorem C3_tail_growth
  (fs : filesystem) (s : Tail.session) (w file : string) (bytes : list ascii) :
  Tail.currentWatcher s = Some w ->
  Tail.currentFile s = Some file ->
  fs file = Some (File bytes) ->
  (Tail.lastSize s < N.of_nat (List.length bytes))%N ->
  Tail.on_change fs s
  = (TailSpec.resized s (N.of_nat (List.length bytes)),
     TailSpec.sent_for (TailSpec.batch_of (TailSpec.appended (Tail.lastSize s) bytes)))
  /\ JS.read_into_buffer bytes (N.of_nat (List.length bytes) - Tail.lastSize s)
                         (Tail.lastSize s)
     = TailSpec.appended (Tail.lastSize s) bytes
  /\ List.length (snd (Tail.on_change fs s)) <= 1
  /\ Tail.lastSize (fst (Tail.on_change fs s)) = N.of_nat (List.length bytes)
  /\ (TailSpec.appended (Tail.lastSize s) bytes = TailSpec.hello_world ->
      snd (Tail.on_change fs s) = [Tail.NewLines ["hello"; "world"]])
  /\ (Tail.lastSize s = 100%N -> N.of_nat (List.length bytes) = 140%N ->
      TailSpec.batch_of (TailSpec.appended 100 bytes) = ["hello"; "world"] ->
      Tail.on_change fs s
      = (TailSpec.resized s 140, [Tail.NewLines ["hello"; "world"]])).
Proof.
  intros Hw Hf Hfs Hlt.
  rewrite (TailFacts.on_change_grows fs s Hw Hf Hfs Hlt).
  split; [reflexivity|].
  split; [apply TailFacts.read_range; lia|].
  split; [cbn [snd]; destruct (TailSpec.batch_of _); simpl; lia|].
  split; [reflexivity|].
  split.
  - intros ->. reflexivity.
  - intros -> -> ->. reflexivity.
Qed.

(** C3, on the example: 100 bytes grown to 140. *)
Lemma C3_tail_growth_witness :
  Tail.on_change (MergeSpec.holding [(TailSpec.log_path, File TailSpec.grown)])
                 (TailSpec.watching TailSpec.log_path 100)
  = (TailSpec.watching TailSpec.log_path 140, [Tail.NewLines ["hello"; "world"]]).
Proof.
  exact (proj2 (proj2 (proj2 (proj2 (proj2
           (@C3_tail_growth
              (MergeSpec.holding [(TailSpec.log_path, File TailSpec.grown)])
              (TailSpec.watching TailSpec.log_path 100)
              TailSpec.log_path TailSpec.log_path TailSpec.grown
              eq_refl eq_refl eq_refl eq_refl)))))
           eq_refl eq_refl eq_refl).
Defined.

(** C4. When the watched file is found smaller than last seen, the
    handler sends one [truncated] message and nothing else, and records
    the new size; a later growth is then read from that new size on. *)
Theorem C4_tail_truncation
  (fs fs' : filesystem) (s : Tail.session) (w file : string) (n : node)
  (bytes' : list ascii) :
  Tail.currentWatcher s = Some w ->
  Tail.currentFile s = Some file ->
  fs file = Some n ->
  (node_size n < Tail.lastSize s)%N ->
  fs' file = Some (File bytes') ->
  (node_size n < N.of_nat (List.length bytes'))%N ->
  Tail.on_change fs s = (TailSpec.resized s (node_size n), [Tail.Truncated])
  /\ Tail.on_change fs' (fst (Tail.on_change fs s))
     = (TailSpec.resized s (N.of_nat (List.length bytes')),
        TailSpec.sent_for (TailSpec.batch_of (TailSpec.appended (node_size n) bytes'))).
Proof.
  intros Hw Hf Hfs Hlt Hfs' Hgrow.
  rewrite (TailFacts.on_change_shrinks fs s Hw Hf Hfs Hlt).
  split; [reflexivity|]. cbn [fst].
  rewrite (@TailFacts.on_change_grows fs' (TailSpec.resized s (node_size n)) w file bytes');
    auto.
Qed.

(** C4, on a file that drops from 500 bytes to 10 and then grows to 16. *)
Lemma C4_tail_truncation_witness :
  let fs := MergeSpec.holding [(TailSpec.log_path, File (repeat "x"%char 10))] in
  let fs' := MergeSpec.holding
               [(TailSpec.log_path,
                 File (repeat "x"%char 10 ++ MergeSpec.text "again" ++ [Chars.LF]))] in
  Tail.on_change fs (TailSpec.watching TailSpec.log_path 500)
  = (TailSpec.watching TailSpec.log_path 10, [Tail.Truncated])
  /\ Tail.on_change fs' (fst (Tail.on_change fs (TailSpec.watching TailSpec.log_path 500)))
     = (TailSpec.watching TailSpec.log_path 16, [Tail.NewLines ["again"]]).
Proof.
  exact (@C4_tail_truncation
           (MergeSpec.holding [(TailSpec.log_path, File (repeat "x"%char 10))])
           (MergeSpec.holding
              [(TailSpec.log_path,
                File (repeat "x"%char 10 ++ MergeSpec.text "again" ++ [Chars.LF]))])
           (TailSpec.watching TailSpec.log_path 500)
           TailSpec.log_path TailSpec.log_path (File (repeat "x"%char 10))
           (repeat "x"%char 10 ++ MergeSpec.text "again" ++ [Chars.LF])
           eq_refl eq_refl eq_refl eq_refl eq_refl eq_refl).
Defined.

(** C9, as stated, fails: a [stop-tail] received while no watcher is open
    is answered with nothing. *)
Lemma C9_stop_tail_counterexample :
  Tail.on_message MergeSpec.sample_fs Tail.initial TailSpec.stop_tail
  = (Tail.initial, []).
Proof. reflexivity. Qed.

(** C9, amended. A [stop-tail] received while a watcher is open closes it
    and sends [tail-stopped]; received while none is open it changes
    nothing and sends nothing. *)
Theorem C9_stop_tail (fs : filesystem) (s : Tail.session) (path : option string) :
  (forall w, Tail.currentWatcher s = Some w ->
     Tail.on_message fs s (Tail.Msg (Some "stop-tail") path)
     = (Tail.on_close s, [Tail.TailStopped]))
  /\ (Tail.currentWatcher s = None ->
      Tail.on_message fs s (Tail.Msg (Some "stop-tail") path) = (s, []))
  /\ Tail.currentWatcher (fst (Tail.on_message fs s (Tail.Msg (Some "stop-tail") path)))
     = None.
Proof.
  unfold Tail.on_message. cbn [Tail.is_type].
  change (String.eqb "stop-tail" "tail") with false.
  change (String.eqb "stop-tail" "stop-tail") with true. cbv iota.
  destruct (Tail.currentWatcher s) as [w0|] eqn:E.
  - split; [intros w _; reflexivity|]. split; [discriminate|reflexivity].
  - split; [discriminate|]. split; [reflexivity|exact E].
Qed.

(** ** The scan: one rolled family *)

Module ScanFacts.
Import Scan ScanSpec.

Lemma three_orders (A : Type) (a b c : A) (l : list A) :
  Permutation l [a; b; c] ->
  l = [a; b; c] \/ l = [a; c; b] \/ l = [b; a; c]
  \/ l = [b; c; a] \/ l = [c; a; b] \/ l = [c; b; a].
Proof.
  intros P.
  assert (Hlen : List.length l = 3) by (now rewrite (Permutation_length P)).
  destruct (Permutation_vs_cons_inv P) as (l1 & l2 & ->).
  apply Permutation_sym, Permutation_cons_app_inv in P.
  apply Permutation_length_2_inv in P.
  rewrite length_app in Hlen; simpl in Hlen.
  destruct l1 as [|x [|y [|z l1]]]; simpl in *.
  - destruct P as [->| ->]; auto.
  - destruct l2 as [|u [|v l2]]; simpl in *; try lia.
    destruct P as [P|P]; injection P as -> ->; auto 10.
  - destruct l2 as [|u l2]; simpl in *; try lia.
    destruct P as [P|P]; injection P as -> ->; auto 10.
  - lia.
Qed.

Lemma collect_visible (folders : list folder) :
  collect folders
  = flat_map (fun p => collect_found (fst p) (snd p)) (visible folders).
Proof.
  unfold collect, visible.
  induction folders as [|fo folders IH]; [reflexivity|].
  cbn [flat_map]. rewrite flat_map_app, IH. f_equal.
  unfold collect_folder. destruct (present fo); [|reflexivity].
  cbn [negb]. induction (found_files fo) as [|f fs IHf]; [reflexivity|].
  cbn [map flat_map fst snd]. now rewrite IHf.
Qed.

(** A found file with one of the three names passes the filters. *)
Lemma collect_family_member (fo : folder) (f : found) (st : stat) :
  fd_basename f = "app.log" \/ fd_basename f = "app.log.1"
  \/ fd_basename f = "app.log.2" ->
  fd_stat f = Some st ->
  collect_found fo f = [logfile_of fo f st].
Proof.
  intros Hn Hst. unfold collect_found, logfile_of. rewrite Hst.
  destruct Hn as [-> | [-> | ->]]; reflexivity.
Qed.

End ScanFacts.

(** C1. When the files found under the scanned folders are one named
    app.log, one named app.log.1 and one named app.log.2, in any order,
    the scan answers one group, named app, whose files are app.log.2,
    app.log.1, app.log in that order. *)
Theorem C1_scan_groups_rolled_family
  (localeCompareBase : string -> string -> Z)
  (folders : list Scan.folder)
  (fo0 fo1 fo2 : Scan.folder) (f0 f1 f2 : Scan.found) (st0 st1 st2 : stat) :
  Scan.fd_basename f0 = "app.log" -> Scan.fd_stat f0 = Some st0 ->
  Scan.fd_basename f1 = "app.log.1" -> Scan.fd_stat f1 = Some st1 ->
  Scan.fd_basename f2 = "app.log.2" -> Scan.fd_stat f2 = Some st2 ->
  Permutation (ScanSpec.visible folders) [(fo0, f0); (fo1, f1); (fo2, f2)] ->
  exists g,
    Scan.scan localeCompareBase (Some folders)
    = Ok {| Scan.groups := [g]; Scan.totalFiles := 3; Scan.totalGroups := 1 |}
    /\ Scan.groupName g = "app"
    /\ Scan.files g = [ ScanSpec.logfile_of fo2 f2 st2;
                        ScanSpec.logfile_of fo1 f1 st1;
                        ScanSpec.logfile_of fo0 f0 st0 ]
    /\ map Scan.name (Scan.files g) = ["app.log.2"; "app.log.1"; "app.log"].
Proof.
  intros N0 S0 N1 S1 N2 S2 P.
  assert (C0 := @ScanFacts.collect_family_member fo0 f0 st0 (or_introl N0) S0).
  assert (C1 := @ScanFacts.collect_family_member fo1 f1 st1
                  (or_intror (or_introl N1)) S1).
  assert (C2 := @ScanFacts.collect_family_member fo2 f2 st2
                  (or_intror (or_intror N2)) S2).
  destruct folders as [|fo folders].
  { apply Permutation_nil in P. discriminate. }
  set (fs := fo :: folders) in *.
  change (Scan.scan localeCompareBase (Some fs))
    with (Scan.respond localeCompareBase (Scan.collect fs)).
  rewrite ScanFacts.collect_visible.
  set (x0 := ScanSpec.logfile_of fo0 f0 st0) in *.
  set (x1 := ScanSpec.logfile_of fo1 f1 st1) in *.
  set (x2 := ScanSpec.logfile_of fo2 f2 st2) in *.
  assert (M0 : Scan.name x0 = "app.log") by exact N0.
  assert (M1 : Scan.name x1 = "app.log.1") by exact N1.
  assert (M2 : Scan.name x2 = "app.log.2") by exact N2.
  clearbody x0 x1 x2.
  destruct x0 as [n0 p0 d0 r0 s0 z0 m0], x1 as [n1 p1 d1 r1 s1 z1 m1],
           x2 as [n2 p2 d2 r2 s2 z2 m2].
  cbn in M0, M1, M2. subst n0 n1 n2.
  eexists. split; [|split; [|split]].
  - destruct (ScanFacts.three_orders P) as [E|[E|[E|[E|[E|E]]]]];
      rewrite E; cbn [flat_map fst snd]; rewrite C0, C1, C2; cbn [app];
      vm_compute; reflexivity.
  - reflexivity.
  - vm_compute. reflexivity.
  - reflexivity.
Qed.

(** C1, on the three files returned in the order app.log.1, app.log,
    app.log.2. *)
Lemma C1_scan_groups_rolled_family_witness :
  exists g,
    Scan.scan ScanSpec.no_order (Some [ScanSample.walked])
    = Ok {| Scan.groups := [g]; Scan.totalFiles := 3; Scan.totalGroups := 1 |}
    /\ Scan.groupName g = "app"
    /\ Scan.files g
       = [ ScanSpec.logfile_of ScanSample.walked ScanSample.rolled2
             (ScanSample.stat_of 100 1700000001000);
           ScanSpec.logfile_of ScanSample.walked ScanSample.rolled1
             (ScanSample.stat_of 200 1700000002000);
           ScanSpec.logfile_of ScanSample.walked ScanSample.current
             (ScanSample.stat_of 300 1700000003000) ]
    /\ map Scan.name (Scan.files g) = ["app.log.2"; "app.log.1"; "app.log"].
Proof.
  exact (@C1_scan_groups_rolled_family ScanSpec.no_order [ScanSample.walked]
           ScanSample.walked ScanSample.walked ScanSample.walked
           ScanSample.current ScanSample.rolled1 ScanSample.rolled2
           (ScanSample.stat_of 300 1700000003000)
           (ScanSample.stat_of 200 1700000002000)
           (ScanSample.stat_of 100 1700000001000)
           eq_refl eq_refl eq_refl eq_refl eq_refl eq_refl
           (perm_swap _ _ _)).
Defined.

(** ** Timestamps *)

Module TimestampFacts.
Import LogViewer.

Section Loop.
Variable Date_parse : string -> option Z.
Variable line : string.

Lemma try_patterns_none (ps : list Regex.regex) :
  try_patterns Date_parse ps line = None
  <-> Forall (fun q => candidate Date_parse line q = None) ps.
Proof.
  induction ps as [|p ps IH]; simpl.
  - split; [constructor | reflexivity].
  - destruct (candidate Date_parse line p) eqn:E.
    + split; [discriminate|]. intros H. inversion H; congruence.
    + rewrite IH. split; intros H; [now constructor | now inversion H].
Qed.

Lemma try_patterns_some (ps : list Regex.regex) (date : Z) :
  try_patterns Date_parse ps line = Some date
  <-> exists skipped p rest,
        ps = skipped ++ p :: rest
        /\ Forall (fun q => candidate Date_parse line q = None) skipped
        /\ candidate Date_parse line p = Some date.
Proof.
  induction ps as [|p ps IH]; simpl.
  - split; [discriminate|]. intros (sk & q & rest & E & _). now destruct sk.
  - destruct (candidate Date_parse line p) eqn:E.
    + split.
      * intros H. exists [], p, ps. repeat split; [constructor | congruence].
      * intros (sk & q & rest & Eq & Hsk & Hq).
        destruct sk as [|x sk]; simpl in Eq; injection Eq as -> ->.
        -- congruence.
        -- inversion Hsk; congruence.
    + rewrite IH. split.
      * intros (sk & q & rest & -> & Hsk & Hq).
        exists (p :: sk), q, rest. repeat split; [now constructor | exact Hq].
      * intros (sk & q & rest & Eq & Hsk & Hq).
        destruct sk as [|x sk]; simpl in Eq; injection Eq as -> ->.
        -- congruence.
        -- exists sk, q, rest. inversion Hsk. now repeat split.
Qed.
End Loop.

End TimestampFacts.

(** C5, as stated, fails: in the line of [two_stamps] the first generic
    pattern matches the text with month 13, which is no date; the loop
    goes on, the month/day/year pattern matches the second text, and the
    line gets that timestamp. *)
Lemma C5_first_structural_match_counterexample :
  let line := TimestampSpec.two_stamps in
  let Date_parse := TimestampSpec.sample_Date in
  option_map Regex.whole (Regex.exec TimestampSpec.ISO_PATTERN line)
  = Some "2024-13-45T10:30:00"
  /\ Date_parse "2024-13-45T10:30:00" = None
  /\ LogViewer.extractTimestamp Date_parse TimestampSpec.sample_Date_local line
     = Date_parse "01/15/2024 10:30:00"
  /\ LogViewer.extractTimestamp Date_parse TimestampSpec.sample_Date_local line
     <> None.
Proof. vm_compute. repeat split. discriminate. Qed.

(** C5, amended. The generic patterns are tried in their fixed order and
    the first one whose matched text is a valid date gives the timestamp;
    a pattern that does not match, or that matches a text that is no
    date, is passed over and the later ones are still tried; the
    timestamp is absent only when every pattern is passed over. *)
Theorem C5_first_parsed_match_wins
  (Date_parse : string -> option Z)
  (Date_local : Z -> Z -> Z -> Z -> Z -> Z -> Z -> option Z)
  (line : string) :
  let passed_over q :=
    Regex.exec q line = None
    \/ exists m, Regex.exec q line = Some m
         /\ Date_parse (LogViewer.strip_bracket (LogViewer.first_group_or_whole m)) = None in
  let gives p date :=
    exists m, Regex.exec p line = Some m
      /\ Date_parse (LogViewer.strip_bracket (LogViewer.first_group_or_whole m)) = Some date in
  let generic := LogViewer.try_patterns Date_parse LogViewer.GENERIC_PATTERNS line in
  (forall date, generic = Some date
     <-> exists skipped p rest,
           LogViewer.GENERIC_PATTERNS = skipped ++ p :: rest
           /\ Forall passed_over skipped /\ gives p date)
  /\ (generic = None <-> Forall passed_over LogViewer.GENERIC_PATTERNS)
  /\ LogViewer.extractTimestamp Date_parse Date_local line
     = match LogViewer.json_timestamp Date_parse line with
       | Some date => Some date
       | None =>
           match LogViewer.ws_timestamp Date_local line with
           | Some date => Some date
           | None => generic
           end
       end.
Proof.
  intros passed_over gives generic.
  assert (Hnone : forall q, LogViewer.candidate Date_parse line q = None <-> passed_over q).
  { intros q. unfold LogViewer.candidate, passed_over.
    destruct (Regex.exec q line) as [m|].
    - split.
      + intros H. right. now exists m.
      + intros [H|(m' & E & H)]; [discriminate|]. now injection E as ->.
    - split; [now left | reflexivity]. }
  assert (Hsome : forall p date,
            LogViewer.candidate Date_parse line p = Some date <-> gives p date).
  { intros p date. unfold LogViewer.candidate, gives.
    destruct (Regex.exec p line) as [m|].
    - split.
      + intros H. now exists m.
      + intros (m' & E & H). now injection E as ->.
    - split; [discriminate|]. intros (m' & E & _). discriminate. }
  assert (Hall : forall l, Forall (fun q => LogViewer.candidate Date_parse line q = None) l
                           <-> Forall passed_over l).
  { intros l. split; intros H; eapply Forall_impl; try exact H;
      intros q Hq; now apply Hnone. }
  split; [|split; [|reflexivity]].
  - intros date. unfold generic. rewrite TimestampFacts.try_patterns_some.
    split; intros (sk & p & rest & E & Hsk & Hp); exists sk, p, rest;
      (split; [exact E|split; [now apply Hall | now apply Hsome]]).
  - unfold generic. rewrite TimestampFacts.try_patterns_none. apply Hall.
Qed.

(** ** Parsing an escaped text *)

Module ParseFacts.
Import Regex SearchSpec.

Lemma escape_char_spec (c : ascii) :
  escape_char c = backslashed_char c.
Proof.
  unfold escape_char, backslashed_char.
  destruct c as [[] [] [] [] [] [] [] []]; vm_compute; reflexivity.
Qed.

Lemma escapeRegex_spec (s : string) : escapeRegex s = backslashed s.
Proof.
  unfold escapeRegex, backslashed. f_equal.
  induction (list_ascii_of_string s) as [|c cs IH]; [reflexivity|].
  cbn [flat_map]. now rewrite escape_char_spec, IH.
Qed.

(** What a character that is no syntax character is not. *)
Lemma plain_char (c : ascii) :
  Chars.is_syntax_char c = false ->
  one_of c "|)" = false /\ one_of c "*+?{" = false.
Proof.
  unfold Chars.is_syntax_char, Chars.syntax_chars, one_of.
  cbn [list_ascii_of_string existsb].
  intros H. repeat (apply orb_false_elim in H; destruct H as [? H]).
  split; repeat (apply orb_false_intro; try assumption; try reflexivity).
Qed.

Lemma parse_quant_plain (atom : re) (s : list ascii) :
  plain_head s = true -> parse_quant atom s = POk (atom, s).
Proof.
  destruct s as [|c s]; [reflexivity|]. cbn [plain_head]. intros H.
  apply negb_true_iff in H. unfold one_of in H.
  cbn [list_ascii_of_string existsb] in H.
  repeat (apply orb_false_elim in H; destruct H as [? H]).
  unfold parse_quant, is_chr.
  repeat match goal with E : Ascii.eqb c _ = false |- _ => rewrite E; clear E end.
  reflexivity.
Qed.

Lemma starts_quantifier_plain (s : list ascii) :
  plain_head s = true -> starts_quantifier s = false.
Proof.
  destruct s as [|c s]; [reflexivity|]. cbn [plain_head]. intros H.
  apply negb_true_iff in H. unfold one_of in H.
  cbn [list_ascii_of_string existsb] in H.
  repeat (apply orb_false_elim in H; destruct H as [? H]).
  unfold starts_quantifier, one_of, is_chr. cbn [list_ascii_of_string existsb].
  repeat match goal with E : Ascii.eqb c _ = false |- _ => rewrite E; clear E end.
  reflexivity.
Qed.

Lemma plain_head_backslashed (cs rest : list ascii) :
  plain_head rest = true ->
  plain_head (flat_map backslashed_char cs ++ rest) = true.
Proof.
  intros H. destruct cs as [|c cs]; [exact H|].
  cbn [flat_map]. unfold backslashed_char.
  destruct (Chars.is_syntax_char c) eqn:E; cbn [app plain_head].
  - reflexivity.
  - now rewrite (proj2 (@plain_char c E)).
Qed.

(** One turn of each parsing function. *)
Lemma parse_alt_cons (f : nat) (c : ascii) (s : list ascii) (n : nat) :
  parse_alt (S f) (c :: s) n
  = if one_of c "|)" then POk (Empty, c :: s, n)
    else pbind (parse_term f c s n)
           (fun x => match x with
                     | (t, s1, n1) =>
                         pbind (parse_alt f s1 n1)
                           (fun y => match y with
                                     | (r, s2, n2) => POk (Seq t r, s2, n2)
                                     end)
                     end).
Proof. reflexivity. Qed.

Lemma parse_term_plain (f : nat) (c : ascii) (s : list ascii) (n : nat) :
  Chars.is_syntax_char c = false -> plain_head s = true ->
  parse_term (S f) c s n = POk (Chr c, s, n).
Proof.
  intros Hc Hs. cbn [parse_term]. rewrite Hc.
  now rewrite (@parse_quant_plain _ s Hs).
Qed.

Lemma parse_term_escaped (f : nat) (c : ascii) (s : list ascii) (n : nat) :
  Chars.is_syntax_char c = true -> plain_head s = true ->
  parse_term (S f) "\"%char (c :: s) n = POk (Chr c, s, n).
Proof.
  intros Hc Hs. cbn [parse_term].
  change (Chars.is_syntax_char "\"%char) with true.
  change (is_chr "\"%char "^") with false.
  change (is_chr "\"%char "$") with false.
  change (is_chr "\"%char "\") with true.
  cbv iota. unfold parse_escape. rewrite Hc. cbn [orb].
  now rewrite (@parse_quant_plain _ s Hs).
Qed.

(** The characters of an escaped text are read one by one as pattern
    characters; what follows is parsed with the fuel left. *)
Lemma parse_alt_backslashed (cs rest : list ascii) (f n : nat) :
  plain_head rest = true ->
  parse_alt (List.length cs + S (S f)) (flat_map backslashed_char cs ++ rest) n
  = pbind (parse_alt (S (S f)) rest n)
      (fun y => match y with
                | (r, s2, n2) => POk (chain cs r, s2, n2)
                end).
Proof.
  intros Hrest. induction cs as [|c cs IH].
  - cbn [List.length flat_map app plus chain fold_right].
    destruct (parse_alt (S (S f)) rest n) as [[[r s2] n2]| |]; reflexivity.
  - cbn [List.length flat_map plus]. rewrite <- app_assoc.
    assert (Htail : plain_head (flat_map backslashed_char cs ++ rest) = true)
      by now apply plain_head_backslashed.
    unfold backslashed_char at 1.
    destruct (Chars.is_syntax_char c) eqn:E; cbn [app].
    + rewrite parse_alt_cons. change (one_of "\"%char "|)") with false. cbv iota.
      replace (List.length cs + S (S f)) with (S (List.length cs + S f)) at 1 by lia.
      rewrite (@parse_term_escaped _ c _ n E Htail). cbn [pbind].
      rewrite IH.
      destruct (parse_alt (S (S f)) rest n) as [[[r s2] n2]| |]; reflexivity.
    + rewrite parse_alt_cons. rewrite (proj1 (@plain_char c E)).
      replace (List.length cs + S (S f)) with (S (List.length cs + S f)) at 1 by lia.
      rewrite (@parse_term_plain _ c _ n E Htail). cbn [pbind].
      rewrite IH.
      destruct (parse_alt (S (S f)) rest n) as [[[r s2] n2]| |]; reflexivity.
Qed.

Lemma backslashed_length (cs : list ascii) :
  List.length cs <= List.length (flat_map backslashed_char cs).
Proof.
  induction cs as [|c cs IH]; [reflexivity|].
  cbn [flat_map]. rewrite length_app.
  assert (1 <= List.length (backslashed_char c))
    by (unfold backslashed_char; destruct (Chars.is_syntax_char c); simpl; lia).
  cbn [List.length]. lia.
Qed.

Lemma parse_pattern_backslashed (cs : list ascii) :
  parse_pattern (flat_map backslashed_char cs) = POk (chain cs Empty).
Proof.
  unfold parse_pattern.
  pose proof (backslashed_length cs) as Hlen.
  set (p := flat_map backslashed_char cs) in *.
  replace (3 * List.length p + 3)
    with (S (List.length cs + S (S (3 * List.length p - List.length cs)))) by lia.
  cbn [parse_disj].
  rewrite <- (app_nil_r p) at 2. subst p.
  rewrite parse_alt_backslashed by reflexivity.
  reflexivity.
Qed.

(** An escaped text compiles, with [i], to the matcher of the text taken
    literally. *)
Lemma RegExp_new_backslashed (s : string) :
  RegExp_new (backslashed s) "i" = POk (literal_matcher s).
Proof.
  unfold RegExp_new, backslashed.
  rewrite list_ascii_of_string_of_list_ascii.
  rewrite parse_pattern_backslashed. reflexivity.
Qed.

End ParseFacts.

(** Every regular-expression literal of the two source files is in the
    modelled part of the grammar: the parser accepts its text. *)
Lemma source_literals_compile :
  Regex.RegExp_new "[.*+?^${}()|[\]\\]" "g" = Regex.POk ESCAPE_REGEX
  /\ Regex.RegExp_new "\.(log|txt|out|err)(\.[0-9]+)?$" "i" = Regex.POk Scan.LOG_FILE_REGEX
  /\ Regex.RegExp_new "\.log\.[a-z]+$" "i" = Regex.POk Scan.OWNER_REGEX
  /\ Regex.RegExp_new "^(.+)\.(log|txt|out|err)\.([0-9]+)$" "i" = Regex.POk Scan.ROLLED_REGEX
  /\ Regex.RegExp_new "^(.+)\.(log|txt|out|err)$" "i" = Regex.POk Scan.BASE_REGEX
  /\ Regex.RegExp_new "\.([0-9]+)$" EmptyString = Regex.POk Scan.ROLL_SUFFIX_REGEX
  /\ Regex.RegExp_new "\.(log|txt|out|err)(\.[0-9]+)?$|\.log\.[a-z]+$" "i"
     = Regex.POk Browse.LOG_FILE_REGEX
  /\ Regex.RegExp_new "^(.+\.log)\.([0-9]+)$" "i" = Regex.POk Browse.ROLLED_REGEX
  /\ Regex.RegExp_new "^\/(.+)\/([gimsuy]*)$" EmptyString
     = Regex.POk LogViewer.DELIMITED_REGEX
  /\ Forall (fun r => r <> Regex.never)
            (LogViewer.JSON_TIMESTAMP_REGEX :: LogViewer.TIMESTAMP_PATTERNS).
Proof.
  repeat split; try reflexivity.
  repeat constructor; intros H; vm_compute in H; discriminate H.
Qed.

(** ** Matching a literal text *)

Module MatchFacts.
Import Regex SearchSpec.

Lemma mt_chain (fl : flags) (cs : list ascii) (r : re) (st : mstate)
  (k : mstate -> option mstate) :
  mt fl (chain cs r) st k
  = match read_chain (f_ignoreCase fl) cs st with
    | Some st' => mt fl r st' k
    | None => None
    end.
Proof.
  revert st. induction cs as [|p cs IH]; intros st; [reflexivity|].
  cbn [chain fold_right mt read_chain].
  destruct (after st) as [|c rest]; [reflexivity|].
  destruct (chr_eq (f_ignoreCase fl) p c); [|reflexivity].
  apply IH.
Qed.

Lemma chr_eq_ci (p c : ascii) :
  chr_eq true p c = true <-> Chars.to_upper p = Chars.to_upper c.
Proof. unfold chr_eq. apply Ascii.eqb_eq. Qed.

Lemma read_chain_reads (cs : list ascii) (st : mstate) :
  read_chain true cs st <> None
  <-> exists mid rest, after st = mid ++ rest /\ same_letters cs mid.
Proof.
  revert st. induction cs as [|p cs IH]; intros st; cbn [read_chain].
  - split; [|discriminate]. intros _. exists [], (after st). split; [reflexivity|constructor].
  - destruct (after st) as [|c rest] eqn:E.
    + split; [congruence|]. intros (mid & r & Hs & Hl).
      inversion Hl; subst. discriminate.
    + destruct (chr_eq true p c) eqn:Hc.
      * rewrite IH. cbn [step1 after]. apply chr_eq_ci in Hc. split.
        -- intros (mid & r & -> & Hl). exists (c :: mid), r.
           split; [reflexivity|now constructor].
        -- intros (mid & r & Hs & Hl). inversion Hl; subst.
           injection Hs as -> ->. eauto.
      * split; [congruence|]. intros (mid & r & Hs & Hl).
        inversion Hl; subst. injection Hs as -> ->.
        apply chr_eq_ci in H1. congruence.
Qed.

(** The leftmost search fails exactly when no start position matches. *)
Lemma search_none (fl : flags) (r : re) (s pre : list ascii) :
  search fl r pre s = None
  <-> forall s1 s2, s = s1 ++ s2 -> match_here fl r (start_at pre s1 s2) = None.
Proof.
  revert pre. induction s as [|c s IH]; intros pre; cbn [search].
  - destruct (match_here fl r {| before := pre; after := []; caps := [] |}) eqn:E.
    + split; [discriminate|]. intros H. specialize (H [] [] eq_refl).
      unfold start_at in H. cbn in H. congruence.
    + split; [|reflexivity]. intros _ s1 s2 Hs.
      symmetry in Hs. apply app_eq_nil in Hs as [-> ->]. exact E.
  - destruct (match_here fl r {| before := pre; after := c :: s; caps := [] |}) eqn:E.
    + split; [discriminate|]. intros H. specialize (H [] (c :: s) eq_refl).
      unfold start_at in H. cbn in H. congruence.
    + rewrite IH. split.
      * intros H s1 s2 Hs. destruct s1 as [|x s1].
        -- cbn in Hs. subst s2. exact E.
        -- cbn in Hs. injection Hs as <- ->.
           specialize (H s1 s2 eq_refl). unfold start_at in *.
           cbn [rev]. now rewrite <- app_assoc.
      * intros H s1 s2 ->. specialize (H (c :: s1) s2 eq_refl).
        unfold start_at in *. cbn [rev] in H. now rewrite <- app_assoc in H.
Qed.

(** A successful search starts at a split of the input and matches
    there. *)
Lemma search_some (fl : flags) (r : re) (s pre : list ascii) (st st' : mstate) :
  search fl r pre s = Some (st, st') ->
  exists s1 s2, s = s1 ++ s2 /\ st = start_at pre s1 s2
                /\ match_here fl r st = Some st'.
Proof.
  revert pre. induction s as [|c s IH]; intros pre; cbn [search].
  - destruct (match_here fl r {| before := pre; after := []; caps := [] |}) eqn:E;
      [|discriminate].
    intros H. injection H as <- <-. exists [], []. repeat split. exact E.
  - destruct (match_here fl r {| before := pre; after := c :: s; caps := [] |}) eqn:E.
    + intros H. injection H as <- <-. exists [], (c :: s). repeat split. exact E.
    + intros H. destruct (IH _ H) as (s1 & s2 & -> & -> & Hm).
      exists (c :: s1), s2. split; [reflexivity|]. split; [|exact Hm].
      unfold start_at. cbn [rev]. now rewrite <- app_assoc.
Qed.

Lemma test_true (r : regex) (s : string) :
  test r s = true
  <-> search (rflags r) (source r) [] (list_ascii_of_string s) <> None.
Proof.
  unfold test, exec.
  destruct (search (rflags r) (source r) [] (list_ascii_of_string s)) as [[st st']|].
  - split; [discriminate|reflexivity].
  - split; [discriminate|congruence].
Qed.

Lemma match_here_literal (cs : list ascii) (st : mstate) :
  match_here IGNORE_CASE (chain cs Empty) st = read_chain true cs st.
Proof.
  unfold match_here. rewrite mt_chain. cbn [f_ignoreCase IGNORE_CASE mt].
  now destruct (read_chain true cs st).
Qed.

(** The matcher of a literal text accepts the texts that hold it. *)
Lemma literal_matcher_holds (s text : string) :
  test (literal_matcher s) text = true <-> holds s text.
Proof.
  rewrite test_true. cbn [literal_matcher rflags source]. unfold holds, literal_re.
  set (cs := list_ascii_of_string s). set (t := list_ascii_of_string text).
  split.
  - destruct (search IGNORE_CASE (chain cs Empty) [] t) as [[st st']|] eqn:E;
      [intros _|congruence].
    destruct (search_some _ _ _ _ E) as (s1 & s2 & Ht & -> & Hm).
    rewrite match_here_literal in Hm.
    assert (Hr : read_chain true cs (start_at [] s1 s2) <> None) by congruence.
    apply read_chain_reads in Hr as (mid & rest & Hs & Hl).
    exists s1, mid, rest. split; [|exact Hl].
    cbn [start_at after] in Hs. now rewrite Ht, Hs.
  - intros (pre & mid & post & Ht & Hl) H.
    apply (proj1 (search_none _ _ _ _)) with (s1 := pre) (s2 := mid ++ post) in H;
      [|exact Ht].
    rewrite match_here_literal in H. revert H.
    apply read_chain_reads. exists mid, post. split; [reflexivity|exact Hl].
Qed.

End MatchFacts.

(** C8. [buildSearchRegex] answers null for the empty query; for a query
    of the delimited form it compiles the text between the bars with the
    flags given, or with [i] when none is given, and answers null when the
    host rejects the pattern, as for the query of a lone opening bracket
    between bars; for any other query it puts a backslash before every
    syntax character and compiles the result with [i], which gives the
    matcher of the query taken literally, letter case apart. *)
Theorem C8_buildSearchRegex :
  LogViewer.buildSearchRegex EmptyString = LogViewer.Null
  /\ (forall search m,
        Regex.exec LogViewer.DELIMITED_REGEX search = Some m ->
        LogViewer.buildSearchRegex search
        = LogViewer.try_RegExp (group_text 1 m)
            (if String.eqb (group_text 2 m) EmptyString then "i" else group_text 2 m))
  /\ (forall pattern flags,
        Regex.RegExp_new pattern flags = Regex.PSyntaxError ->
        LogViewer.try_RegExp pattern flags = LogViewer.Null)
  /\ (option_map (group_text 1) (Regex.exec LogViewer.DELIMITED_REGEX "/[/") = Some "["
      /\ Regex.RegExp_new "[" "i" = Regex.PSyntaxError
      /\ LogViewer.buildSearchRegex "/[/" = LogViewer.Null)
  /\ (forall search,
        search <> EmptyString ->
        Regex.exec LogViewer.DELIMITED_REGEX search = None ->
        escapeRegex search = SearchSpec.backslashed search
        /\ LogViewer.buildSearchRegex search
           = LogViewer.Matcher (SearchSpec.literal_matcher search)
        /\ forall text,
             LogViewer.matches (LogViewer.buildSearchRegex search) text = true
             <-> SearchSpec.holds search text)
  /\ LogViewer.matches (LogViewer.buildSearchRegex "err") "Error occurred" = true
  /\ (Regex.rflags (Regex.literal "^ERR" "i") = SearchSpec.IGNORE_CASE
      /\ LogViewer.buildSearchRegex "/^ERR/" = LogViewer.Matcher (Regex.literal "^ERR" "i")
      /\ LogViewer.matches (LogViewer.buildSearchRegex "/^ERR/") "Error occurred" = true
      /\ LogViewer.matches (LogViewer.buildSearchRegex "/^ERR/") "an Error occurred" = false).
Proof.
  split; [reflexivity|].
  split.
  { intros search m Hm. unfold LogViewer.buildSearchRegex.
    destruct (String.eqb_spec search EmptyString) as [->|_]; [discriminate Hm|].
    now rewrite Hm. }
  split.
  { intros pattern flags H. unfold LogViewer.try_RegExp. now rewrite H. }
  split; [repeat split; vm_compute; reflexivity|].
  split.
  { intros search Hne Hm.
    assert (B : LogViewer.buildSearchRegex search
                = LogViewer.Matcher (SearchSpec.literal_matcher search)).
    { unfold LogViewer.buildSearchRegex.
      destruct (String.eqb_spec search EmptyString) as [E|_]; [contradiction|].
      rewrite Hm. unfold LogViewer.try_RegExp.
      now rewrite ParseFacts.escapeRegex_spec, ParseFacts.RegExp_new_backslashed. }
    split; [apply ParseFacts.escapeRegex_spec|]. split; [exact B|].
    intros text. rewrite B. cbn [LogViewer.matches].
    apply MatchFacts.literal_matcher_holds. }
  split; [vm_compute; reflexivity|].
  repeat split; vm_compute; reflexivity.
Qed.

(** ** Arrays and dictionaries of the host *)

Module JSFacts.
Import JS.

Section SortFacts.
Variable A : Type.
Variable cmp : A -> A -> Z.

Lemma insert_In (x y : A) (l : list A) :
  In y (insert cmp x l) <-> y = x \/ In y l.
Proof.
  induction l as [|z l IH]; cbn [insert].
  - cbn. intuition.
  - destruct (0 <? cmp x z)%Z; cbn [In]; [rewrite IH|]; intuition.
Qed.

Lemma sort_In (y : A) (l : list A) : In y (sort cmp l) <-> In y l.
Proof.
  unfold sort. induction l as [|x l IH]; cbn [fold_right]; [reflexivity|].
  rewrite insert_In, IH. cbn [In]. intuition.
Qed.
End SortFacts.

Section ObjFacts.
Variable V : Type.

Lemma own_In (k : string) (v : V) (o : obj V) :
  own k o = Some v -> In (k, v) o.
Proof.
  induction o as [|[k' v'] o IH]; cbn [own]; [discriminate|].
  destruct (String.eqb_spec k k') as [->|Hne].
  - intros H. injection H as ->. now left.
  - intros H. right. now apply IH.
Qed.

Lemma own_set_same (k : string) (v : V) (o : obj V) :
  own k (set k v o) = Some v.
Proof.
  induction o as [|[k' v'] o IH]; cbn [set own].
  - now rewrite String.eqb_refl.
  - destruct (String.eqb_spec k k') as [->|Hne]; cbn [own].
    + now rewrite String.eqb_refl.
    + apply String.eqb_neq in Hne. now rewrite Hne.
Qed.

Lemma own_set_other (k k0 : string) (v : V) (o : obj V) :
  k0 <> k -> own k0 (set k v o) = own k0 o.
Proof.
  intros Hne. induction o as [|[k' v'] o IH]; cbn [set own].
  - apply String.eqb_neq in Hne. now rewrite Hne.
  - destruct (String.eqb_spec k k') as [->|Hk]; cbn [own].
    + apply String.eqb_neq in Hne. now rewrite Hne.
    + now rewrite IH.
Qed.

Lemma index_entries_In (n : N) (kv : string * V) (o : obj V) :
  In (n, kv) (index_entries o) <-> In kv o /\ array_index (fst kv) = Some n.
Proof.
  induction o as [|[k v] o IH]; cbn [index_entries In]; [tauto|].
  destruct (array_index k) as [m|] eqn:E; cbn [In]; rewrite IH; split.
  - intros [H|H]; [injection H as <- <-; auto | tauto].
  - intros [[<-|H] Hn]; [left; cbn in Hn; congruence | tauto].
  - tauto.
  - intros [[<-|H] Hn]; [cbn in Hn; congruence | tauto].
Qed.

(** [Object.entries] lists the own properties, each once, in another
    order. *)
Lemma entries_In (kv : string * V) (o : obj V) :
  In kv (entries o) <-> In kv o.
Proof.
  unfold entries. rewrite in_app_iff, in_map_iff, filter_In. split.
  - intros [([n kv'] & <- & H)|[H _]]; [|exact H].
    apply sort_In, index_entries_In in H. tauto.
  - intros H. destruct (array_index (fst kv)) as [n|] eqn:E.
    + left. exists (n, kv). split; [reflexivity|].
      apply sort_In, index_entries_In. tauto.
    + right. split; [exact H|reflexivity].
Qed.

(** A key that holds a dot is not a member of [Object.prototype]. *)
Lemma dotted_not_inherited (k : string) (o : obj V) :
  In "."%char (list_ascii_of_string k) -> get k o <> Inherited.
Proof.
  intros Hdot. unfold get. destruct (own k o); [discriminate|].
  destruct (existsb (String.eqb k) proto_keys) eqn:E; [|discriminate].
  exfalso. apply existsb_exists in E as (key & Hkey & Heq).
  apply String.eqb_eq in Heq. subst key.
  assert (F : forallb (fun key => negb (existsb (Ascii.eqb ".")
                                          (list_ascii_of_string key)))
                      proto_keys = true) by reflexivity.
  rewrite forallb_forall in F. specialize (F k Hkey).
  apply negb_true_iff in F.
  assert (T : existsb (Ascii.eqb ".") (list_ascii_of_string k) = true)
    by (apply existsb_exists; exists "."%char; split; [exact Hdot|reflexivity]).
  congruence.
Qed.
End ObjFacts.

End JSFacts.

(** ** The scan: sidecar files *)

Module SidecarFacts.
Import Scan ScanSpec.

Lemma collect_found_In (fo : folder) (f : found) (x : logfile) :
  In x (collect_found fo f) ->
  name x = fd_basename f /\ Regex.test OWNER_REGEX (name x) = false.
Proof.
  unfold collect_found.
  destruct (Regex.test LOG_FILE_REGEX (fd_basename f)); cbn [negb]; [|intros []].
  destruct (Regex.test OWNER_REGEX (fd_basename f)) eqn:E; [intros []|].
  destruct (fd_stat f); [|intros []].
  intros [<-|[]]. cbn [name]. auto.
Qed.

Lemma collect_In (folders : list folder) (x : logfile) :
  In x (collect folders) -> Regex.test OWNER_REGEX (name x) = false.
Proof.
  unfold collect. rewrite in_flat_map. intros (fo & _ & H).
  unfold collect_folder in H. destruct (present fo); cbn [negb] in H; [|destruct H].
  apply in_flat_map in H as (f & _ & H). now apply collect_found_In in H.
Qed.

Lemma set_In (k : string) (v : bucket) (o : JS.obj bucket) (kv : string * bucket) :
  In kv (JS.set k v o) -> kv = (k, v) \/ In kv o.
Proof.
  induction o as [|[k' v'] o IH]; cbn [JS.set In]; [intros [<-|[]]; auto|].
  destruct (String.eqb_spec k k') as [->|Hne]; cbn [In].
  - intros [<-|H]; auto.
  - intros [<-|H]; auto. destruct (IH H); auto.
Qed.

Lemma add_file_filled (seen : list logfile) (o o' : JS.obj bucket) (file : logfile) :
  filled_from seen o ->
  add_file (Some o) file = Some o' ->
  filled_from (seen ++ [file]) o'.
Proof.
  intros Hf. cbn [add_file].
  destruct (JS.get (groupKey (name file)) o) as [b| |] eqn:G; [| discriminate |];
    intros H; injection H as <-; intros k b' x Hin Hx;
    apply set_In in Hin as [E|Hin]; rewrite in_app_iff.
  - injection E as -> ->. cbn [b_files] in Hx. apply in_app_iff in Hx as [Hx|[<-|[]]].
    + left. unfold JS.get in G.
      destruct (JS.own (groupKey (name file)) o) as [b0|] eqn:O.
      * injection G as ->. eapply Hf; [eapply JSFacts.own_In, O|exact Hx].
      * destruct (existsb _ _); discriminate.
    + right. now left.
  - left. eapply Hf; eassumption.
  - injection E as -> ->. cbn [b_files] in Hx. destruct Hx as [<-|[]]. right. now left.
  - left. eapply Hf; eassumption.
Qed.

Lemma fold_add_file_filled (files seen : list logfile) (o o' : JS.obj bucket) :
  filled_from seen o ->
  fold_left add_file files (Some o) = Some o' ->
  filled_from (seen ++ files) o'.
Proof.
  revert seen o. induction files as [|file files IH]; intros seen o Hf; cbn [fold_left].
  - intros H. injection H as <-. now rewrite app_nil_r.
  - destruct (add_file (Some o) file) as [o1|] eqn:A.
    + intros H. replace (seen ++ file :: files) with ((seen ++ [file]) ++ files)
        by now rewrite <- app_assoc.
      eapply IH; [|exact H]. eapply add_file_filled; eassumption.
    + intros H. exfalso. clear -H. induction files as [|x xs IHx]; [discriminate|].
      cbn [fold_left add_file] in H. auto.
Qed.

(** Every file of every group of the answer is one of the collected
    files. *)
Lemma groups_from_collected
  (cmp : string -> string -> Z) (folders : list folder) (r : result)
  (g : loggroup) (x : logfile) :
  scan cmp (Some folders) = Ok r ->
  In g (groups r) -> In x (files g) -> In x (collect folders).
Proof.
  unfold scan. destruct folders as [|fo folders]; [discriminate|].
  set (fs := fo :: folders). unfold respond.
  destruct (fold_left add_file (collect fs) (Some [])) as [o|] eqn:F; [|discriminate].
  intros H. injection H as <-. cbn [groups].
  intros Hg Hx. rewrite JSFacts.sort_In, in_map_iff in Hg.
  destruct Hg as ([k b] & <- & Hkb).
  rewrite JSFacts.entries_In in Hkb.
  cbn [make_group files snd] in Hx. rewrite JSFacts.sort_In in Hx.
  assert (Hfilled : filled_from ([] ++ collect fs) o).
  { eapply fold_add_file_filled; [|exact F]. intros ? ? ? []. }
  exact (Hfilled k b x Hkb Hx).
Qed.

End SidecarFacts.

(** ** The matcher finds only matches of the pattern *)

Module SoundFacts.
Import Regex MatchSpec.

Section Sound.
Variable fl : flags.

Lemma rep_loop_sound
  (mt_a : mstate -> (mstate -> option mstate) -> option mstate)
  (R : mstate -> mstate -> Prop) (gs : list nat) (greedy : bool)
  (k : mstate -> option mstate) :
  (forall st k' res, mt_a st k' = Some res -> exists st', R st st' /\ k' st' = Some res) ->
  forall fuel mn mx st res,
    rep_loop mt_a gs greedy k fuel mn mx st = Some res ->
    exists n st', count_ok mn mx n /\ turns R gs n st st' /\ k st' = Some res.
Proof.
  intros Ha. induction fuel as [|fuel IH]; intros mn mx st res; cbn [rep_loop];
    [discriminate|].
  destruct (max_is_zero mx) eqn:Z.
  { intros H. exists 0, st. destruct mx as [[|m]|]; try discriminate.
    repeat split; auto. }
  assert (Turn :
    mt_a (clear_caps gs st)
      (fun st' =>
         if Nat.eqb mn 0 && Nat.eqb (List.length (after st')) (List.length (after st))
         then None
         else rep_loop mt_a gs greedy k fuel (pred mn) (option_map pred mx) st')
    = Some res ->
    exists n st', count_ok mn mx n /\ turns R gs n st st' /\ k st' = Some res).
  { intros H. apply Ha in H as (st1 & HR & H).
    destruct (Nat.eqb mn 0 && _); [discriminate|].
    apply IH in H as (n & st' & [Hc Hb] & Ht & Hk).
    exists (S n), st'. split; [|split; [exists st1; auto|exact Hk]].
    destruct mx as [[|m]|]; cbn in *; try discriminate.
    - split; [|lia]. destruct Hc as [Hc|Hc]; [left; lia|right].
      injection Hc as <-. reflexivity.
    - split; [|exact I]. destruct Hc as [Hc|Hc]; [left; lia|discriminate]. }
  assert (Stop : k st = Some res ->
            Nat.ltb 0 mn = false ->
            exists n st', count_ok mn mx n /\ turns R gs n st st' /\ k st' = Some res).
  { intros H Hmn. apply Nat.ltb_ge in Hmn. exists 0, st.
    split; [|split; [reflexivity|exact H]].
    split; [left; lia|]. destruct mx; [lia|exact I]. }
  destruct (Nat.ltb 0 mn) eqn:Hmn; [exact Turn|].
  destruct greedy.
  - destruct (mt_a _ _) as [r'|] eqn:E.
    + intros H. injection H as ->. now apply Turn.
    + intros H. now apply Stop.
  - destruct (k st) as [r'|] eqn:E.
    + intros H. injection H as ->. now apply Stop.
    + exact Turn.
Qed.

(** Soundness: a result of the matcher comes from a match of the pattern
    handed to the continuation. *)
Lemma mt_sound (r : re) :
  forall st k res,
    mt fl r st k = Some res ->
    exists st', sem fl r st st' /\ k st' = Some res.
Proof.
  induction r as [ |p| |neg items|a IHa b IHb|a IHa b IHb|mn mx greedy a IHa
                   |n a IHa|a IHa| | |neg];
    intros st k res; cbn [mt sem].
  - eauto.
  - destruct (after st) as [|c rest] eqn:E; [discriminate|].
    destruct (chr_eq _ p c) eqn:C; [|discriminate].
    intros H. exists (step1 st c rest). split; [|exact H]. exists c, rest. auto.
  - destruct (after st) as [|c rest] eqn:E; [discriminate|].
    destruct (f_dotAll fl || _) eqn:C; [|discriminate].
    intros H. exists (step1 st c rest). split; [|exact H]. exists c, rest. auto.
  - destruct (after st) as [|c rest] eqn:E; [discriminate|].
    destruct (xorb neg _) eqn:C; [|discriminate].
    intros H. exists (step1 st c rest). split; [|exact H]. exists c, rest. auto.
  - intros H. apply IHa in H as (st1 & Ha & H). apply IHb in H as (st' & Hb & H).
    eauto.
  - destruct (mt fl a st k) as [r'|] eqn:E.
    + intros H. injection H as ->. apply IHa in E as (st' & Ha & H). eauto.
    + intros H. apply IHb in H as (st' & Hb & H). eauto.
  - intros H.
    apply (@rep_loop_sound (mt fl a) (sem fl a) (groups_of a) greedy k IHa) in H
      as (n & st' & Hc & Ht & Hk).
    eauto.
  - intros H. apply IHa in H as (st1 & Ha & H). eauto.
  - apply IHa.
  - destruct (at_line_start fl st) eqn:E; [|discriminate]. eauto.
  - destruct (at_line_end fl st) eqn:E; [|discriminate]. eauto.
  - destruct (xorb neg _) eqn:E; [|discriminate]. eauto.
Qed.

Lemma reads_refl (st : mstate) : reads [] st st.
Proof. split; reflexivity. Qed.

Lemma reads_trans (w1 w2 : list ascii) (st st1 st2 : mstate) :
  reads w1 st st1 -> reads w2 st1 st2 -> reads (w1 ++ w2) st st2.
Proof.
  intros [A1 B1] [A2 B2]. split.
  - now rewrite A1, A2, app_assoc.
  - now rewrite B2, B1, rev_app_distr, app_assoc.
Qed.

Lemma reads_one_reads (ok : ascii -> bool) (st st' : mstate) :
  reads_one ok st st' -> exists c, ok c = true /\ reads [c] st st'.
Proof.
  intros (c & rest & E & Hc & ->). exists c. split; [exact Hc|].
  split; cbn [step1 after before]; [exact E|reflexivity].
Qed.

Lemma reads_clear (gs : list nat) (w : list ascii) (st st' : mstate) :
  reads w (clear_caps gs st) st' -> reads w st st'.
Proof. intros [A B]. split; [exact A|exact B]. Qed.

Lemma reads_set_cap (n : nat) (s : string) (w : list ascii) (st st' : mstate) :
  reads w st st' -> reads w st (set_cap n s st').
Proof. intros [A B]. split; [exact A|exact B]. Qed.

(** A match reads a run of the input. *)
Lemma sem_reads (r : re) :
  forall st st', sem fl r st st' -> exists w, reads w st st'.
Proof.
  induction r as [ |p| |neg items|a IHa b IHb|a IHa b IHb|mn mx greedy a IHa
                   |n a IHa|a IHa| | |neg];
    intros st st'; cbn [sem].
  - intros ->. exists []. apply reads_refl.
  - intros H. apply reads_one_reads in H as (c & _ & H). eauto.
  - intros H. apply reads_one_reads in H as (c & _ & H). eauto.
  - intros H. apply reads_one_reads in H as (c & _ & H). eauto.
  - intros (st1 & Ha & Hb). apply IHa in Ha as (w1 & Ha). apply IHb in Hb as (w2 & Hb).
    exists (w1 ++ w2). eapply reads_trans; eassumption.
  - intros [H|H]; [now apply IHa|now apply IHb].
  - intros (n & _ & Ht). revert st Ht.
    induction n as [|n IHn]; intros st; cbn [turns].
    + intros ->. exists []. apply reads_refl.
    + intros (st1 & Ha & Ht). apply IHa in Ha as (w1 & Ha).
      apply IHn in Ht as (w2 & Ht). exists (w1 ++ w2).
      eapply reads_trans; [eapply reads_clear, Ha|exact Ht].
  - intros (st1 & Ha & ->). apply IHa in Ha as (w & Ha). exists w.
    now apply reads_set_cap.
  - apply IHa.
  - intros [_ ->]. exists []. apply reads_refl.
  - intros [_ ->]. exists []. apply reads_refl.
  - intros [_ ->]. exists []. apply reads_refl.
Qed.

Lemma assoc_filter_other (n : nat) (keep : nat * string -> bool)
  (l : list (nat * string)) :
  (forall s, keep (n, s) = true) ->
  assoc_nat n (filter keep l) = assoc_nat n l.
Proof.
  intros Hk. induction l as [|[m s] l IH]; [reflexivity|]. cbn [filter assoc_nat].
  destruct (Nat.eqb_spec m n) as [->|Hne].
  - rewrite Hk. cbn [assoc_nat]. now rewrite Nat.eqb_refl.
  - destruct (keep (m, s)); cbn [assoc_nat]; [|exact IH].
    apply Nat.eqb_neq in Hne. now rewrite Hne.
Qed.

Lemma keeps_refl (gs : list nat) (st : mstate) : keeps_outside gs st st.
Proof. intros n _. reflexivity. Qed.

Lemma keeps_trans (gs : list nat) (st st1 st2 : mstate) :
  keeps_outside gs st st1 -> keeps_outside gs st1 st2 -> keeps_outside gs st st2.
Proof. intros H1 H2 n Hn. now rewrite (H2 n Hn), (H1 n Hn). Qed.

Lemma keeps_weaken (gs gs' : list nat) (st st' : mstate) :
  incl gs gs' -> keeps_outside gs st st' -> keeps_outside gs' st st'.
Proof. intros Hi H n Hn. apply H. intros Hin. apply Hn, Hi, Hin. Qed.

Lemma keeps_clear (gs : list nat) (st : mstate) :
  keeps_outside gs st (clear_caps gs st).
Proof.
  intros n Hn. cbn [clear_caps caps]. apply assoc_filter_other.
  intros s. cbn [fst]. apply negb_true_iff.
  destruct (existsb (Nat.eqb n) gs) eqn:E; [|reflexivity].
  apply existsb_exists in E as (m & Hm & Heq). apply Nat.eqb_eq in Heq. now subst.
Qed.

Lemma keeps_set_cap (n : nat) (s : string) (gs : list nat) (st : mstate) :
  In n gs -> keeps_outside gs st (set_cap n s st).
Proof.
  intros Hin m Hm. cbn [set_cap caps assoc_nat].
  assert (Hne : n <> m) by (intros ->; contradiction).
  apply Nat.eqb_neq in Hne as Hb. rewrite Hb.
  apply assoc_filter_other. intros s'. cbn [fst]. apply negb_true_iff.
  apply Nat.eqb_neq. congruence.
Qed.

Lemma keeps_reads_one (ok : ascii -> bool) (gs : list nat) (st st' : mstate) :
  reads_one ok st st' -> keeps_outside gs st st'.
Proof. intros (c & rest & _ & _ & ->) n _. reflexivity. Qed.

(** A match leaves the captures of the other groups alone. *)
Lemma sem_keeps (r : re) :
  forall st st', sem fl r st st' -> keeps_outside (groups_of r) st st'.
Proof.
  induction r as [ |p| |neg items|a IHa b IHb|a IHa b IHb|mn mx greedy a IHa
                   |n a IHa|a IHa| | |neg];
    intros st st'; cbn [sem groups_of].
  - intros ->. apply keeps_refl.
  - apply keeps_reads_one.
  - apply keeps_reads_one.
  - apply keeps_reads_one.
  - intros (st1 & Ha & Hb). eapply keeps_trans.
    + eapply keeps_weaken; [|apply IHa, Ha]. apply incl_appl, incl_refl.
    + eapply keeps_weaken; [|apply IHb, Hb]. apply incl_appr, incl_refl.
  - intros [H|H].
    + eapply keeps_weaken; [|apply IHa, H]. apply incl_appl, incl_refl.
    + eapply keeps_weaken; [|apply IHb, H]. apply incl_appr, incl_refl.
  - intros (n & _ & Ht). revert st Ht.
    induction n as [|n IHn]; intros st; cbn [turns].
    + intros ->. apply keeps_refl.
    + intros (st1 & Ha & Ht). eapply keeps_trans; [apply keeps_clear|].
      eapply keeps_trans; [apply IHa, Ha|apply IHn, Ht].
  - intros (st1 & Ha & ->). eapply keeps_trans.
    + eapply keeps_weaken; [|apply IHa, Ha]. apply incl_tl, incl_refl.
    + apply keeps_set_cap. now left.
  - apply IHa.
  - intros [_ ->]. apply keeps_refl.
  - intros [_ ->]. apply keeps_refl.
  - intros [_ ->]. apply keeps_refl.
Qed.
End Sound.

(** The text between two states is the text read. *)
Lemma consumed_reads (w : list ascii) (st st' : mstate) :
  reads w st st' -> consumed st st' = string_of_list_ascii w.
Proof.
  intros [A _]. unfold consumed. rewrite A, length_app.
  replace (List.length w + List.length (after st') - List.length (after st'))
    with (List.length w) by lia.
  now rewrite firstn_app, Nat.sub_diag, firstn_all, firstn_O, app_nil_r.
Qed.

(** What [exec] answers comes from a match of the pattern at some split of
    the input. *)
Lemma exec_sound (r : regex) (s : string) (m : match_result) :
  exec r s = Some m ->
  exists s1 s2 st',
    list_ascii_of_string s = s1 ++ s2
    /\ sem (rflags r) (source r) (SearchSpec.start_at [] s1 s2) st'
    /\ captures m = caps st'.
Proof.
  unfold exec.
  destruct (search (rflags r) (source r) [] (list_ascii_of_string s))
    as [[st st']|] eqn:E; [|discriminate].
  intros H. injection H as <-.
  apply MatchFacts.search_some in E as (s1 & s2 & Hs & -> & Hm).
  apply mt_sound in Hm as (st1 & Hsem & Hk). injection Hk as ->.
  exists s1, s2, st'. auto.
Qed.

End SoundFacts.

(** ** The patterns of the browse route *)

Module BrowseRegexFacts.
Import Regex MatchSpec SearchSpec BrowseSpec.

Lemma chars_append (a b : string) :
  list_ascii_of_string (a ++ b) = list_ascii_of_string a ++ list_ascii_of_string b.
Proof. induction a as [|c a IH]; cbn; [reflexivity|now rewrite IH]. Qed.

Lemma parse_term_caret (f : nat) (s : list ascii) (n : nat) :
  plain_head s = true ->
  parse_term (S f) "^"%char s n = POk (Bol, s, n).
Proof.
  intros Hs. cbn [parse_term].
  change (Chars.is_syntax_char "^"%char) with true.
  change (is_chr "^"%char "^") with true. cbv iota.
  unfold parse_assertion. now rewrite (ParseFacts.starts_quantifier_plain s Hs).
Qed.

(** The pattern built for the rolled siblings of a name always compiles. *)
Lemma sibling_regex_compiles (file_name : string) :
  Browse.sibling_regex file_name = POk (sibling_matcher file_name).
Proof.
  unfold Browse.sibling_regex, RegExp_new. cbn [pbind parse_flags list_ascii_of_string].
  change (is_chr "i"%char "g") with false. change (is_chr "i"%char "i") with true.
  cbv iota. cbn [f_ignoreCase no_flags pbind parse_flags].
  rewrite ParseFacts.escapeRegex_spec. unfold backslashed.
  rewrite !chars_append, list_ascii_of_string_of_list_ascii.
  set (cs := list_ascii_of_string file_name).
  set (tail := list_ascii_of_string "\.[0-9]+$").
  change (list_ascii_of_string "^") with ["^"%char]. cbn [app].
  pose proof (ParseFacts.backslashed_length cs) as Hlen.
  unfold parse_pattern.
  set (p := "^"%char :: flat_map backslashed_char cs ++ tail).
  assert (Hp : List.length p = S (List.length (flat_map backslashed_char cs) + 9)).
  { unfold p. cbn [List.length]. now rewrite length_app. }
  replace (3 * List.length p + 3)
    with (S (S (List.length cs
                + S (S (20 + (3 * List.length (flat_map backslashed_char cs)
                              + 9 - List.length cs)))))) by lia.
  set (f := 3 * List.length (flat_map backslashed_char cs) + 9 - List.length cs).
  cbn [parse_disj]. unfold p. rewrite ParseFacts.parse_alt_cons.
  change (one_of "^"%char "|)") with false. cbv iota.
  assert (Hplain : plain_head (flat_map backslashed_char cs ++ tail) = true)
    by (apply ParseFacts.plain_head_backslashed; reflexivity).
  replace (List.length cs + S (S (20 + f))) with (S (List.length cs + S (20 + f)))
    at 1 by lia.
  rewrite (@parse_term_caret _ _ 0 Hplain). cbn [pbind].
  rewrite ParseFacts.parse_alt_backslashed by reflexivity.
  assert (Htail : parse_alt (S (S (20 + f))) tail 0 = POk (SIBLING_TAIL, [], 0))
    by reflexivity.
  rewrite Htail. reflexivity.
Qed.

Lemma match_here_alt_r (fl : flags) (a b : re) (st : mstate) :
  match_here fl b st <> None -> match_here fl (Alt a b) st <> None.
Proof.
  unfold match_here. cbn [mt]. destruct (mt fl a st _); [discriminate|auto].
Qed.

Lemma search_alt_r (fl : flags) (a b : re) (s pre : list ascii) :
  search fl b pre s <> None -> search fl (Alt a b) pre s <> None.
Proof.
  revert pre. induction s as [|c s IH]; intros pre; cbn [search].
  - destruct (match_here fl b _) eqn:E; [intros _|congruence].
    destruct (match_here fl (Alt a b) _) eqn:F; [discriminate|].
    exfalso. revert F. apply match_here_alt_r. congruence.
  - destruct (match_here fl (Alt a b) _) eqn:F; [discriminate|].
    destruct (match_here fl b _) eqn:E.
    + exfalso. revert F. apply match_here_alt_r. congruence.
    + apply IH.
Qed.

(** The pattern of the browse route accepts what the sidecar pattern
    accepts. *)
Lemma sidecar_is_eligible (file_name : string) :
  test Scan.OWNER_REGEX file_name = true ->
  test Browse.LOG_FILE_REGEX file_name = true.
Proof.
  rewrite !MatchFacts.test_true.
  assert (Shape : exists a,
            source Browse.LOG_FILE_REGEX = Alt a (source Scan.OWNER_REGEX)
            /\ rflags Browse.LOG_FILE_REGEX = rflags Scan.OWNER_REGEX)
    by (eexists; split; reflexivity).
  destruct Shape as (a & -> & ->). apply search_alt_r.
Qed.

(** No member of [Object.prototype] is an eligible name. *)
Lemma eligible_not_inherited (V : Type) (file_name : string) (o : JS.obj V) :
  test Browse.LOG_FILE_REGEX file_name = true ->
  JS.get file_name o <> JS.Inherited.
Proof.
  intros Ht. unfold JS.get. destruct (JS.own file_name o); [discriminate|].
  destruct (existsb (String.eqb file_name) JS.proto_keys) eqn:E; [|discriminate].
  exfalso. apply existsb_exists in E as (key & Hkey & Heq).
  apply String.eqb_eq in Heq. subst key.
  assert (F : forallb (fun key => negb (test Browse.LOG_FILE_REGEX key))
                      JS.proto_keys = true) by (vm_compute; reflexivity).
  rewrite forallb_forall in F. specialize (F _ Hkey). rewrite Ht in F. discriminate.
Qed.

Lemma sem_chain (fl : flags) (cs : list ascii) (r : re) (st st' : mstate) :
  sem fl (chain cs r) st st' ->
  exists mid st1,
    reads mid st st1 /\ Forall2 (fun p c => chr_eq (f_ignoreCase fl) p c = true) cs mid
    /\ sem fl r st1 st'.
Proof.
  revert st. induction cs as [|p cs IH]; intros st; cbn [chain fold_right sem].
  - intros H. exists [], st. split; [apply SoundFacts.reads_refl|]. split; [constructor|exact H].
  - intros (st1 & H1 & H). apply SoundFacts.reads_one_reads in H1 as (c & Hc & Hr).
    apply IH in H as (mid & st2 & Hr2 & Hf & Hs).
    exists (c :: mid), st2. split; [|split; [now constructor|exact Hs]].
    exact (SoundFacts.reads_trans Hr Hr2).
Qed.

Lemma dot_only (c : ascii) : chr_eq true "."%char c = true -> c = "."%char.
Proof.
  destruct c as [[] [] [] [] [] [] [] []]; vm_compute; intros H;
    first [reflexivity | discriminate].
Qed.

(** The base name captured from a rolled file name ends with a dot and
    three more characters. *)
Lemma rolled_base_dotted (file_name : string) (m : match_result) :
  exec Browse.ROLLED_REGEX file_name = Some m ->
  In "."%char (list_ascii_of_string (group_text 1 m)).
Proof.
  intros H. apply SoundFacts.exec_sound in H as (s1 & s2 & st' & _ & Hsem & Hcaps).
  change (rflags Browse.ROLLED_REGEX) with IGNORE_CASE in Hsem.
  change (source Browse.ROLLED_REGEX)
    with (Seq Bol
            (Seq (Group 1 (Seq (Rep 1 None true Any)
                             (chain (list_ascii_of_string ".log") Empty)))
               (Seq (Chr ".")
                  (Seq (Group 2 (Seq (Rep 1 None true (Cls false [CRange "0" "9"]))
                                   Empty))
                     (Seq Eol Empty))))) in Hsem.
  set (st := start_at [] s1 s2) in *.
  destruct Hsem as (st0 & [_ ->] & st2 & (st1 & HX & ->) & HT).
  apply SoundFacts.sem_keeps in HT.
  assert (Hcap : capture 1 m = Some (consumed st st1)).
  { unfold capture. rewrite Hcaps, (HT 1).
    - cbn [set_cap caps assoc_nat Nat.eqb]. reflexivity.
    - cbn [groups_of app In]. intros [E|[]]. discriminate. }
  unfold group_text. rewrite Hcap.
  destruct HX as (str & HR & HC).
  apply SoundFacts.sem_reads in HR as (w & HR).
  apply sem_chain in HC as (mid & st3 & Hmid & Hf & ->).
  rewrite (SoundFacts.consumed_reads (SoundFacts.reads_trans HR Hmid)).
  rewrite list_ascii_of_string_of_list_ascii.
  apply in_or_app. right.
  cbn [list_ascii_of_string] in Hf. inversion Hf as [|p c ps cs' Hc Hrest]; subst.
  cbn [f_ignoreCase IGNORE_CASE] in Hc. apply dot_only in Hc. subst c. now left.
Qed.

End BrowseRegexFacts.

(** ** The browse route: every eligible file is listed *)

Module BrowseFacts.
Import Browse BrowseSpec.

Lemma in_group_fresh (nm : string) : ~ in_group nm fresh.
Proof. intros [(b & H & _)|(y & [] & _)]. discriminate. Qed.

(** Writing at key [k] a group that holds what the group there held. *)
Lemma set_keeps (o : JS.obj pending) (k : string) (g v : pending) :
  based o ->
  JS.own k o = Some g \/ (JS.own k o = None /\ g = fresh) ->
  (forall b, base v = Some b -> name b = k) ->
  (forall nm, in_group nm g -> in_group nm v) ->
  based (JS.set k v o)
  /\ JS.own k (JS.set k v o) = Some v
  /\ forall nm, grouped nm o -> grouped nm (JS.set k v o).
Proof.
  intros Hb Hg Hv Hin. split; [|split; [apply JSFacts.own_set_same|]].
  - intros k0 g0 b0 Ho Hb0. destruct (string_dec k0 k) as [->|Hne].
    + rewrite JSFacts.own_set_same in Ho. injection Ho as <-. now apply Hv.
    + rewrite JSFacts.own_set_other in Ho by exact Hne. eapply Hb; eassumption.
  - intros nm (k0 & g0 & Ho & Hn). destruct (string_dec k0 k) as [->|Hne].
    + exists k, v. split; [apply JSFacts.own_set_same|].
      apply Hin. destruct Hg as [Hg|[Hg _]]; congruence.
    + exists k0, g0. split; [|exact Hn]. now rewrite JSFacts.own_set_other.
Qed.

Lemma push_rolled_spec (k : string) (member : file_item) (o : JS.obj pending) :
  based o -> JS.get k o <> JS.Inherited ->
  exists o',
    push_rolled k member o = Some o'
    /\ based o' /\ grouped (name member) o'
    /\ forall nm, grouped nm o -> grouped nm o'.
Proof.
  intros Hb Hg. unfold push_rolled, JS.get in *.
  destruct (JS.own k o) as [g|] eqn:O.
  - eexists. split; [reflexivity|].
    destruct (@set_keeps o k g {| base := base g; rolled := rolled g ++ [member] |}
                Hb (or_introl O)) as (Hb2 & Ho2 & Hkeep).
    { intros b Hbase. eapply Hb; eassumption. }
    { intros nm [H|(y & Hy & Hn)]; [now left|].
      right. exists y. split; [|exact Hn]. cbn. apply in_or_app. now left. }
    split; [exact Hb2|]. split; [|exact Hkeep].
    eexists k, _. split; [exact Ho2|]. right. exists member.
    split; [|reflexivity]. cbn. apply in_or_app. right. now left.
  - destruct (existsb (String.eqb k) JS.proto_keys); [contradiction|].
    eexists. split; [reflexivity|].
    destruct (@set_keeps o k fresh {| base := None; rolled := [member] |}
                Hb (or_intror (conj O eq_refl))) as (Hb2 & Ho2 & Hkeep).
    { discriminate. }
    { intros nm H. now apply in_group_fresh in H. }
    split; [exact Hb2|]. split; [|exact Hkeep].
    eexists k, _. split; [exact Ho2|]. right. exists member.
    split; [now left|reflexivity].
Qed.

Lemma assign_base_spec (file : file_item) (o : JS.obj pending) :
  based o -> JS.get (name file) o <> JS.Inherited ->
  based (assign_base (name file) file o)
  /\ grouped (name file) (assign_base (name file) file o)
  /\ forall nm, grouped nm o -> grouped nm (assign_base (name file) file o).
Proof.
  intros Hb Hg. unfold assign_base, JS.get in *.
  destruct (JS.own (name file) o) as [g|] eqn:O.
  - destruct (@set_keeps o (name file) g {| base := Some file; rolled := rolled g |}
                Hb (or_introl O)) as (Hb2 & Ho2 & Hkeep).
    { intros b Hbase. cbn in Hbase. now injection Hbase as <-. }
    { intros nm [(b & Hbase & Hn)|H]; [|now right].
      left. exists file. split; [reflexivity|].
      rewrite <- Hn. symmetry. eapply Hb; eassumption. }
    split; [exact Hb2|]. split; [|exact Hkeep].
    eexists (name file), _. split; [exact Ho2|]. left. exists file. split; reflexivity.
  - destruct (existsb (String.eqb (name file)) JS.proto_keys); [contradiction|].
    destruct (@set_keeps o (name file) fresh {| base := Some file; rolled := [] |}
                Hb (or_intror (conj O eq_refl))) as (Hb2 & Ho2 & Hkeep).
    { intros b Hbase. cbn in Hbase. now injection Hbase as <-. }
    { intros nm H. now apply in_group_fresh in H. }
    split; [exact Hb2|]. split; [|exact Hkeep].
    eexists (name file), _. split; [exact Ho2|]. left. exists file. split; reflexivity.
Qed.

Lemma placed_standalone (nm : string) (a : grouping) (o : JS.obj pending) :
  placed nm a ->
  (forall nm', grouped nm' (groups a) -> grouped nm' o) ->
  forall extra, placed nm {| groups := o; standalone := standalone a ++ extra |}.
Proof.
  intros [(x & Hx & Hn)|Hg] Ho extra.
  - left. exists x. split; [|exact Hn]. cbn. apply in_or_app. now left.
  - right. now apply Ho.
Qed.

(** One turn of the second loop places its file, keeps what was placed,
    and raises nothing. *)
Lemma classify_places (files : list file_item) (a : grouping) (file : file_item) :
  based (groups a) ->
  Regex.test LOG_FILE_REGEX (name file) = true ->
  exists a',
    classify files (Some a) file = Some a'
    /\ based (groups a')
    /\ placed (name file) a'
    /\ forall nm, placed nm a -> placed nm a'.
Proof.
  intros Hb Hel. cbn [classify].
  destruct (Regex.exec ROLLED_REGEX (name file)) as [m|] eqn:R.
  - assert (Hk : JS.get (group_text 1 m) (groups a) <> JS.Inherited)
      by (apply JSFacts.dotted_not_inherited;
          eapply BrowseRegexFacts.rolled_base_dotted, R).
    set (member := {| name := name file; path := path file; size := size file;
                      modified := modified file;
                      rollNumber := Some (JS.parseInt (group_text 2 m)) |}).
    destruct (@push_rolled_spec _ member (groups a) Hb Hk)
      as (o' & -> & Hb' & Hmem & Hkeep).
    eexists. split; [reflexivity|]. cbn [groups standalone].
    split; [exact Hb'|]. split; [right; exact Hmem|].
    intros nm Hp.
    replace (standalone a) with (standalone a ++ []) by apply app_nil_r.
    apply placed_standalone; [exact Hp|exact Hkeep].
  - rewrite BrowseRegexFacts.sibling_regex_compiles.
    destruct (existsb _ files).
    + assert (Hk : JS.get (name file) (groups a) <> JS.Inherited)
        by now apply BrowseRegexFacts.eligible_not_inherited.
      destruct (@assign_base_spec file (groups a) Hb Hk) as (Hb' & Hmem & Hkeep).
      eexists. split; [reflexivity|]. cbn [groups standalone].
      split; [exact Hb'|]. split; [right; exact Hmem|].
      intros nm Hp.
      replace (standalone a) with (standalone a ++ []) by apply app_nil_r.
      apply placed_standalone; [exact Hp|exact Hkeep].
    + eexists. split; [reflexivity|]. cbn [groups standalone].
      split; [exact Hb|]. split.
      * left. exists file. split; [|reflexivity]. apply in_or_app. right. now left.
      * intros nm Hp. apply placed_standalone; auto.
Qed.

Lemma fold_classify_places (files todo : list file_item) (a : grouping) :
  based (groups a) ->
  (forall f, In f todo -> Regex.test LOG_FILE_REGEX (name f) = true) ->
  exists a',
    fold_left (classify files) todo (Some a) = Some a'
    /\ (forall nm, placed nm a -> placed nm a')
    /\ forall f, In f todo -> placed (name f) a'.
Proof.
  revert a. induction todo as [|file todo IH]; intros a Hb Hel; cbn [fold_left].
  - exists a. split; [reflexivity|]. split; [auto|intros f []].
  - destruct (@classify_places files a file Hb (Hel file (or_introl eq_refl)))
      as (a1 & -> & Hb1 & Hp1 & Hk1).
    destruct (IH a1 Hb1 (fun f Hf => Hel f (or_intror Hf))) as (a' & -> & Hk & Hall).
    exists a'. split; [reflexivity|]. split; [auto|].
    intros f [<-|Hf]; auto.
Qed.

(** The first loop keeps every entry that is not hidden, is no directory
    and has an eligible name, when each stat succeeds. *)
Lemma collect_keeps (entries : list dirent) :
  (forall e, In e entries -> exists st, d_stat e = inl st) ->
  exists found_folders found_files,
    collect entries = inr (found_folders, found_files)
    /\ (forall f, In f found_files -> Regex.test LOG_FILE_REGEX (name f) = true)
    /\ forall e, In e entries ->
         startsWith_dot (d_name e) = false -> d_isDirectory e = false ->
         Regex.test LOG_FILE_REGEX (d_name e) = true ->
         exists f, In f found_files /\ name f = d_name e.
Proof.
  induction entries as [|entry rest IH]; intros Hst; cbn [collect].
  - exists [], []. split; [reflexivity|]. split; intros ? [].
  - destruct IH as (fo & fi & Hc & Hel & Hall);
      [intros e He; apply Hst; now right|].
    rewrite Hc.
    destruct (startsWith_dot (d_name entry)) eqn:Hd.
    { exists fo, fi. split; [reflexivity|]. split; [exact Hel|].
      intros e [<-|He] H1 H2 H3; [congruence|auto]. }
    destruct (d_isDirectory entry) eqn:Hdir.
    { eexists _, fi. split; [reflexivity|]. split; [exact Hel|].
      intros e [<-|He] H1 H2 H3; [congruence|auto]. }
    destruct (Regex.test LOG_FILE_REGEX (d_name entry)) eqn:Ht.
    + destruct (Hst entry (or_introl eq_refl)) as (st & ->).
      eexists fo, (_ :: fi). split; [reflexivity|]. split.
      * intros f [<-|Hf]; [exact Ht|auto].
      * intros e [<-|He] H1 H2 H3.
        -- eexists. split; [now left|reflexivity].
        -- destruct (Hall e He H1 H2 H3) as (f & Hf & Hn). exists f. split; [now right|exact Hn].
    + exists fo, fi. split; [reflexivity|]. split; [exact Hel|].
      intros e [<-|He] H1 H2 H3; [congruence|auto].
Qed.

(** What the second loop placed is in the answer. *)
Lemma placed_shown (cmp : string -> string -> Z) (nm : string) (a : grouping)
  (l : listing) :
  l_files l = standalone a ->
  fileGroups l
  = JS.sort (fun x y => cmp (baseName x) (baseName y))
            (map make_group (JS.entries (groups a))) ->
  placed nm a -> shown nm l.
Proof.
  intros Hf Hg [(x & Hx & Hn)|(k & g & Ho & Hin)].
  - exists x. split; [exact Hn|]. left. now rewrite Hf.
  - assert (Hgrp : In (make_group (k, g)) (fileGroups l)).
    { rewrite Hg, JSFacts.sort_In. apply in_map.
      rewrite JSFacts.entries_In. now apply JSFacts.own_In. }
    destruct Hin as [(b & Hb & Hn)|(y & Hy & Hn)].
    + exists b. split; [exact Hn|]. right. exists (make_group (k, g)).
      split; [exact Hgrp|]. cbn [make_group files snd]. rewrite Hb.
      apply in_or_app. right. now left.
    + exists y. split; [exact Hn|]. right. exists (make_group (k, g)).
      split; [exact Hgrp|]. cbn [make_group files snd].
      apply in_or_app. left. rewrite <- in_rev. now rewrite JSFacts.sort_In.
Qed.

(** Every entry of the directory that is not hidden, is no directory and
    has an eligible name is listed, when each stat succeeds. *)
Lemma browse_lists_eligible
  (cmp : string -> string -> Z) (resolved dirname : string)
  (entries : list dirent) (e : dirent) :
  (forall e', In e' entries -> exists st, d_stat e' = inl st) ->
  In e entries ->
  startsWith_dot (d_name e) = false -> d_isDirectory e = false ->
  Regex.test LOG_FILE_REGEX (d_name e) = true ->
  exists l, browse cmp resolved dirname (Directory entries) = Ok l
            /\ shown (d_name e) l.
Proof.
  intros Hst He Hd Hdir Ht. cbn [browse].
  destruct (@collect_keeps entries Hst) as (fo & fi & -> & Hel & Hall).
  destruct (Hall e He Hd Hdir Ht) as (f & Hf & Hn).
  set (files := JS.sort (fun a b => cmp (name a) (name b)) fi).
  assert (Hel' : forall x, In x files -> Regex.test LOG_FILE_REGEX (name x) = true).
  { intros x Hx. apply Hel. unfold files in Hx. now rewrite JSFacts.sort_In in Hx. }
  destruct (@fold_classify_places files files {| groups := []; standalone := [] |})
    as (a & -> & _ & Hplaced); [intros ? ? ? H; discriminate H|exact Hel'|].
  eexists. split; [reflexivity|].
  rewrite <- Hn. eapply placed_shown; [reflexivity|reflexivity|].
  apply Hplaced. unfold files. now rewrite JSFacts.sort_In.
Qed.

End BrowseFacts.

(** C7, as stated, fails for the browse route: the owner sidecar next to
    app.log matches the sidecar pattern and is listed among the files. *)
Lemma C7_browse_lists_sidecar_counterexample :
  Regex.test Scan.OWNER_REGEX "app.log.owner" = true
  /\ match Browse.browse ScanSpec.no_order "/logs" "/"
             (Browse.Directory BrowseSpec.with_sidecar) with
     | Ok l => map Browse.name (Browse.l_files l)
     | Fail _ _ => []
     end = ["app.log"; "app.log.owner"].
Proof. vm_compute. split; reflexivity. Qed.

(** C7, amended. A file whose name matches the sidecar pattern is dropped
    by the scan: it is not collected and is in no group of the answer.
    The browse route does not drop it: its pattern accepts every such
    name, and an entry of that name that is not hidden and is no
    directory is listed in the answer, alone or in a group. *)
Theorem C7_sidecar_files :
  (forall fo f,
     Regex.test Scan.OWNER_REGEX (Scan.fd_basename f) = true ->
     Scan.collect_found fo f = [])
  /\ (forall localeCompareBase folders r g x,
        Scan.scan localeCompareBase (Some folders) = Ok r ->
        In g (Scan.groups r) -> In x (Scan.files g) ->
        Regex.test Scan.OWNER_REGEX (Scan.name x) = false)
  /\ (forall file_name,
        Regex.test Scan.OWNER_REGEX file_name = true ->
        Regex.test Browse.LOG_FILE_REGEX file_name = true)
  /\ (forall localeCompare resolved dirname entries e,
        (forall e', In e' entries -> exists st, Browse.d_stat e' = inl st) ->
        In e entries ->
        Browse.startsWith_dot (Browse.d_name e) = false ->
        Browse.d_isDirectory e = false ->
        Regex.test Scan.OWNER_REGEX (Browse.d_name e) = true ->
        exists l,
          Browse.browse localeCompare resolved dirname (Browse.Directory entries) = Ok l
          /\ BrowseSpec.shown (Browse.d_name e) l).
Proof.
  split.
  { intros fo f H. unfold Scan.collect_found. rewrite H.
    now destruct (Regex.test Scan.LOG_FILE_REGEX _). }
  split.
  { intros cmp folders r g x Hs Hg Hx.
    eapply SidecarFacts.collect_In, SidecarFacts.groups_from_collected; eassumption. }
  split; [exact BrowseRegexFacts.sidecar_is_eligible|].
  intros cmp resolved dirname entries e Hst He Hd Hdir Ht.
  apply BrowseFacts.browse_lists_eligible; auto.
  now apply BrowseRegexFacts.sidecar_is_eligible.
Qed.

(** ** The general statements on the samples *)

(** C2, on the sample merge of three files, a directory and a missing
    path. *)
Lemma C2_marker_partition_witness :
  let a := ReadMulti.merge MergeSpec.sample_fs MergeSpec.sample_paths in
  let ms := ReadMulti.fileMarkers a in
  let cs := MergeSpec.line_counts MergeSpec.sample_fs MergeSpec.sample_paths in
  map ReadMulti.lineCount ms = cs
  /\ (forall i m, nth_error ms i = Some m ->
        ReadMulti.startLine m = list_sum (firstn i cs))
  /\ list_sum cs = List.length (ReadMulti.allLines a)
  /\ (forall i j mi mj, i <= j -> nth_error ms i = Some mi -> nth_error ms j = Some mj ->
        ReadMulti.startLine mi <= ReadMulti.startLine mj)
  /\ (forall i m mnext, nth_error ms i = Some m -> nth_error ms (S i) = Some mnext ->
        ReadMulti.startLine mnext = ReadMulti.startLine m + ReadMulti.lineCount m)
  /\ (forall k, k < List.length (ReadMulti.allLines a) ->
        exists i m, nth_error ms i = Some m
          /\ ReadMulti.startLine m <= k < ReadMulti.startLine m + ReadMulti.lineCount m
          /\ forall j m', nth_error ms j = Some m' ->
               ReadMulti.startLine m' <= k < ReadMulti.startLine m' + ReadMulti.lineCount m' ->
               j = i)
  /\ match ReadMulti.readMulti MergeSpec.sample_fs (Some MergeSpec.sample_paths) with
     | Ok r =>
         ReadMulti.r_lines r = ReadMulti.allLines a
         /\ ReadMulti.r_fileMarkers r = ms
         /\ ReadMulti.r_fileCount r = List.length ms
     | Fail _ _ => MergeSpec.sample_paths = []
     end.
Proof. exact (C2_marker_partition MergeSpec.sample_fs MergeSpec.sample_paths). Defined.

(** C5 amended, on the line of [two_stamps]: the timestamp comes from a
    pattern after some that were passed over. *)
Lemma C5_first_parsed_match_wins_witness :
  exists skipped p rest,
    LogViewer.GENERIC_PATTERNS = skipped ++ p :: rest
    /\ Forall
         (fun q =>
            Regex.exec q TimestampSpec.two_stamps = None
            \/ exists m, Regex.exec q TimestampSpec.two_stamps = Some m
                 /\ TimestampSpec.sample_Date
                      (LogViewer.strip_bracket (LogViewer.first_group_or_whole m)) = None)
         skipped
    /\ exists m, Regex.exec p TimestampSpec.two_stamps = Some m
         /\ TimestampSpec.sample_Date
              (LogViewer.strip_bracket (LogViewer.first_group_or_whole m))
            = Some 1705314600000%Z.
Proof.
  exact (proj1 (proj1 (C5_first_parsed_match_wins TimestampSpec.sample_Date
                         TimestampSpec.sample_Date_local TimestampSpec.two_stamps)
                      1705314600000%Z) eq_refl).
Defined.

(** C7 amended, on the directory with the owner sidecar. *)
Lemma C7_sidecar_files_witness :
  exists l,
    Browse.browse ScanSpec.no_order "/logs" "/" (Browse.Directory BrowseSpec.with_sidecar)
    = Ok l
    /\ BrowseSpec.shown "app.log.owner" l.
Proof.
  refine (proj2 (proj2 (proj2 C7_sidecar_files)) ScanSpec.no_order "/logs" "/"
            BrowseSpec.with_sidecar
            (BrowseSpec.file_entry "app.log.owner" 12 1700000003000)
            _ (or_intror (or_introl eq_refl)) eq_refl eq_refl eq_refl).
  intros e' [<-|[<-|[]]]; eexists; reflexivity.
Defined.

(** C9 amended, on a session with an open watcher. *)
Lemma C9_stop_tail_witness :
  Tail.on_message MergeSpec.sample_fs (TailSpec.watching TailSpec.log_path 100)
                  TailSpec.stop_tail
  = (Tail.on_close (TailSpec.watching TailSpec.log_path 100), [Tail.TailStopped]).
Proof.
  exact (proj1 (C9_stop_tail MergeSpec.sample_fs
                  (TailSpec.watching TailSpec.log_path 100) None)
               TailSpec.log_path eq_refl).
Defined.

(* ===================================================================== *)
(** ** Numbers, sorting, dictionaries and line splitting *)
(* ===================================================================== *)

Module NumberFacts.

(** A natural number below [2^53] is a double: [parseInt] reads it as it
    is written. *)
Lemma to_double_exact (n : N) : (n < 2 ^ 53)%N -> JS.to_double n = Z.of_N n.
Proof.
  intros H. unfold JS.to_double.
  destruct (N.leb_spec (N.size n) 53) as [_|Hs]; [reflexivity|].
  exfalso. destruct (N.eq_dec n 0) as [->|Hn]; [discriminate Hs|].
  rewrite N.size_log2 in Hs by exact Hn.
  assert (N.log2 n < 53)%N by (apply N.log2_lt_pow2; lia). lia.
Qed.

(** From [2^53] on, numbers that differ may read alike. *)
Lemma parseInt_reads_alike :
  JS.parseInt "9007199254740993" = JS.parseInt "9007199254740992".
Proof. vm_compute. reflexivity. Qed.

End NumberFacts.

Module OrderFacts.
Import JS OrderSpec.

Section Sorting.
Variable A : Type.
Variable cmp : A -> A -> Z.

Lemma insert_perm (x : A) (l : list A) : Permutation (insert cmp x l) (x :: l).
Proof.
  induction l as [|y l IH]; cbn [insert]; [reflexivity|].
  destruct (0 <? cmp x y)%Z; [|reflexivity].
  rewrite IH. apply perm_swap.
Qed.

Lemma sort_perm (l : list A) : Permutation (sort cmp l) l.
Proof.
  unfold sort. induction l as [|x l IH]; cbn [fold_right]; [reflexivity|].
  rewrite insert_perm. now constructor.
Qed.

Lemma sort_length (l : list A) : List.length (sort cmp l) = List.length l.
Proof. apply Permutation_length, sort_perm. Qed.

Variable R : A -> A -> Prop.
Hypothesis R_trans : forall a b c, R a b -> R b c -> R a c.
Hypothesis stays : forall x y, (0 <? cmp x y)%Z = false -> R x y.
Hypothesis moves : forall x y, (0 <? cmp x y)%Z = true -> R y x.

Lemma insert_sorted (x : A) (l : list A) :
  StronglySorted R l -> StronglySorted R (insert cmp x l).
Proof.
  induction 1 as [|y l Hs IH Hy]; cbn [insert].
  - constructor; constructor.
  - destruct (0 <? cmp x y)%Z eqn:E.
    + constructor; [exact IH|].
      apply Forall_forall. intros z Hz. apply JSFacts.insert_In in Hz as [->|Hz].
      * now apply moves.
      * rewrite Forall_forall in Hy. now apply Hy.
    + constructor; [now constructor|].
      constructor; [now apply stays|].
      apply Forall_forall. intros z Hz. rewrite Forall_forall in Hy.
      apply R_trans with y; [now apply stays | now apply Hy].
Qed.

Lemma sort_sorted (l : list A) : StronglySorted R (sort cmp l).
Proof.
  unfold sort. induction l as [|x l IH]; cbn [fold_right]; [constructor|].
  now apply insert_sorted.
Qed.
End Sorting.

(** Sorting by [key b - key a] puts the largest key first. *)
Lemma sort_descending (A : Type) (key : A -> Z) (l : list A) :
  StronglySorted (descending key) (sort (fun a b => (key b - key a)%Z) l).
Proof.
  apply sort_sorted; unfold descending.
  - intros a b c. lia.
  - intros x y H. apply Z.ltb_ge in H. lia.
  - intros x y H. apply Z.ltb_lt in H. lia.
Qed.

(** Sorting by [key a - key b] puts the smallest key first. *)
Lemma sort_ascending (A : Type) (key : A -> Z) (l : list A) :
  StronglySorted (ascending key) (sort (fun a b => (key a - key b)%Z) l).
Proof.
  apply sort_sorted; unfold ascending.
  - intros a b c. lia.
  - intros x y H. apply Z.ltb_ge in H. lia.
  - intros x y H. apply Z.ltb_lt in H. lia.
Qed.

(** Sorting with a consistent comparator leaves no element after one it
    should precede. *)
Lemma sort_consistent (A : Type) (cmp : A -> A -> Z) (l : list A) :
  consistent cmp -> StronglySorted (not_after cmp) (sort cmp l).
Proof.
  intros [Htot Htrans]. apply sort_sorted; unfold not_after.
  - exact Htrans.
  - intros x y H. apply Z.ltb_ge in H. exact H.
  - intros x y H. apply Z.ltb_lt in H. now apply Htot.
Qed.

Lemma flat_map_perm (A B : Type) (f : A -> list B) (l l' : list A) :
  Permutation l l' -> Permutation (flat_map f l) (flat_map f l').
Proof.
  induction 1 as [|x l l' _ IH|x y l|l l' l'' _ IH1 _ IH2]; cbn [flat_map].
  - reflexivity.
  - now apply Permutation_app_head.
  - rewrite !app_assoc. apply Permutation_app_tail, Permutation_app_comm.
  - now transitivity (flat_map f l').
Qed.

Lemma flat_map_perm_each (A B : Type) (f g : A -> list B) (l : list A) :
  (forall x, Permutation (f x) (g x)) ->
  Permutation (flat_map f l) (flat_map g l).
Proof.
  intros H. induction l as [|x l IH]; cbn [flat_map]; [reflexivity|].
  now apply Permutation_app.
Qed.

Section Dictionary.
Variable V : Type.

Lemma entries_perm (o : obj V) : Permutation (entries o) o.
Proof.
  unfold entries.
  rewrite (Permutation_map snd (sort_perm (@index_cmp V) (index_entries o))).
  induction o as [|[k v] o IH]; cbn [index_entries filter fst]; [reflexivity|].
  destruct (array_index k) as [n|]; cbn [map snd app].
  - now constructor.
  - rewrite <- Permutation_middle. now constructor.
Qed.

Lemma own_None (k : string) (o : obj V) :
  own k o = None <-> ~ In k (map fst o).
Proof.
  induction o as [|[k' v'] o IH]; cbn [own map fst In]; [tauto|].
  destruct (String.eqb_spec k k') as [->|Hne].
  - split; [discriminate|]. intros H. exfalso. apply H. now left.
  - rewrite IH. split; [intros H [E|E]; [congruence|auto] | tauto].
Qed.

Lemma set_keys_new (k : string) (v : V) (o : obj V) :
  own k o = None -> set k v o = o ++ [(k, v)].
Proof.
  induction o as [|[k' v'] o IH]; cbn [own set app]; [reflexivity|].
  destruct (String.eqb k k'); [discriminate|]. intros H. now rewrite IH.
Qed.

Lemma set_keys_old (k : string) (v v0 : V) (o : obj V) :
  own k o = Some v0 -> map fst (set k v o) = map fst o.
Proof.
  induction o as [|[k' v'] o IH]; cbn [own set map fst]; [discriminate|].
  destruct (String.eqb k k'); cbn [map fst]; [reflexivity|].
  intros H. now rewrite IH.
Qed.

Lemma set_keys_NoDup (k : string) (v : V) (o : obj V) :
  NoDup (map fst o) -> NoDup (map fst (set k v o)).
Proof.
  intros Hnd. destruct (own k o) as [v0|] eqn:E.
  - now rewrite (set_keys_old k v o E).
  - rewrite (set_keys_new k v o E), map_app. cbn [map fst].
    apply NoDup_app; [exact Hnd|repeat constructor; intros []|].
    intros x Hx [<-|[]]. now apply own_None in E.
Qed.

Lemma In_own (k : string) (v : V) (o : obj V) :
  NoDup (map fst o) -> In (k, v) o -> own k o = Some v.
Proof.
  induction o as [|[k' v'] o IH]; cbn [own map fst In]; [intros _ []|].
  intros Hnd. inversion Hnd as [|? ? Hk Hnd']; subst.
  intros [E|Hin].
  - injection E as -> ->. now rewrite String.eqb_refl.
  - destruct (String.eqb_spec k k') as [->|Hne].
    + exfalso. apply Hk. apply in_map_iff. now exists (k', v).
    + now apply IH.
Qed.

Lemma set_In_inv (k : string) (v : V) (o : obj V) (kv : string * V) :
  In kv (set k v o) -> kv = (k, v) \/ In kv o.
Proof.
  induction o as [|[k' v'] o IH]; cbn [set In]; [intros [<-|[]]; auto|].
  destruct (String.eqb_spec k k') as [->|Hne]; cbn [In].
  - intros [<-|H]; auto.
  - intros [<-|H]; auto. destruct (IH H); auto.
Qed.

Variable B : Type.
Variable f : V -> list B.

(** Writing a new key adds its value last. *)
Lemma set_flat_new (k : string) (v : V) (o : obj V) :
  own k o = None ->
  flat_map (fun kv => f (snd kv)) (set k v o)
  = flat_map (fun kv => f (snd kv)) o ++ f v.
Proof.
  intros H. rewrite (set_keys_new k v o H), flat_map_app. cbn [flat_map snd].
  now rewrite app_nil_r.
Qed.

(** Writing an own key replaces its value where it is. *)
Lemma set_flat_old (k : string) (v v0 : V) (more : list B) (o : obj V) :
  own k o = Some v0 ->
  Permutation (f v) (f v0 ++ more) ->
  Permutation (flat_map (fun kv => f (snd kv)) (set k v o))
              (flat_map (fun kv => f (snd kv)) o ++ more).
Proof.
  intros Ho Hv. induction o as [|[k' v'] o IH]; cbn [own set] in *; [discriminate|].
  destruct (String.eqb k k').
  - injection Ho as ->. cbn [flat_map snd]. rewrite Hv, <- !app_assoc.
    apply Permutation_app_head, Permutation_app_comm.
  - cbn [flat_map snd]. rewrite <- app_assoc. apply Permutation_app_head, IH, Ho.
Qed.
End Dictionary.

End OrderFacts.

Module SplitFacts.
Import JS OrderSpec.

Lemma one_line_rev (cur : list ascii) :
  ~ In Chars.LF cur -> one_line (string_of_list_ascii (rev cur)).
Proof.
  unfold one_line. rewrite list_ascii_of_string_of_list_ascii.
  intros H Hin. apply H. now apply in_rev.
Qed.

Lemma split_from_one_line_upto (n : nat) :
  forall s cur, List.length s <= n -> ~ In Chars.LF cur ->
    Forall one_line (split_from cur s).
Proof.
  induction n as [|n IH]; intros s cur Hlen Hcur.
  - destruct s; [|cbn in Hlen; lia]. cbn [split_from].
    constructor; [now apply one_line_rev|constructor].
  - destruct s as [|c rest]; cbn [split_from].
    + constructor; [now apply one_line_rev|constructor].
    + cbn [List.length] in Hlen.
      assert (Hpush : Ascii.eqb c Chars.LF = false ->
                      Forall one_line (split_from (c :: cur) rest)).
      { intros Hc. apply IH; [lia|]. intros [E|Hin]; [|auto].
        subst c. now rewrite Ascii.eqb_refl in Hc. }
      destruct (Ascii.eqb c Chars.LF) eqn:Hc.
      * constructor; [now apply one_line_rev|]. apply IH; [lia|intros []].
      * destruct (Ascii.eqb c Chars.CR); [|now apply Hpush].
        destruct rest as [|d rest']; [now apply Hpush|].
        destruct (Ascii.eqb d Chars.LF); [|now apply Hpush].
        constructor; [now apply one_line_rev|].
        apply IH; [cbn [List.length] in Hlen; lia|intros []].
Qed.

(** No line of a split text holds a line feed. *)
Lemma split_lines_one_line (s : string) : Forall one_line (split_lines s).
Proof.
  unfold split_lines.
  apply (@split_from_one_line_upto (List.length (list_ascii_of_string s)));
    [lia|intros []].
Qed.

Lemma split_from_not_nil (s cur : list ascii) : split_from cur s <> [].
Proof.
  revert cur. induction s as [|c rest IH]; intros cur; cbn [split_from];
    [discriminate|].
  destruct (Ascii.eqb c Chars.LF); [discriminate|].
  destruct (Ascii.eqb c Chars.CR); [|apply IH].
  destruct rest as [|d rest']; [apply IH|].
  destruct (Ascii.eqb d Chars.LF); [discriminate|apply IH].
Qed.

(** A text cut after a line feed: the lines of the whole are the lines of
    the first part, without the empty one that ends them, then the lines
    of the second part. *)
Lemma split_from_cut_upto (n : nat) :
  forall a cur b, List.length a <= n ->
    exists X,
      split_from cur (a ++ [Chars.LF]) = X ++ [EmptyString]
      /\ split_from cur (a ++ Chars.LF :: b) = X ++ split_from [] b.
Proof.
  induction n as [|n IH]; intros a cur b Hlen.
  - destruct a; [|cbn in Hlen; lia].
    exists [string_of_list_ascii (rev cur)]. split; reflexivity.
  - destruct a as [|c a]; [exists [string_of_list_ascii (rev cur)]; split; reflexivity|].
    cbn [List.length] in Hlen. cbn [app split_from].
    destruct (Ascii.eqb c Chars.LF) eqn:Hc.
    + destruct (IH a [] b ltac:(lia)) as (X & E1 & E2).
      exists (string_of_list_ascii (rev cur) :: X). now rewrite E1, E2.
    + destruct (Ascii.eqb c Chars.CR) eqn:Hr; [|apply IH; lia].
      destruct a as [|d a]; cbn [app].
      * change (Ascii.eqb Chars.LF Chars.LF) with true. cbv iota.
        exists [string_of_list_ascii (rev cur)]. split; reflexivity.
      * cbn [List.length] in Hlen. destruct (Ascii.eqb d Chars.LF) eqn:Hd.
        -- destruct (IH a [] b ltac:(lia)) as (X & E1 & E2).
           exists (string_of_list_ascii (rev cur) :: X). now rewrite E1, E2.
        -- destruct (IH (d :: a) (c :: cur) b ltac:(cbn [List.length]; lia))
             as (X & E1 & E2).
           exists X. split; [exact E1|exact E2].
Qed.

Lemma split_lines_cut (a b : list ascii) :
  exists X,
    split_lines (string_of_list_ascii (a ++ [Chars.LF])) = X ++ [EmptyString]
    /\ split_lines (string_of_list_ascii (a ++ Chars.LF :: b))
       = X ++ split_lines (string_of_list_ascii b).
Proof.
  unfold split_lines. rewrite !list_ascii_of_string_of_list_ascii.
  apply (@split_from_cut_upto (List.length a)). lia.
Qed.

Lemma drop_last_empty_snoc (X : list string) :
  ReadMulti.drop_last_empty (X ++ [EmptyString]) = X.
Proof.
  unfold ReadMulti.drop_last_empty. rewrite rev_app_distr. cbn [rev app].
  change (String.eqb EmptyString EmptyString) with true. cbv iota.
  apply rev_involutive.
Qed.

Lemma drop_last_empty_incl (l : list string) (x : string) :
  In x (ReadMulti.drop_last_empty l) -> In x l.
Proof.
  unfold ReadMulti.drop_last_empty. destruct (rev l) as [|y front] eqn:E; [auto|].
  destruct (String.eqb y EmptyString); [|auto].
  intros H. apply in_rev. rewrite E. right. now apply in_rev.
Qed.

End SplitFacts.

(* ===================================================================== *)
(** ** Patterns made of words, and what their groups capture *)
(* ===================================================================== *)

Module RegexMoreFacts.
Import Regex MatchSpec RegexMore.

Section Words.
Variable fl : flags.

Lemma product_In (xs ys : list (list ascii)) (x y : list ascii) :
  In x xs -> In y ys -> In (x ++ y) (product xs ys).
Proof.
  intros Hx Hy. unfold product. apply in_flat_map. exists x. split; [exact Hx|].
  now apply in_map.
Qed.

Lemma turns_words (sem_a : mstate -> mstate -> Prop) (gs : list nat)
  (ws : list (list ascii)) :
  (forall st st', sem_a st st' ->
     exists w mid, In w ws /\ reads mid st st'
       /\ Forall2 (fun p c => chr_eq (f_ignoreCase fl) p c = true) w mid) ->
  forall n mx st st', n <= mx -> turns sem_a gs n st st' ->
    exists w mid, In w (powers ws mx) /\ reads mid st st'
      /\ Forall2 (fun p c => chr_eq (f_ignoreCase fl) p c = true) w mid.
Proof.
  intros Ha. induction n as [|n IH]; intros mx st st' Hle; cbn [turns].
  - intros ->. exists [], []. split; [destruct mx; now left|].
    split; [apply SoundFacts.reads_refl|constructor].
  - intros (st1 & H1 & Hn). destruct mx as [|k]; [lia|].
    apply Ha in H1 as (w1 & mid1 & Hw1 & Hr1 & Hf1).
    apply SoundFacts.reads_clear in Hr1.
    destruct (IH k st1 st' ltac:(lia) Hn) as (w2 & mid2 & Hw2 & Hr2 & Hf2).
    exists (w1 ++ w2), (mid1 ++ mid2). split; [|split].
    + cbn [powers]. right. now apply product_In.
    + now apply SoundFacts.reads_trans with st1.
    + now apply Forall2_app.
Qed.

(** Every text a pattern of words reads is one of its words. *)
Lemma sem_words (r : re) :
  forall ws st st', words r = Some ws -> sem fl r st st' ->
    exists w mid, In w ws /\ reads mid st st'
      /\ Forall2 (fun p c => chr_eq (f_ignoreCase fl) p c = true) w mid.
Proof.
  induction r as [ |p| |neg items|a IHa b IHb|a IHa b IHb|mn mx greedy a IHa
                   |n a IHa|a IHa| | |neg];
    intros ws st st'; cbn [words sem]; try discriminate.
  - intros E ->. injection E as <-. exists [], [].
    split; [now left|]. split; [apply SoundFacts.reads_refl|constructor].
  - intros E H. injection E as <-.
    apply SoundFacts.reads_one_reads in H as (c & Hc & Hr).
    exists [p], [c]. split; [now left|]. split; [exact Hr|]. now repeat constructor.
  - destruct (words a) as [xa|]; [|discriminate].
    destruct (words b) as [xb|]; [|discriminate].
    intros E (st1 & H1 & H2). injection E as <-.
    destruct (IHa xa st st1 eq_refl H1) as (w1 & m1 & Hw1 & Hr1 & Hf1).
    destruct (IHb xb st1 st' eq_refl H2) as (w2 & m2 & Hw2 & Hr2 & Hf2).
    exists (w1 ++ w2), (m1 ++ m2). split; [now apply product_In|].
    split; [now apply SoundFacts.reads_trans with st1|now apply Forall2_app].
  - destruct (words a) as [xa|]; [|discriminate].
    destruct (words b) as [xb|]; [|discriminate].
    intros E [H|H]; injection E as <-.
    + destruct (IHa xa st st' eq_refl H) as (w & m & Hw & Hr & Hf).
      exists w, m. split; [apply in_or_app; now left|now split].
    + destruct (IHb xb st st' eq_refl H) as (w & m & Hw & Hr & Hf).
      exists w, m. split; [apply in_or_app; now right|now split].
  - destruct mx as [mx|]; [|discriminate].
    destruct (words a) as [xa|]; [|discriminate].
    intros E (n & [_ Hle] & Ht). injection E as <-.
    apply (@turns_words (sem fl a) (groups_of a) xa (fun s s' => IHa xa s s' eq_refl)
             n mx st st' Hle Ht).
  - intros E (st1 & H & ->).
    destruct (IHa ws st st1 E H) as (w & m & Hw & Hr & Hf).
    exists w, m. split; [exact Hw|]. split; [now apply SoundFacts.reads_set_cap|exact Hf].
  - intros E H. now apply (IHa ws st st' E).
Qed.

(** A match of a sequence that holds group [n] goes through the group. *)
Lemma sem_after_group (n : nat) (r : re) :
  forall a rest st st', after_group n r = Some (a, rest) -> sem fl r st st' ->
    exists s0 s1, sem fl a s0 s1
      /\ sem fl rest (set_cap n (consumed s0 s1) s1) st'.
Proof.
  induction r as [ |p| |neg items|x IHx b IHb|x IHx b IHb|mn mx greedy x IHx
                   |m x IHx|x IHx| | |neg];
    intros a rest st st'; cbn [after_group]; try discriminate.
  assert (Hskip : after_group n b = Some (a, rest) ->
                  sem fl (Seq x b) st st' ->
                  exists s0 s1, sem fl a s0 s1
                    /\ sem fl rest (set_cap n (consumed s0 s1) s1) st').
  { intros E (st1 & _ & H). now apply (IHb a rest st1 st' E). }
  destruct x; try exact Hskip.
  destruct (Nat.eqb_spec n0 n) as [->|Hne]; [|exact Hskip].
  intros E (st1 & (st0 & H0 & ->) & H). injection E as <- <-.
  now exists st, st0.
Qed.

Lemma captured_after_group (n : nat) (r a rest : re) (st st' : mstate) :
  after_group n r = Some (a, rest) ->
  existsb (Nat.eqb n) (groups_of rest) = false ->
  sem fl r st st' ->
  exists s0 s1, sem fl a s0 s1 /\ assoc_nat n (caps st') = Some (consumed s0 s1).
Proof.
  intros E Hn H. destruct (@sem_after_group n r a rest st st' E H) as (s0 & s1 & Ha & Hrest).
  exists s0, s1. split; [exact Ha|].
  apply SoundFacts.sem_keeps in Hrest. rewrite (Hrest n).
  - cbn [set_cap caps assoc_nat]. now rewrite Nat.eqb_refl.
  - intros Hin. apply not_true_iff_false in Hn. apply Hn, existsb_exists.
    exists n. split; [exact Hin|apply Nat.eqb_refl].
Qed.
End Words.

Lemma upper_same (w mid : list ascii) :
  Forall2 (fun p c => chr_eq true p c = true) w mid ->
  map Chars.to_upper mid = map Chars.to_upper w.
Proof.
  induction 1 as [|p c w mid H _ IH]; [reflexivity|].
  cbn [map]. apply MatchFacts.chr_eq_ci in H. now rewrite H, IH.
Qed.

(** What a group of words captured, in upper case, is one of the words in
    upper case, when the match ignores case. *)
Lemma captured_word (r : regex) (n : nat) (a rest : re) (ws : list (list ascii))
  (s : string) (m : match_result) :
  f_ignoreCase (rflags r) = true ->
  after_group n (source r) = Some (a, rest) ->
  existsb (Nat.eqb n) (groups_of rest) = false ->
  words a = Some ws ->
  exec r s = Some m ->
  In (LogViewer.toUpperCase (group_text n m)) (upper_words ws).
Proof.
  intros Hci Ea Hn Hw H.
  apply SoundFacts.exec_sound in H as (s1 & s2 & st' & _ & Hsem & Hcaps).
  destruct (@captured_after_group (rflags r) n (source r) a rest _ st' Ea Hn Hsem)
    as (s0 & s3 & Ha & Hc).
  destruct (@sem_words (rflags r) a ws s0 s3 Hw Ha) as (w & mid & Hin & Hr & Hf).
  rewrite Hci in Hf.
  unfold group_text, capture. rewrite Hcaps, Hc, (SoundFacts.consumed_reads Hr).
  unfold LogViewer.toUpperCase. rewrite list_ascii_of_string_of_list_ascii.
  rewrite (upper_same Hf). unfold upper_words.
  apply in_map_iff. now exists w.
Qed.

End RegexMoreFacts.

Module KeyFacts.
Import Regex MatchSpec SearchSpec KeySpec.

Lemma turns_one_char (fl : flags) (ok : ascii -> bool) (n : nat) :
  forall st st',
    turns (reads_one ok) [] n st st' ->
    exists w, reads w st st' /\ List.length w = n /\ Forall (fun c => ok c = true) w.
Proof.
  induction n as [|n IH]; intros st st'; cbn [turns].
  - intros ->. exists []. split; [apply SoundFacts.reads_refl|]. split; constructor.
  - intros (st1 & H1 & Hn).
    apply SoundFacts.reads_one_reads in H1 as (c & Hc & Hr).
    apply SoundFacts.reads_clear in Hr.
    destruct (IH st1 st' Hn) as (w & Hw & Hl & Hf).
    exists (c :: w). split; [exact (SoundFacts.reads_trans Hr Hw)|].
    split; [cbn [List.length]; now rewrite Hl|now constructor].
Qed.

Lemma digit_only (c : ascii) :
  in_set true [CRange "0" "9"] c = true -> Chars.is_digit c = true.
Proof.
  destruct c as [[] [] [] [] [] [] [] []]; vm_compute; intros H;
    first [reflexivity | discriminate].
Qed.

Lemma after_reads (w : list ascii) (st st' : mstate) :
  reads w st st' -> after st = w ++ after st'.
Proof. now intros [A _]. Qed.

(** What the group of one or more characters reads is not empty. *)
Lemma some_chars (fl : flags) (st st' : mstate) :
  sem fl (Seq (Rep 1 None true Any) Empty) st st' ->
  exists w, reads w st st' /\ w <> [].
Proof.
  intros (st1 & (n & [[Hn|Hn] _] & Ht) & ->); [|discriminate].
  apply (turns_one_char fl) in Ht as (w & Hr & Hl & _).
  exists w. split; [exact Hr|]. intros ->. cbn in Hl. lia.
Qed.

Lemma some_digits (st st' : mstate) :
  sem IGNORE_CASE (Seq (Rep 1 None true (Cls false [CRange "0" "9"])) Empty) st st' ->
  exists w, reads w st st' /\ is_roll w.
Proof.
  intros (st1 & (n & [[Hn|Hn] _] & Ht) & ->); [|discriminate].
  apply (turns_one_char IGNORE_CASE) in Ht as (w & Hr & Hl & Hf).
  exists w. split; [exact Hr|]. split.
  - intros ->. cbn in Hl. lia.
  - apply Forall_forall. intros c Hc. rewrite Forall_forall in Hf.
    apply digit_only. specialize (Hf c Hc). cbn [xorb f_ignoreCase IGNORE_CASE] in Hf.
    exact Hf.
Qed.

Lemma extension_read (a : re) (st st' : mstate) :
  RegexMore.words a
  = Some (map list_ascii_of_string ["log"; "txt"; "out"; "err"]) ->
  sem IGNORE_CASE a st st' ->
  exists w, reads w st st' /\ is_extension w.
Proof.
  intros Hw H.
  destruct (@RegexMoreFacts.sem_words IGNORE_CASE a _ st st' Hw H)
    as (x & w & Hin & Hr & Hf).
  exists w. split; [exact Hr|]. unfold is_extension.
  rewrite (RegexMoreFacts.upper_same Hf).
  cbn [map In list_ascii_of_string] in Hin.
  destruct Hin as [<-|[<-|[<-|[<-|[]]]]]; vm_compute; auto.
Qed.

Lemma dot_read (st st' : mstate) :
  sem IGNORE_CASE (Chr ".") st st' -> reads ["."%char] st st'.
Proof.
  intros H. apply SoundFacts.reads_one_reads in H as (c & Hc & Hr).
  cbn [f_ignoreCase IGNORE_CASE] in Hc. apply BrowseRegexFacts.dot_only in Hc.
  now subst c.
Qed.

Lemma string_not_empty (w : list ascii) :
  w <> [] -> string_of_list_ascii w <> EmptyString.
Proof. destruct w; [congruence|discriminate]. Qed.

(** The rolled pattern of the scan: what it captures first is the name
    without the extension and the roll number. *)
Lemma rolled_key (file_name : string) (m : match_result) :
  exec Scan.ROLLED_REGEX file_name = Some m ->
  stripped file_name (group_text 1 m).
Proof.
  intros H. apply SoundFacts.exec_sound in H as (s1 & s2 & st' & Hs & Hsem & Hcaps).
  change (rflags Scan.ROLLED_REGEX) with IGNORE_CASE in Hsem.
  destruct (RegexMore.after_group 1 (source Scan.ROLLED_REGEX))
    as [[g1 rest1]|] eqn:E1; [|discriminate E1].
  pose proof E1 as E1'. vm_compute in E1'. injection E1' as Eg1 Erest1.
  assert (Shape : source Scan.ROLLED_REGEX = Seq Bol (Seq (Group 1 g1) rest1))
    by (rewrite <- Eg1, <- Erest1; reflexivity).
  rewrite Shape in Hsem.
  set (st := start_at [] s1 s2) in *.
  destruct Hsem as (st0 & [Hbol ->] & st2 & (st1 & HX & ->) & HT).
  assert (Hs1 : s1 = []).
  { unfold at_line_start, st in Hbol. cbn [start_at before] in Hbol.
    rewrite app_nil_r in Hbol. destruct (rev s1) eqn:R; [|discriminate Hbol].
    apply (f_equal (@rev ascii)) in R. now rewrite rev_involutive in R. }
  rewrite <- Eg1 in HX. apply some_chars in HX as (w1 & Hr1 & Hne1).
  assert (Hcap : capture 1 m = Some (string_of_list_ascii w1)).
  { unfold capture. rewrite Hcaps.
    rewrite (SoundFacts.sem_keeps _ _ _ _ HT 1).
    - cbn [set_cap caps assoc_nat Nat.eqb]. now rewrite (SoundFacts.consumed_reads Hr1).
    - rewrite <- Erest1. cbn [groups_of app In]. intros [E|[E|[]]]; discriminate. }
  unfold group_text. rewrite Hcap.
  split; [now apply string_not_empty|].
  rewrite <- Erest1 in HT.
  destruct HT as (sa & Hdot1 & sb & (sc & Hext & ->) & sd & Hdot2
                  & se & (sf & Hdig & ->) & sg & [Heol ->] & ->).
  apply dot_read in Hdot1, Hdot2.
  apply extension_read in Hext as (ext & Hrext & Hext); [|reflexivity].
  apply some_digits in Hdig as (digits & Hrd & Hroll).
  exists ext. split; [exact Hext|]. right. exists digits. split; [exact Hroll|].
  rewrite list_ascii_of_string_of_list_ascii, Hs, Hs1. cbn [app].
  apply after_reads in Hr1, Hdot1, Hrext, Hdot2, Hrd.
  cbn [set_cap after] in *.
  unfold at_line_end in Heol. cbn [set_cap after f_multiline IGNORE_CASE andb] in Heol.
  destruct (after sf) eqn:Hend; [|discriminate Heol].
  change (after st) with s2 in Hr1.
  rewrite Hr1, Hdot1, Hrext, Hdot2, Hrd. cbn [app]. now rewrite app_nil_r.
Qed.

(** The base pattern of the scan: what it captures first is the name
    without the extension. *)
Lemma base_key (file_name : string) (m : match_result) :
  exec Scan.BASE_REGEX file_name = Some m ->
  stripped file_name (group_text 1 m).
Proof.
  intros H. apply SoundFacts.exec_sound in H as (s1 & s2 & st' & Hs & Hsem & Hcaps).
  change (rflags Scan.BASE_REGEX) with IGNORE_CASE in Hsem.
  destruct (RegexMore.after_group 1 (source Scan.BASE_REGEX))
    as [[g1 rest1]|] eqn:E1; [|discriminate E1].
  pose proof E1 as E1'. vm_compute in E1'. injection E1' as Eg1 Erest1.
  assert (Shape : source Scan.BASE_REGEX = Seq Bol (Seq (Group 1 g1) rest1))
    by (rewrite <- Eg1, <- Erest1; reflexivity).
  rewrite Shape in Hsem.
  set (st := start_at [] s1 s2) in *.
  destruct Hsem as (st0 & [Hbol ->] & st2 & (st1 & HX & ->) & HT).
  assert (Hs1 : s1 = []).
  { unfold at_line_start, st in Hbol. cbn [start_at before] in Hbol.
    rewrite app_nil_r in Hbol. destruct (rev s1) eqn:R; [|discriminate Hbol].
    apply (f_equal (@rev ascii)) in R. now rewrite rev_involutive in R. }
  rewrite <- Eg1 in HX. apply some_chars in HX as (w1 & Hr1 & Hne1).
  assert (Hcap : capture 1 m = Some (string_of_list_ascii w1)).
  { unfold capture. rewrite Hcaps.
    rewrite (SoundFacts.sem_keeps _ _ _ _ HT 1).
    - cbn [set_cap caps assoc_nat Nat.eqb]. now rewrite (SoundFacts.consumed_reads Hr1).
    - rewrite <- Erest1. cbn [groups_of app In]. intros [E|[]]; discriminate. }
  unfold group_text. rewrite Hcap.
  split; [now apply string_not_empty|].
  rewrite <- Erest1 in HT.
  destruct HT as (sa & Hdot1 & sb & (sc & Hext & ->) & sg & [Heol ->] & ->).
  apply dot_read in Hdot1.
  apply extension_read in Hext as (ext & Hrext & Hext); [|reflexivity].
  exists ext. split; [exact Hext|]. left.
  rewrite list_ascii_of_string_of_list_ascii, Hs, Hs1. cbn [app].
  apply after_reads in Hr1, Hdot1, Hrext.
  cbn [set_cap after] in *.
  unfold at_line_end in Heol. cbn [set_cap after f_multiline IGNORE_CASE andb] in Heol.
  destruct (after sc) eqn:Hend; [|discriminate Heol].
  change (after st) with s2 in Hr1.
  rewrite Hr1, Hdot1, Hrext. cbn [app]. now rewrite app_nil_r.
Qed.

(** The rolled pattern of the listing: the name is what it captures
    first, a dot, and the digits it captures second. *)
Lemma browse_rolled_shape (file_name : string) (m : match_result) :
  exec Browse.ROLLED_REGEX file_name = Some m ->
  exists digits,
    is_roll digits
    /\ list_ascii_of_string file_name
       = list_ascii_of_string (group_text 1 m) ++ "."%char :: digits
    /\ group_text 2 m = string_of_list_ascii digits.
Proof.
  intros H. apply SoundFacts.exec_sound in H as (s1 & s2 & st' & Hs & Hsem & Hcaps).
  change (rflags Browse.ROLLED_REGEX) with IGNORE_CASE in Hsem.
  destruct (RegexMore.after_group 1 (source Browse.ROLLED_REGEX))
    as [[g1 rest1]|] eqn:E1; [|discriminate E1].
  pose proof E1 as E1'. vm_compute in E1'. injection E1' as Eg1 Erest1.
  assert (Shape : source Browse.ROLLED_REGEX = Seq Bol (Seq (Group 1 g1) rest1))
    by (rewrite <- Eg1, <- Erest1; reflexivity).
  rewrite Shape in Hsem.
  set (st := start_at [] s1 s2) in *.
  destruct Hsem as (st0 & [Hbol ->] & st2 & (st1 & HX & ->) & HT).
  assert (Hs1 : s1 = []).
  { unfold at_line_start, st in Hbol. cbn [start_at before] in Hbol.
    rewrite app_nil_r in Hbol. destruct (rev s1) eqn:R; [|discriminate Hbol].
    apply (f_equal (@rev ascii)) in R. now rewrite rev_involutive in R. }
  apply SoundFacts.sem_reads in HX as (w1 & Hr1).
  pose proof (SoundFacts.sem_keeps _ _ _ _ HT 1) as Hkeep.
  rewrite <- Erest1 in HT, Hkeep.
  destruct HT as (sa & Hdot1 & sb & (sc & Hdig & ->) & sg & [Heol ->] & ->).
  apply dot_read in Hdot1.
  apply some_digits in Hdig as (digits & Hrd & Hroll).
  assert (Hcap1 : capture 1 m = Some (string_of_list_ascii w1)).
  { unfold capture. rewrite Hcaps, Hkeep.
    - cbn [set_cap caps assoc_nat Nat.eqb]. now rewrite (SoundFacts.consumed_reads Hr1).
    - cbn [groups_of app In]. intros [E|[]]; discriminate. }
  assert (Hcap2 : capture 2 m = Some (string_of_list_ascii digits)).
  { unfold capture. rewrite Hcaps. cbn [set_cap caps assoc_nat Nat.eqb].
    now rewrite (SoundFacts.consumed_reads Hrd). }
  unfold group_text. rewrite Hcap1, Hcap2.
  exists digits. split; [exact Hroll|]. split; [|reflexivity].
  rewrite list_ascii_of_string_of_list_ascii, Hs, Hs1. cbn [app].
  apply after_reads in Hr1, Hdot1, Hrd.
  cbn [set_cap after] in *.
  unfold at_line_end in Heol. cbn [set_cap after f_multiline IGNORE_CASE andb] in Heol.
  destruct (after sc) eqn:Hend; [|discriminate Heol].
  change (after st) with s2 in Hr1.
  rewrite Hr1, Hdot1, Hrd. cbn [app]. now rewrite app_nil_r.
Qed.

End KeyFacts.

(* ===================================================================== *)
(** ** The scan: grouping, order and summaries *)
(* ===================================================================== *)

Module ScanMoreFacts.
Import Scan ScanMore OrderSpec.

Lemma proto_key_spec (k : string) :
  existsb (String.eqb k) (@JS.proto_keys) = true <-> In k (@JS.proto_keys).
Proof.
  rewrite existsb_exists. split.
  - intros (x & Hx & E). apply String.eqb_eq in E. now subst.
  - intros H. exists k. split; [exact H|apply String.eqb_refl].
Qed.

Lemma held_app (o o' : JS.obj bucket) : held (o ++ o') = held o ++ held o'.
Proof. apply flat_map_app. Qed.

Lemma held_In (x : logfile) (o : JS.obj bucket) :
  In x (held o) <-> exists k b, In (k, b) o /\ In x (b_files b).
Proof.
  unfold held. rewrite in_flat_map. split.
  - intros ([k b] & H1 & H2). now exists k, b.
  - intros (k & b & H1 & H2). now exists (k, b).
Qed.

Lemma set_own_perm (k : string) (v b : bucket) (file : logfile) (o : JS.obj bucket) :
  JS.own k o = Some b -> b_files v = b_files b ++ [file] ->
  Permutation (held (JS.set k v o)) (held o ++ [file]).
Proof.
  intros Ho Hv. induction o as [|[k' v'] o IH]; cbn [JS.own JS.set] in *;
    [discriminate|].
  destruct (String.eqb k k').
  - injection Ho as ->. unfold held. cbn [flat_map snd]. rewrite Hv.
    rewrite <- !app_assoc. apply Permutation_app_head, Permutation_app_comm.
  - unfold held in *. cbn [flat_map snd]. rewrite <- app_assoc.
    apply Permutation_app_head, IH, Ho.
Qed.

Lemma grouped_empty : grouped [] [].
Proof.
  unfold grouped, held, keyed, clear_of_prototype. cbn [map flat_map].
  split; [constructor|]. split; [constructor|]. split.
  - intros k b [].
  - intros k [].
Qed.

(** One turn of the grouping loop on a name that is no member of
    [Object.prototype]. *)
Lemma add_file_grouped (seen : list logfile) (o : JS.obj bucket) (file : logfile) :
  grouped seen o ->
  ~ In (groupKey (name file)) (@JS.proto_keys) ->
  exists o', add_file (Some o) file = Some o' /\ grouped (seen ++ [file]) o'.
Proof.
  intros (Hnd & Hperm & Hkey & Hclear) Hproto. cbn [add_file]. unfold JS.get.
  set (k := groupKey (name file)) in *.
  destruct (JS.own k o) as [b|] eqn:Ho.
  - set (v := {| b_groupName := b_groupName b; b_files := b_files b ++ [file] |}).
    exists (JS.set k v o). split; [reflexivity|].
    assert (Hb : In (k, b) o) by now apply JSFacts.own_In.
    assert (Hkeys : map fst (JS.set k v o) = map fst o)
      by exact (@OrderFacts.set_keys_old _ k v b o Ho).
    split; [now rewrite Hkeys|].
    split; [rewrite (@set_own_perm k v b file o Ho eq_refl);
            now apply Permutation_app_tail|].
    split.
    + intros k0 b0 Hin. apply SidecarFacts.set_In in Hin as [E|Hin];
        [|now apply Hkey].
      injection E as -> ->. destruct (Hkey k b Hb) as (K1 & K2 & K3).
      cbn [v b_groupName b_files]. repeat split.
      * exact K1.
      * now destruct (b_files b).
      * intros x Hx. apply in_app_iff in Hx as [Hx|[<-|[]]];
          [now apply K3|reflexivity].
    + intros k0. rewrite Hkeys. apply Hclear.
  - destruct (existsb (String.eqb k) (@JS.proto_keys)) eqn:E.
    { exfalso. now apply Hproto, proto_key_spec. }
    set (v := {| b_groupName := k; b_files := [file] |}).
    exists (JS.set k v o). split; [reflexivity|].
    rewrite (@OrderFacts.set_keys_new _ k v o Ho).
    split.
    { rewrite map_app. cbn [map fst]. apply NoDup_app.
      - exact Hnd.
      - repeat constructor. intros [].
      - intros x Hx [<-|[]]. now apply OrderFacts.own_None in Ho. }
    split.
    { rewrite held_app. apply Permutation_app; [exact Hperm|].
      unfold held. cbn [flat_map snd b_files app v]. reflexivity. }
    split.
    + intros k0 b0 Hin. apply in_app_iff in Hin as [Hin|[E'|[]]];
        [now apply Hkey|].
      injection E' as <- <-. cbn [v b_groupName b_files]. repeat split.
      * discriminate.
      * intros x [<-|[]]. reflexivity.
    + intros k0. rewrite map_app, in_app_iff. cbn [map fst In].
      intros [H|[<-|[]]]; [now apply Hclear|exact Hproto].
Qed.

(** One turn on a name that is a member of [Object.prototype]. *)
Lemma add_file_prototype (seen : list logfile) (o : JS.obj bucket) (file : logfile) :
  grouped seen o ->
  In (groupKey (name file)) (@JS.proto_keys) ->
  add_file (Some o) file = None.
Proof.
  intros (_ & _ & _ & Hclear) Hproto. cbn [add_file]. unfold JS.get.
  destruct (JS.own (groupKey (name file)) o) as [b|] eqn:Ho.
  - exfalso. apply (Hclear (groupKey (name file))); [|exact Hproto].
    apply JSFacts.own_In in Ho. apply in_map_iff. now exists (groupKey (name file), b).
  - apply proto_key_spec in Hproto. now rewrite Hproto.
Qed.

Lemma fold_add_file_None (files : list logfile) :
  fold_left add_file files None = None.
Proof. induction files as [|f files IH]; [reflexivity|exact IH]. Qed.

Lemma fold_add_file_grouped (files seen : list logfile) (o : JS.obj bucket) :
  grouped seen o ->
  (Exists (fun x => In (groupKey (name x)) (@JS.proto_keys)) files
   /\ fold_left add_file files (Some o) = None)
  \/ (Forall (fun x => ~ In (groupKey (name x)) (@JS.proto_keys)) files
      /\ exists o', fold_left add_file files (Some o) = Some o'
                    /\ grouped (seen ++ files) o').
Proof.
  revert seen o. induction files as [|file files IH]; intros seen o Hg.
  - right. split; [constructor|]. exists o. now rewrite app_nil_r.
  - cbn [fold_left].
    destruct (in_dec string_dec (groupKey (name file)) (@JS.proto_keys)) as [Hp|Hp].
    + left. split; [now left|].
      rewrite (add_file_prototype file Hg Hp). apply fold_add_file_None.
    + destruct (add_file_grouped file Hg Hp) as (o1 & E1 & Hg1). rewrite E1.
      destruct (IH _ _ Hg1) as [[Hex Hn]|[Hall (o' & E' & Hg')]].
      * left. split; [now right|exact Hn].
      * right. split; [now constructor|]. exists o'. split; [exact E'|].
        now rewrite <- app_assoc in Hg'.
Qed.

(** What an answer of the route was built from. *)
Lemma respond_Ok (cmp : string -> string -> Z) (allFiles : list logfile) (r : result) :
  respond cmp allFiles = Ok r ->
  exists o,
    grouped allFiles o
    /\ groups r = JS.sort (by_groupName cmp) (map make_group (JS.entries o))
    /\ totalFiles r = List.length allFiles
    /\ totalGroups r = List.length (groups r).
Proof.
  unfold respond.
  destruct (fold_left add_file allFiles (Some [])) as [o|] eqn:E; [|discriminate].
  intros H. injection H as <-. exists o. cbn [groups totalFiles totalGroups].
  split; [|repeat split].
  destruct (fold_add_file_grouped allFiles grouped_empty)
    as [[_ E']|[_ (o' & E' & Hg)]].
  - discriminate (eq_trans (eq_sym E) E').
  - injection (eq_trans (eq_sym E) E') as ->. exact Hg.
Qed.

Lemma scan_Ok (cmp : string -> string -> Z) (folders : list folder) (r : result) :
  scan cmp (Some folders) = Ok r -> respond cmp (collect folders) = Ok r.
Proof. destruct folders; [discriminate|exact (fun H => H)]. Qed.

Lemma group_In (cmp : string -> string -> Z) (o : JS.obj bucket) (g : loggroup) :
  In g (JS.sort (by_groupName cmp) (map make_group (JS.entries o))) <->
  exists k b, In (k, b) o /\ g = make_group (k, b).
Proof.
  rewrite JSFacts.sort_In, in_map_iff. split.
  - intros ([k b] & <- & H). apply (proj1 (JSFacts.entries_In _ _)) in H.
    exists k, b. split; [exact H|reflexivity].
  - intros (k & b & H & ->). exists (k, b). split; [reflexivity|].
    exact (proj2 (JSFacts.entries_In _ _) H).
Qed.

Lemma files_perm (kv : string * bucket) :
  Permutation (files (make_group kv)) (b_files (snd kv)).
Proof. apply OrderFacts.sort_perm. Qed.

Lemma flat_map_map (A B C : Type) (f : A -> B) (g : B -> list C) (l : list A) :
  flat_map g (map f l) = flat_map (fun x => g (f x)) l.
Proof. induction l as [|x l IH]; [reflexivity|]. cbn [map flat_map]. now rewrite IH. Qed.

Lemma groups_perm (cmp : string -> string -> Z) (o : JS.obj bucket) :
  Permutation
    (flat_map files (JS.sort (by_groupName cmp) (map make_group (JS.entries o))))
    (held o).
Proof.
  rewrite (OrderFacts.flat_map_perm files (OrderFacts.sort_perm (by_groupName cmp) _)).
  rewrite flat_map_map.
  rewrite (OrderFacts.flat_map_perm_each _ (fun kv => b_files (snd kv)) _ files_perm).
  apply OrderFacts.flat_map_perm, OrderFacts.entries_perm.
Qed.

Lemma length_flat_map_sum (A B : Type) (f : A -> list B) (l : list A) :
  List.length (flat_map f l) = list_sum (map (fun x => List.length (f x)) l).
Proof.
  induction l as [|x l IH]; [reflexivity|].
  cbn [flat_map map list_sum]. now rewrite length_app, IH.
Qed.

Lemma total_bytes_perm (l l' : list logfile) :
  Permutation l l' -> total_bytes l = total_bytes l'.
Proof.
  induction 1 as [|x l l' _ IH|x y l|l l' l'' _ IH1 _ IH2]; cbn [total_bytes fold_right].
  - reflexivity.
  - unfold total_bytes in IH. now rewrite IH.
  - lia.
  - congruence.
Qed.

Lemma fold_sizes (l : list logfile) (sum : N) :
  fold_left (fun sum f => (sum + size f)%N) l sum = (sum + total_bytes l)%N.
Proof.
  revert sum. induction l as [|x l IH]; intros sum; cbn [fold_left total_bytes fold_right].
  - lia.
  - rewrite IH. unfold total_bytes. lia.
Qed.

Lemma fold_latest (l : list logfile) (latest : Z) :
  let newest :=
    fold_left (fun latest f => if (modified f >? latest)%Z then modified f else latest)
              l latest in
  (latest <= newest)%Z
  /\ (forall x, In x l -> (modified x <= newest)%Z)
  /\ (newest = latest \/ exists x, In x l /\ modified x = newest).
Proof.
  revert latest. induction l as [|y l IH]; intros latest; cbn [fold_left].
  - repeat split; [lia|intros x []|now left].
  - cbv zeta in IH.
    destruct (Z.gtb_spec (modified y) latest) as [Hgt|Hle].
    + destruct (IH (modified y)) as (H1 & H2 & H3). repeat split.
      * lia.
      * intros x [<-|Hx]; [exact H1|now apply H2].
      * right. destruct H3 as [->|(x & Hx & E)]; [exists y; split; [now left|reflexivity]|].
        exists x. split; [now right|exact E].
    + destruct (IH latest) as (H1 & H2 & H3). repeat split.
      * exact H1.
      * intros x [<-|Hx]; [lia|now apply H2].
      * destruct H3 as [->|(x & Hx & E)]; [now left|].
        right. exists x. split; [now right|exact E].
Qed.

Lemma dedup_from_spec (xs seen : list string) :
  NoDup (JS.dedup_from seen xs)
  /\ forall x, In x (JS.dedup_from seen xs) <-> In x xs /\ ~ In x seen.
Proof.
  revert seen. induction xs as [|y xs IH]; intros seen; cbn [JS.dedup_from].
  - split; [constructor|]. intros x. cbn. tauto.
  - destruct (existsb (String.eqb y) seen) eqn:E.
    + destruct (IH seen) as [Hnd Hin]. split; [exact Hnd|].
      intros x. rewrite Hin. cbn [In]. split; [tauto|].
      intros [[<-|Hx] Hs]; [|tauto]. exfalso. apply Hs.
      apply existsb_exists in E as (z & Hz & Heq). apply String.eqb_eq in Heq. now subst.
    + destruct (IH (y :: seen)) as [Hnd Hin].
      assert (Hy : ~ In y seen).
      { intros Hs. apply not_true_iff_false in E. apply E, existsb_exists.
        exists y. split; [exact Hs|apply String.eqb_refl]. }
      split.
      * constructor; [|exact Hnd]. rewrite Hin. cbn [In]. tauto.
      * intros x. cbn [In]. rewrite Hin. cbn [In].
        destruct (string_dec y x) as [->|Hne]; tauto.
Qed.

Lemma sorted_last (A : Type) (R : A -> A -> Prop) (l : list A) (x : A) :
  StronglySorted R (l ++ [x]) -> forall y, In y l -> R y x.
Proof.
  induction l as [|z l IH]; cbn [app]; [intros _ y []|].
  intros Hs. inversion Hs as [|? ? Hs' Hall]; subst.
  intros y [<-|Hy]; [|now apply IH].
  rewrite Forall_forall in Hall. apply Hall, in_app_iff. right. now left.
Qed.

End ScanMoreFacts.

(** X1. An answer of the scan files every collected log exactly once: the
    files of its groups, taken together, are the collected files in some
    order; no group is empty; the counts of the answer are those of the
    groups; and the sizes of the groups add up to the size of what was
    collected. *)
Theorem scan_files_each_log_once
  (localeCompareBase : string -> string -> Z) (folders : list Scan.folder)
  (r : Scan.result) :
  Scan.scan localeCompareBase (Some folders) = Ok r ->
  Permutation (flat_map Scan.files (Scan.groups r)) (Scan.collect folders)
  /\ Forall (fun g => Scan.files g <> []
                      /\ Scan.fileCount g = List.length (Scan.files g))
            (Scan.groups r)
  /\ Scan.totalFiles r = list_sum (map Scan.fileCount (Scan.groups r))
  /\ Scan.totalGroups r = List.length (Scan.groups r)
  /\ fold_right N.add 0%N (map Scan.totalSize (Scan.groups r))
     = ScanMore.total_bytes (Scan.collect folders).
Proof.
  intros H. apply ScanMoreFacts.scan_Ok, ScanMoreFacts.respond_Ok in H
    as (o & (Hnd & Hperm & Hkey & Hclear) & Hg & Hf & Hn).
  assert (Hp : Permutation (flat_map Scan.files (Scan.groups r)) (Scan.collect folders)).
  { rewrite Hg. now rewrite ScanMoreFacts.groups_perm. }
  assert (Hall : Forall (fun g => Scan.files g <> []
                      /\ Scan.fileCount g = List.length (Scan.files g))
                   (Scan.groups r)).
  { apply Forall_forall. intros g Hin. rewrite Hg in Hin.
    apply ScanMoreFacts.group_In in Hin as (k & b & Hin & ->).
    split; [|reflexivity]. intros E.
    destruct (Hkey k b Hin) as (_ & Hne & _). apply Hne.
    apply Permutation_nil. rewrite <- E.
    apply (ScanMoreFacts.files_perm (k, b)). }
  repeat split; [exact Hp|exact Hall| |exact Hn|].
  - rewrite Hf, <- (Permutation_length Hp), ScanMoreFacts.length_flat_map_sum.
    f_equal. apply map_ext_in. intros g Hin.
    rewrite Forall_forall in Hall. symmetry. now apply Hall.
  - rewrite <- (ScanMoreFacts.total_bytes_perm Hp).
    assert (Ht : forall g, In g (Scan.groups r) ->
                   Scan.totalSize g = ScanMore.total_bytes (Scan.files g)).
    { intros g Hin. rewrite Hg in Hin.
      apply ScanMoreFacts.group_In in Hin as (k & b & Hin & ->).
      cbn [Scan.make_group Scan.totalSize Scan.files].
      now rewrite ScanMoreFacts.fold_sizes. }
    clear - Ht. induction (Scan.groups r) as [|g gs IH]; [reflexivity|].
    cbn [map fold_right flat_map]. rewrite IH by (intros; apply Ht; now right).
    rewrite (Ht g) by now left.
    unfold ScanMore.total_bytes. rewrite fold_right_app.
    generalize (fold_right (fun x sum => (Scan.size x + sum)%N) 0%N
                  (flat_map Scan.files gs)).
    intros n. induction (Scan.files g) as [|x l IHl]; cbn [fold_right]; lia.
Qed.

(** X2. Two collected logs are filed in the same group of the answer
    exactly when the scan derives the same group key from their names, the
    group is named by that key, and no two groups share a name. *)
Theorem scan_groups_by_key
  (localeCompareBase : string -> string -> Z) (folders : list Scan.folder)
  (r : Scan.result) :
  Scan.scan localeCompareBase (Some folders) = Ok r ->
  NoDup (map Scan.groupName (Scan.groups r))
  /\ (forall g x, In g (Scan.groups r) -> In x (Scan.files g) ->
        Scan.groupKey (Scan.name x) = Scan.groupName g)
  /\ (forall x y, In x (Scan.collect folders) -> In y (Scan.collect folders) ->
        (Scan.groupKey (Scan.name x) = Scan.groupKey (Scan.name y) <->
         exists g, In g (Scan.groups r) /\ In x (Scan.files g) /\ In y (Scan.files g))).
Proof.
  intros H. apply ScanMoreFacts.scan_Ok, ScanMoreFacts.respond_Ok in H
    as (o & (Hnd & Hperm & Hkey & Hclear) & Hg & Hf & Hn).
  assert (Hname : forall g x, In g (Scan.groups r) -> In x (Scan.files g) ->
        Scan.groupKey (Scan.name x) = Scan.groupName g).
  { intros g x Hin Hx. rewrite Hg in Hin.
    apply ScanMoreFacts.group_In in Hin as (k & b & Hin & ->).
    cbn [Scan.make_group Scan.groupName fst].
    apply (Permutation_in _ (ScanMoreFacts.files_perm (k, b))) in Hx.
    now apply (Hkey k b Hin). }
  repeat split.
  - rewrite Hg.
    rewrite (Permutation_map Scan.groupName
               (OrderFacts.sort_perm (Scan.by_groupName localeCompareBase) _)).
    rewrite map_map.
    rewrite (map_ext _ fst) by reflexivity.
    rewrite (Permutation_map fst (OrderFacts.entries_perm o)). exact Hnd.
  - exact Hname.
  - intros E.
    apply (Permutation_in _ (Permutation_sym Hperm)) in H.
    apply (Permutation_in _ (Permutation_sym Hperm)) in H0.
    apply ScanMoreFacts.held_In in H as (k1 & b1 & Hin1 & Hx).
    apply ScanMoreFacts.held_In in H0 as (k2 & b2 & Hin2 & Hy).
    destruct (Hkey k1 b1 Hin1) as (_ & _ & K1).
    destruct (Hkey k2 b2 Hin2) as (_ & _ & K2).
    assert (k1 = k2) by (rewrite <- (K1 x Hx), <- (K2 y Hy); exact E). subst k2.
    assert (b1 = b2).
    { pose proof (@OrderFacts.In_own _ k1 b1 o Hnd Hin1) as O1.
      pose proof (@OrderFacts.In_own _ k1 b2 o Hnd Hin2) as O2. congruence. }
    subst b2. exists (Scan.make_group (k1, b1)). split.
    + rewrite Hg. apply ScanMoreFacts.group_In. now exists k1, b1.
    + split; apply (Permutation_in _ (Permutation_sym (ScanMoreFacts.files_perm (k1, b1))));
        assumption.
  - intros (g & Hin & Hx & Hy).
    now rewrite (Hname g x Hin Hx), (Hname g y Hin Hy).
Qed.

(** X3. Within every group of an answer the files come by falling roll
    number as [parseInt] reads it: the double nearest to the number after
    the last dot of a rolled name, and 0 for any other name.  A file
    never precedes one whose number reads larger. *)
Theorem scan_orders_rolls_descending
  (localeCompareBase : string -> string -> Z) (folders : list Scan.folder)
  (r : Scan.result) (g : Scan.loggroup) :
  Scan.scan localeCompareBase (Some folders) = Ok r ->
  In g (Scan.groups r) ->
  StronglySorted (OrderSpec.descending ScanMore.roll) (Scan.files g).
Proof.
  intros H Hin. apply ScanMoreFacts.scan_Ok, ScanMoreFacts.respond_Ok in H
    as (o & _ & Hg & _).
  rewrite Hg in Hin. apply ScanMoreFacts.group_In in Hin as (k & b & _ & ->).
  exact (OrderFacts.sort_descending ScanMore.roll (Scan.b_files b)).
Qed.

(** X4. Selecting a group of an answer opens the paths of all its files,
    in the order of the answer, and picks for tailing the last of them, a
    file of the group whose roll number, as [parseInt] reads it, is the
    smallest. *)
Theorem group_select_tails_lowest_roll
  (localeCompareBase : string -> string -> Z) (folders : list Scan.folder)
  (r : Scan.result) (g : Scan.loggroup) :
  Scan.scan localeCompareBase (Some folders) = Ok r ->
  In g (Scan.groups r) ->
  App.mergedFiles (App.handleGroupSelect g) = map Scan.path (Scan.files g)
  /\ exists x,
       In x (Scan.files g)
       /\ App.selectedFile (App.handleGroupSelect g) = Some (Scan.path x)
       /\ forall y, In y (Scan.files g) -> (ScanMore.roll x <= ScanMore.roll y)%Z.
Proof.
  intros H Hin. split; [reflexivity|].
  assert (Hs : StronglySorted (OrderSpec.descending ScanMore.roll) (Scan.files g)).
  { apply ScanMoreFacts.scan_Ok, ScanMoreFacts.respond_Ok in H
      as (o & _ & Hg & _).
    rewrite Hg in Hin. apply ScanMoreFacts.group_In in Hin as (k & b & _ & ->).
    exact (OrderFacts.sort_descending ScanMore.roll (Scan.b_files b)). }
  assert (Hne : Scan.files g <> []).
  { apply ScanMoreFacts.scan_Ok, ScanMoreFacts.respond_Ok in H
      as (o & (_ & _ & Hkey & _) & Hg & _).
    rewrite Hg in Hin. apply ScanMoreFacts.group_In in Hin as (k & b & Hin & ->).
    intros E. destruct (Hkey k b Hin) as (_ & Hn & _). apply Hn.
    apply Permutation_nil. rewrite <- E.
    apply (ScanMoreFacts.files_perm (k, b)). }
  destruct (exists_last Hne) as (front & x & E).
  exists x. rewrite E in Hs |- *. repeat split.
  - apply in_app_iff. right. now left.
  - cbn [App.handleGroupSelect App.selectedFile]. rewrite E.
    rewrite map_app, length_app. cbn [map List.length].
    rewrite nth_error_app2 by lia.
    replace (List.length (map Scan.path front) + 1 - 1
             - List.length (map Scan.path front)) with 0 by lia.
    reflexivity.
  - intros y Hy. apply in_app_iff in Hy as [Hy|[<-|[]]]; [|lia].
    exact (@ScanMoreFacts.sorted_last _ _ front x Hs y Hy).
Qed.

(** X5. Once the logs are collected, the grouping loop throws exactly
    when one of them has the name of a member of [Object.prototype] as
    its group key, as constructor.log has: the route then answers a 500
    with the text of the TypeError, and from there on it answers a result
    exactly when no collected log has such a key.  So a scan that is
    answered has collected no such log. *)
Theorem scan_fails_on_prototype_names
  (localeCompareBase : string -> string -> Z) (allFiles : list Scan.logfile) :
  ((exists x, In x allFiles /\ In (Scan.groupKey (Scan.name x)) (@JS.proto_keys))
   <-> Scan.respond localeCompareBase allFiles = Fail 500 TYPE_ERROR_PUSH)
  /\ ((forall x, In x allFiles ->
         ~ In (Scan.groupKey (Scan.name x)) (@JS.proto_keys))
      <-> exists r, Scan.respond localeCompareBase allFiles = Ok r)
  /\ (forall folders r,
        Scan.scan localeCompareBase (Some folders) = Ok r ->
        forall x, In x (Scan.collect folders) ->
                  ~ In (Scan.groupKey (Scan.name x)) (@JS.proto_keys)).
Proof.
  assert (Hall : forall files,
            ((exists x, In x files
                        /\ In (Scan.groupKey (Scan.name x)) (@JS.proto_keys))
             <-> Scan.respond localeCompareBase files = Fail 500 TYPE_ERROR_PUSH)
            /\ ((forall x, In x files ->
                   ~ In (Scan.groupKey (Scan.name x)) (@JS.proto_keys))
                <-> exists r, Scan.respond localeCompareBase files = Ok r)).
  { intros files. unfold Scan.respond.
    destruct (ScanMoreFacts.fold_add_file_grouped files ScanMoreFacts.grouped_empty)
      as [[Hex E]|[Hall (o & E & _)]];
      destruct (fold_left Scan.add_file files (Some [])) as [o1|] eqn:E1;
      try discriminate (eq_trans (eq_sym E1) E).
    - apply Exists_exists in Hex. split.
      + split; [reflexivity|]. intros _. exact Hex.
      + split; [|intros (r & Hr); discriminate Hr].
        intros Hno. destruct Hex as (x & Hx & Hp). now destruct (Hno x Hx).
    - rewrite Forall_forall in Hall. split.
      + split; [|discriminate]. intros (x & Hx & Hp). now destruct (Hall x Hx).
      + split; [|intros _; exact Hall]. intros _. eexists. reflexivity. }
  destruct (Hall allFiles) as [H1 H2]. split; [exact H1|]. split; [exact H2|].
  intros folders r H. apply ScanMoreFacts.scan_Ok in H.
  apply (proj2 (Hall (Scan.collect folders))). now exists r.
Qed.

(** X6. The summary of every group of an answer agrees with its files:
    the total size is the sum of their sizes, the last modification is the
    latest of theirs and never before the epoch, and the directories are
    those of the files, each listed once. *)
Theorem scan_group_summary
  (localeCompareBase : string -> string -> Z) (folders : list Scan.folder)
  (r : Scan.result) (g : Scan.loggroup) :
  Scan.scan localeCompareBase (Some folders) = Ok r ->
  In g (Scan.groups r) ->
  Scan.totalSize g = ScanMore.total_bytes (Scan.files g)
  /\ (forall x, In x (Scan.files g) -> (Scan.modified x <= Scan.lastModified g)%Z)
  /\ (Scan.lastModified g = 0%Z
      \/ exists x, In x (Scan.files g) /\ Scan.modified x = Scan.lastModified g)
  /\ NoDup (Scan.directories g)
  /\ (forall d, In d (Scan.directories g) <->
                exists x, In x (Scan.files g) /\ Scan.dir x = d).
Proof.
  intros H Hin. apply ScanMoreFacts.scan_Ok, ScanMoreFacts.respond_Ok in H
    as (o & _ & Hg & _).
  rewrite Hg in Hin. apply ScanMoreFacts.group_In in Hin as (k & b & _ & ->).
  cbn [Scan.make_group Scan.totalSize Scan.files Scan.lastModified Scan.directories].
  set (sorted := JS.sort Scan.by_roll (Scan.b_files b)).
  destruct (ScanMoreFacts.fold_latest sorted 0) as (_ & L2 & L3).
  destruct (ScanMoreFacts.dedup_from_spec (map Scan.dir sorted) []) as (D1 & D2).
  repeat split.
  - now rewrite ScanMoreFacts.fold_sizes.
  - exact L2.
  - exact L3.
  - exact D1.
  - intros Hd. apply D2 in Hd as [Hd _]. apply in_map_iff in Hd as (x & E & Hx).
    now exists x.
  - intros (x & Hx & E). apply D2. split; [|intros []].
    apply in_map_iff. now exists x.
Qed.

(** X7. When the collation orders names consistently, the groups of an
    answer come in its order: no group is listed after one that its name
    should precede. *)
Theorem scan_orders_groups_by_name
  (localeCompareBase : string -> string -> Z) (folders : list Scan.folder)
  (r : Scan.result) :
  OrderSpec.consistent localeCompareBase ->
  Scan.scan localeCompareBase (Some folders) = Ok r ->
  StronglySorted
    (fun a b => (localeCompareBase (Scan.groupName a) (Scan.groupName b) <= 0)%Z)
    (Scan.groups r).
Proof.
  intros [Htot Htrans] H. apply ScanMoreFacts.scan_Ok, ScanMoreFacts.respond_Ok in H
    as (o & _ & Hg & _).
  rewrite Hg. apply OrderFacts.sort_sorted; unfold Scan.by_groupName.
  - intros a b c. apply Htrans.
  - intros x y E. apply Z.ltb_ge in E. exact E.
  - intros x y E. apply Z.ltb_lt in E. now apply Htot.
Qed.

(** X8. The group key the scan derives from a file name is the name
    itself, or the name without its extension (log, txt, out or err, in
    any letter case) and, for a rolled file, without the roll number after
    it: the key is never empty and is always the beginning of the name. *)
Theorem scan_group_key_strips_extension (file_name : string) :
  Scan.groupKey file_name = file_name
  \/ KeySpec.stripped file_name (Scan.groupKey file_name).
Proof.
  unfold Scan.groupKey.
  destruct (Regex.exec Scan.ROLLED_REGEX file_name) as [m|] eqn:R.
  - right. now apply KeyFacts.rolled_key.
  - destruct (Regex.exec Scan.BASE_REGEX file_name) as [m|] eqn:B.
    + right. now apply KeyFacts.base_key.
    + now left.
Qed.

Lemma scan_files_each_log_once_witness :
  Permutation (flat_map Scan.files (Scan.groups ScanMore.sample_answer))
              (Scan.collect [ScanMore.two_families])
  /\ Scan.totalFiles ScanMore.sample_answer = 5
  /\ Scan.totalGroups ScanMore.sample_answer = 3.
Proof.
  destruct (@scan_files_each_log_once ScanMore.by_length [ScanMore.two_families]
              ScanMore.sample_answer ltac:(vm_compute; reflexivity))
    as (P & _ & _ & _ & _).
  split; [exact P|]. split; reflexivity.
Defined.

Lemma scan_groups_by_key_witness :
  NoDup (map Scan.groupName (Scan.groups ScanMore.sample_answer)).
Proof.
  exact (proj1 (@scan_groups_by_key ScanMore.by_length [ScanMore.two_families]
                  ScanMore.sample_answer ltac:(vm_compute; reflexivity))).
Defined.

Lemma scan_orders_rolls_descending_witness :
  Forall (fun g => StronglySorted (OrderSpec.descending ScanMore.roll) (Scan.files g))
         (Scan.groups ScanMore.sample_answer).
Proof.
  apply Forall_forall. intros g Hg.
  exact (@scan_orders_rolls_descending ScanMore.by_length [ScanMore.two_families]
           ScanMore.sample_answer g ltac:(vm_compute; reflexivity) Hg).
Defined.

Lemma group_select_tails_lowest_roll_witness :
  Forall (fun g => App.mergedFiles (App.handleGroupSelect g)
                   = map Scan.path (Scan.files g))
         (Scan.groups ScanMore.sample_answer).
Proof.
  apply Forall_forall. intros g Hg.
  exact (proj1 (@group_select_tails_lowest_roll ScanMore.by_length
                  [ScanMore.two_families] ScanMore.sample_answer g
                  ltac:(vm_compute; reflexivity) Hg)).
Defined.

Lemma scan_group_summary_witness :
  Forall (fun g => Scan.totalSize g = ScanMore.total_bytes (Scan.files g))
         (Scan.groups ScanMore.sample_answer).
Proof.
  apply Forall_forall. intros g Hg.
  exact (proj1 (@scan_group_summary ScanMore.by_length [ScanMore.two_families]
                  ScanMore.sample_answer g ltac:(vm_compute; reflexivity) Hg)).
Defined.

Lemma scan_orders_groups_by_name_witness :
  StronglySorted
    (fun a b => (ScanMore.by_length (Scan.groupName a) (Scan.groupName b) <= 0)%Z)
    (Scan.groups ScanMore.sample_answer).
Proof.
  apply (@scan_orders_groups_by_name ScanMore.by_length [ScanMore.two_families]
           ScanMore.sample_answer).
  - split; unfold ScanMore.by_length; intros; lia.
  - vm_compute; reflexivity.
Defined.


(* ===================================================================== *)
(** ** Reading: markers, composition, offsets *)
(* ===================================================================== *)

Module ReadFacts.
Import ReadMulti ReadSpec MergeSpec OrderSpec.

Lemma read_lines_one_line (bytes : list ascii) : Forall one_line (read_lines bytes).
Proof.
  apply Forall_forall. intros l Hl. unfold read_lines in Hl.
  apply SplitFacts.drop_last_empty_incl in Hl.
  pose proof (SplitFacts.split_lines_one_line
                (JS.toString_utf8
                   (JS.read_into_buffer bytes
                      (N.min (N.of_nat (List.length bytes)) MAX_READ) 0))) as F.
  rewrite Forall_forall in F. now apply F.
Qed.

(** The loop from any accumulator: what it adds is what a merge from
    nothing yields, moved behind what is there. *)
Lemma fold_step_from (fs : filesystem) (qs : list string) (a : acc) :
  fold_left (step fs) qs a
  = {| allLines := allLines a ++ allLines (merge fs qs);
       totalSize := (totalSize a + totalSize (merge fs qs))%N;
       fileMarkers :=
         fileMarkers a
         ++ map (shifted (List.length (allLines a))) (fileMarkers (merge fs qs)) |}.
Proof.
  induction qs as [|q qs IH] using rev_ind.
  - cbn [fold_left merge empty allLines totalSize fileMarkers map].
    rewrite !app_nil_r, N.add_0_r. now destruct a.
  - rewrite fold_left_app. cbn [fold_left]. rewrite IH, MergeFacts.merge_snoc.
    unfold step. destruct (fs q) as [[bytes|n]|]; try reflexivity.
    cbn [allLines totalSize fileMarkers]. f_equal.
    + now rewrite app_assoc.
    + lia.
    + rewrite map_app, <- app_assoc. cbn [map shifted fileName path startLine lineCount].
      now rewrite length_app.
Qed.

Lemma firstn_skipn_app (A : Type) (s c : nat) (l l' : list A) :
  s + c <= List.length l ->
  firstn c (skipn s (l ++ l')) = firstn c (skipn s l).
Proof.
  intros H. rewrite skipn_app, firstn_app, length_skipn.
  replace (c - (List.length l - s)) with 0 by lia.
  replace (s - List.length l) with 0 by lia.
  cbn [firstn skipn]. now rewrite app_nil_r.
Qed.

Lemma markers_in_merge (fs : filesystem) (ps : list string) :
  map path (fileMarkers (merge fs ps)) = filter (is_file fs) ps
  /\ forall m, In m (fileMarkers (merge fs ps)) ->
       startLine m + lineCount m <= List.length (allLines (merge fs ps))
       /\ fileName m = JS.path_basename (path m)
       /\ exists bytes, fs (path m) = Some (File bytes)
                        /\ lines_under m (allLines (merge fs ps)) = read_lines bytes.
Proof.
  induction ps as [|fp ps [IH1 IH2]] using rev_ind.
  - split; [reflexivity|intros m []].
  - rewrite MergeFacts.merge_snoc, filter_app. cbn [filter]. unfold step, is_file at 2.
    destruct (fs fp) as [[bytes|n]|] eqn:E; rewrite ?app_nil_r; try (split; assumption).
    cbn [allLines fileMarkers]. split.
    + rewrite map_app, IH1. reflexivity.
    + intros m Hm. apply in_app_iff in Hm as [Hm|[<-|[]]].
      * destruct (IH2 m Hm) as (B & F & bytes' & Hb & L).
        rewrite length_app. split; [lia|]. split; [exact F|].
        exists bytes'. split; [exact Hb|].
        unfold lines_under in *. now rewrite firstn_skipn_app.
      * cbn [startLine lineCount fileName path]. rewrite length_app.
        split; [lia|]. split; [reflexivity|]. exists bytes. split; [exact E|].
        unfold lines_under. cbn [startLine lineCount].
        rewrite skipn_app, Nat.sub_diag, skipn_all. cbn [skipn app].
        apply firstn_all.
Qed.

Lemma merge_one_line (fs : filesystem) (ps : list string) :
  Forall one_line (allLines (merge fs ps)).
Proof.
  induction ps as [|fp ps IH] using rev_ind; [constructor|].
  rewrite MergeFacts.merge_snoc. unfold step.
  destruct (fs fp) as [[bytes|n]|]; try exact IH.
  cbn [allLines]. apply Forall_app. split; [exact IH|apply read_lines_one_line].
Qed.

(** A read inside the file returns the bytes asked for, with no padding. *)
Lemma read_inside (bytes : list ascii) (len pos : N) :
  (pos + len <= N.of_nat (List.length bytes))%N ->
  JS.read_into_buffer bytes len pos = byte_range pos (pos + len) bytes.
Proof.
  intros H. unfold JS.read_into_buffer, byte_range.
  replace (pos + len - pos)%N with len by lia.
  rewrite length_firstn, length_skipn.
  replace (N.to_nat len - Nat.min (N.to_nat len) (List.length bytes - N.to_nat pos))
    with 0 by lia.
  apply app_nil_r.
Qed.

Lemma drop_last_empty_app (X Y : list string) :
  Y <> [] ->
  drop_last_empty (X ++ Y) = X ++ drop_last_empty Y.
Proof.
  intros HY. destruct (exists_last HY) as (front & y & ->).
  unfold drop_last_empty. rewrite app_assoc, !rev_app_distr. cbn [rev app].
  destruct (String.eqb y EmptyString).
  - now rewrite <- rev_app_distr, !rev_involutive.
  - now rewrite <- app_assoc.
Qed.

(** The lines of a text that ends with a line feed, then more text. *)
Lemma lines_of_cut (a b : list ascii) :
  b <> [] ->
  lines_of (a ++ Chars.LF :: b) = lines_of (a ++ [Chars.LF]) ++ lines_of b.
Proof.
  intros Hb. unfold lines_of, JS.toString_utf8.
  destruct (SplitFacts.split_lines_cut a b) as (X & E1 & E2).
  rewrite E1, E2, SplitFacts.drop_last_empty_snoc.
  apply drop_last_empty_app. unfold JS.split_lines. apply SplitFacts.split_from_not_nil.
Qed.

End ReadFacts.

(** X9. Every marker of a merge stands for one regular file of the
    request: the markers follow the regular files among the paths, in
    order; a marker carries the base name of its path; and the merged
    lines from its start line, as many as its line count, are the lines
    read from the file at its path. *)
Theorem merge_markers_name_their_lines (fs : filesystem) (paths : list string) :
  map ReadMulti.path (ReadMulti.fileMarkers (ReadMulti.merge fs paths))
  = filter (ReadSpec.is_file fs) paths
  /\ forall m, In m (ReadMulti.fileMarkers (ReadMulti.merge fs paths)) ->
       ReadMulti.fileName m = JS.path_basename (ReadMulti.path m)
       /\ exists bytes,
            fs (ReadMulti.path m) = Some (File bytes)
            /\ ReadSpec.lines_under m (ReadMulti.allLines (ReadMulti.merge fs paths))
               = ReadMulti.read_lines bytes.
Proof.
  destruct (ReadFacts.markers_in_merge fs paths) as [H1 H2].
  split; [exact H1|]. intros m Hm. destruct (H2 m Hm) as (_ & F & R).
  split; [exact F|exact R].
Qed.

(** X10. Merging one list of paths after another is merging each list and
    putting the results together: the lines of the second follow those of
    the first, the sizes add up, and the markers of the second are moved
    down by the number of lines of the first. *)
Theorem merge_of_appended_paths (fs : filesystem) (ps qs : list string) :
  let a := ReadMulti.merge fs ps in
  let b := ReadMulti.merge fs qs in
  ReadMulti.merge fs (ps ++ qs)
  = {| ReadMulti.allLines := ReadMulti.allLines a ++ ReadMulti.allLines b;
       ReadMulti.totalSize := (ReadMulti.totalSize a + ReadMulti.totalSize b)%N;
       ReadMulti.fileMarkers :=
         ReadMulti.fileMarkers a
         ++ map (ReadSpec.shifted (List.length (ReadMulti.allLines a)))
                (ReadMulti.fileMarkers b) |}.
Proof.
  cbv zeta. unfold ReadMulti.merge at 1. rewrite fold_left_app.
  apply ReadFacts.fold_step_from.
Qed.

(** X11. No line answered by a merge or by a read holds a line feed. *)
Theorem answered_lines_hold_no_line_feed
  (fs : filesystem) (paths : list string) (filePath : option string) (offset : N) :
  Forall OrderSpec.one_line (ReadMulti.allLines (ReadMulti.merge fs paths))
  /\ match Read.read fs filePath offset with
     | Ok r => Forall OrderSpec.one_line (Read.lines r)
     | Fail _ _ => True
     end.
Proof.
  split; [apply ReadFacts.merge_one_line|].
  unfold Read.read. destruct filePath as [p|]; [|exact I].
  destruct (String.eqb p EmptyString); [exact I|].
  destruct (fs p) as [[bytes|n]|]; try exact I.
  destruct (N.of_nat (List.length bytes) <=? offset)%N; cbn [Read.lines];
    [constructor|].
  apply Forall_forall. intros l Hl. apply SplitFacts.drop_last_empty_incl in Hl.
  pose proof (SplitFacts.split_lines_one_line
                (JS.toString_utf8
                   (JS.read_into_buffer bytes
                      (N.min (N.of_nat (List.length bytes) - offset) MAX_READ)
                      offset))) as F.
  rewrite Forall_forall in F. now apply F.
Qed.

(** X12. A read from offset 0 answers the lines and the total size that a
    merge of that path alone answers. *)
Theorem read_agrees_with_merge_of_one
  (fs : filesystem) (p : string) (r : Read.result) :
  Read.read fs (Some p) 0 = Ok r ->
  exists m,
    ReadMulti.readMulti fs (Some [p]) = Ok m
    /\ ReadMulti.r_lines m = Read.lines r
    /\ ReadMulti.r_totalSize m = Read.totalSize r
    /\ ReadMulti.r_fileCount m = 1.
Proof.
  unfold Read.read. destruct (String.eqb p EmptyString); [discriminate|].
  destruct (fs p) as [[bytes|n]|] eqn:E; try discriminate.
  intros H. eexists. split; [reflexivity|].
  cbn [ReadMulti.r_lines ReadMulti.r_totalSize ReadMulti.r_fileCount].
  unfold ReadMulti.merge. cbn [fold_left]. unfold ReadMulti.step. rewrite E.
  cbn [ReadMulti.allLines ReadMulti.totalSize ReadMulti.fileMarkers ReadMulti.empty
       app List.length node_size].
  destruct (N.leb_spec (N.of_nat (List.length bytes)) 0) as [Hle|Hgt];
    injection H as <-; cbn [Read.lines Read.totalSize].
  - destruct bytes; [|cbn [List.length] in Hle; lia]. repeat split.
  - unfold ReadMulti.read_lines. rewrite N.sub_0_r. repeat split.
Qed.

(** X13. Whenever a read from an offset that is a natural number is
    answered, the path is a regular file, the size answered is its size
    and the offset answered is not past its end.  From an offset at or
    past the end the answer holds no line and the size as the offset;
    from an offset inside the file the offset answered lies further on,
    by the bytes left or by the cap, whichever is less, and the lines are
    those of exactly the bytes between the two offsets. *)
Theorem read_moves_offset_inside_file
  (fs : filesystem) (p : string) (offset : N) (r : Read.result) :
  Read.read fs (Some p) offset = Ok r ->
  exists bytes,
    fs p = Some (File bytes)
    /\ Read.totalSize r = N.of_nat (List.length bytes)
    /\ (Read.offset r <= Read.totalSize r)%N
    /\ ((Read.totalSize r <= offset)%N ->
        Read.lines r = [] /\ Read.offset r = Read.totalSize r)
    /\ ((offset < Read.totalSize r)%N ->
        Read.offset r = N.min (Read.totalSize r) (offset + MAX_READ)
        /\ (offset < Read.offset r)%N
        /\ Read.lines r
           = MergeSpec.lines_of (ReadSpec.byte_range offset (Read.offset r) bytes)).
Proof.
  unfold Read.read. destruct (String.eqb p EmptyString); [discriminate|].
  destruct (fs p) as [[bytes|d]|]; try discriminate.
  intros H. exists bytes. split; [reflexivity|]. revert H.
  destruct (N.leb_spec (N.of_nat (List.length bytes)) offset) as [Hle|Hgt];
    intros H; injection H as <-;
    cbn [Read.totalSize Read.offset Read.lines].
  - repeat split; lia.
  - assert (Hcap : (0 < MAX_READ)%N) by (vm_compute; reflexivity).
    revert Hcap. generalize MAX_READ. intros cap Hcap.
    split; [reflexivity|]. split; [lia|]. split; [lia|]. intros _.
    split; [lia|]. split; [lia|].
    unfold MergeSpec.lines_of. now rewrite ReadFacts.read_inside by lia.
Qed.

(** X14. Following the offset loses no line when the file ended with a
    line feed: for a file within the cap that ends with a line feed and
    then grows, the lines of a read from 0 before it grew, followed by the
    lines of a read from the offset answered then, are the lines of a read
    from 0 after it grew. *)
Theorem read_from_answered_offset
  (fs fs' : filesystem) (p : string) (old new : list ascii)
  (r1 r2 r3 : Read.result) :
  fs p = Some (File (old ++ [Chars.LF])) ->
  fs' p = Some (File ((old ++ [Chars.LF]) ++ new)) ->
  (N.of_nat (List.length ((old ++ [Chars.LF]) ++ new)) <= MAX_READ)%N ->
  Read.read fs (Some p) 0 = Ok r1 ->
  Read.read fs' (Some p) (Read.offset r1) = Ok r2 ->
  Read.read fs' (Some p) 0 = Ok r3 ->
  Read.lines r3 = Read.lines r1 ++ Read.lines r2.
Proof.
  intros E E'. unfold Read.read. generalize MAX_READ. intros cap Hcap.
  destruct (String.eqb p EmptyString); [discriminate|]. rewrite E, E'.
  rewrite !length_app in *. cbn [List.length] in *.
  set (n := List.length old) in *. set (k := List.length new) in *.
  assert (H1 : (N.of_nat (n + 1) <=? 0)%N = false) by (apply N.leb_gt; lia).
  assert (H3 : (N.of_nat (n + 1 + k) <=? 0)%N = false) by (apply N.leb_gt; lia).
  rewrite H1, H3. intros R1. injection R1 as <-. cbn [Read.offset Read.lines].
  rewrite !N.sub_0_r, !N.add_0_l.
  rewrite (N.min_l (N.of_nat (n + 1)) cap) by lia.
  rewrite (N.min_l (N.of_nat (n + 1 + k)) cap) by lia.
  rewrite (ReadFacts.read_inside (old ++ [Chars.LF]) (N.of_nat (n + 1)) 0)
    by (rewrite length_app; cbn [List.length]; fold n; lia).
  rewrite (ReadFacts.read_inside ((old ++ [Chars.LF]) ++ new) (N.of_nat (n + 1 + k)) 0)
    by (rewrite !length_app; cbn [List.length]; fold n k; lia).
  unfold ReadSpec.byte_range. rewrite !N.add_0_l, !N.sub_0_r.
  change (N.to_nat 0) with 0. cbn [skipn]. rewrite !Nat2N.id.
  rewrite !firstn_all2 by (rewrite ?length_app; cbn [List.length]; fold n k; lia).
  fold (MergeSpec.lines_of (old ++ [Chars.LF])).
  fold (MergeSpec.lines_of ((old ++ [Chars.LF]) ++ new)).
  destruct (N.leb_spec (N.of_nat (n + 1 + k)) (N.of_nat (n + 1))) as [Hle|Hgt];
    intros R2 R3; injection R2 as <-; injection R3 as <-; cbn [Read.lines].
  - assert (k = 0) by lia. destruct new; [|cbn [List.length] in k; subst k; lia].
    now rewrite !app_nil_r.
  - rewrite (N.min_l (N.of_nat (n + 1 + k) - N.of_nat (n + 1)) cap) by lia.
    rewrite (ReadFacts.read_inside ((old ++ [Chars.LF]) ++ new)
               (N.of_nat (n + 1 + k) - N.of_nat (n + 1)) (N.of_nat (n + 1)))
      by (rewrite !length_app; cbn [List.length]; fold n k; lia).
    unfold ReadSpec.byte_range.
    replace (N.of_nat (n + 1) + (N.of_nat (n + 1 + k) - N.of_nat (n + 1))
             - N.of_nat (n + 1))%N with (N.of_nat k) by lia.
    rewrite !Nat2N.id.
    rewrite skipn_app, skipn_all2 by (rewrite length_app; cbn [List.length]; fold n; lia).
    rewrite length_app. cbn [List.length app]. fold n.
    replace (n + 1 - (n + 1)) with 0 by lia. cbn [skipn].
    rewrite firstn_all2 by (fold k; lia). fold (MergeSpec.lines_of new).
    rewrite <- app_assoc. cbn [app].
    apply ReadFacts.lines_of_cut. intros ->. cbn [List.length] in k. subst k. lia.
Qed.

Lemma read_agrees_with_merge_of_one_witness :
  exists m,
    ReadMulti.readMulti ReadSpec.before_write (Some ["/logs/app.log"]) = Ok m
    /\ ReadMulti.r_lines m = ["one"; "two"].
Proof.
  destruct (@read_agrees_with_merge_of_one ReadSpec.before_write "/logs/app.log"
              ReadSpec.first_read eq_refl) as (m & Hm & L & _).
  exists m. split; [exact Hm|]. rewrite L. reflexivity.
Defined.

Lemma read_moves_offset_inside_file_witness :
  exists bytes,
    ReadSpec.after_write "/logs/app.log" = Some (File bytes)
    /\ (Read.offset ReadSpec.next_read <= Read.totalSize ReadSpec.next_read)%N.
Proof.
  destruct (@read_moves_offset_inside_file ReadSpec.after_write "/logs/app.log"
              8 ReadSpec.next_read eq_refl) as (bytes & Hfs & _ & Hle & _).
  exists bytes. split; [exact Hfs|exact Hle].
Defined.

Lemma read_from_answered_offset_witness :
  Read.lines ReadSpec.whole_read
  = Read.lines ReadSpec.first_read ++ Read.lines ReadSpec.next_read.
Proof.
  exact (@read_from_answered_offset ReadSpec.before_write ReadSpec.after_write
           "/logs/app.log"
           (MergeSpec.text "one" ++ [Chars.LF] ++ MergeSpec.text "two")
           ReadSpec.third_line
           ReadSpec.first_read ReadSpec.next_read ReadSpec.whole_read
           eq_refl eq_refl ltac:(vm_compute; discriminate)
           eq_refl eq_refl eq_refl).
Defined.


(* ===================================================================== *)
(** ** Tailing: what is sent, and what the client keeps *)
(* ===================================================================== *)

Module TailMoreFacts.
Import Tail TailSpec TailMore OrderSpec.

Lemma batch_well_formed (bytes : list ascii) :
  Forall (fun l => l <> EmptyString /\ one_line l) (batch_of bytes).
Proof.
  apply Forall_forall. intros l Hl. unfold batch_of in Hl.
  apply filter_In in Hl as [Hin Hne]. split.
  - intros ->. discriminate Hne.
  - pose proof (SplitFacts.split_lines_one_line (JS.toString_utf8 bytes)) as F.
    rewrite Forall_forall in F. now apply F.
Qed.

Lemma on_change_well_formed (fs : filesystem) (s : session) :
  Forall well_formed (snd (on_change fs s)).
Proof.
  unfold on_change. destruct (currentWatcher s); [|constructor].
  destruct (currentFile s) as [file|]; [|constructor].
  destruct (fs file) as [n|]; [|repeat constructor].
  destruct (lastSize s <? node_size n)%N.
  - destruct n as [bytes|d]; [|repeat constructor].
    set (new_bytes := JS.read_into_buffer bytes _ _).
    fold (batch_of new_bytes).
    destruct (batch_of new_bytes) as [|l ls] eqn:E; unfold Nat.ltb;
      cbn [List.length Nat.leb snd]; [constructor|].
    constructor; [|constructor]. split; [discriminate|].
    rewrite <- E. apply batch_well_formed.
  - destruct (node_size n <? lastSize s)%N; repeat constructor.
Qed.

Lemma on_message_well_formed (fs : filesystem) (s : session) (m : client_msg) :
  Forall well_formed (snd (on_message fs s m)).
Proof.
  unfold on_message. destruct m as [type path| | |message]; try (repeat constructor).
  destruct (is_type "tail" type).
  - destruct path as [p|]; [|constructor].
    destruct (String.eqb p EmptyString); [constructor|].
    destruct (fs p); repeat constructor.
  - destruct (is_type "stop-tail" type); [|constructor].
    destruct (currentWatcher s); repeat constructor.
Qed.

Lemma handle_well_formed (fs : filesystem) (s : session) (e : event) :
  Forall well_formed (snd (handle fs s e)).
Proof.
  destruct e as [m| |]; cbn [handle snd].
  - apply on_message_well_formed.
  - apply on_change_well_formed.
  - constructor.
Qed.

Lemma last_cons (A : Type) (x d : A) (l : list A) : last (x :: l) d = last l x.
Proof.
  revert x d. induction l as [|y l IH]; intros x d; [reflexivity|].
  change (last (x :: y :: l) d) with (last (y :: l) d).
  now rewrite (IH y d), (IH y x).
Qed.

(** Only a tail request changes the current file. *)
Lemma handle_current_file (fs : filesystem) (s : session) (e : event) :
  currentFile (fst (handle fs s e))
  = match tail_request e with
    | Some p => Some p
    | None => currentFile s
    end.
Proof.
  destruct s as [cw cf ls]. destruct e as [m| |]; cbn [handle tail_request].
  - unfold on_message. cbn [currentWatcher currentFile lastSize].
    destruct m as [type path| | |message]; cbn [fst currentFile]; try reflexivity.
    destruct (is_type "tail" type); cbn [andb].
    + destruct path as [p|]; [|reflexivity].
      destruct (String.eqb p EmptyString); cbn [negb]; [reflexivity|].
      now destruct (fs p).
    + destruct (is_type "stop-tail" type).
      * destruct cw; destruct path; reflexivity.
      * destruct path; reflexivity.
  - unfold on_change. cbn [currentWatcher currentFile lastSize].
    destruct cw as [w|]; [|reflexivity].
    destruct cf as [file|]; [|reflexivity].
    destruct (fs file) as [n|]; [|reflexivity].
    destruct (ls <? node_size n)%N.
    + destruct n as [bytes|d]; [|reflexivity].
      match goal with
      | |- context [if ?b then _ else _] => destruct b
      end; reflexivity.
    + destruct (node_size n <? ls)%N; reflexivity.
  - reflexivity.
Qed.

Lemma run_current_file (steps : list (filesystem * event)) (s : session) :
  currentFile (fst (run s steps))
  = last (map Some (requests steps)) (currentFile s).
Proof.
  revert s. induction steps as [|[fs e] steps IH]; intros s; [reflexivity|].
  cbn [run requests flat_map snd].
  pose proof (handle_current_file fs s e) as H.
  destruct (handle fs s e) as [s1 ms]. specialize (IH s1).
  destruct (run s1 steps) as [s2 ms']. cbn [fst] in *.
  rewrite IH, H. fold (requests steps).
  destruct (tail_request e) as [p|]; [|reflexivity].
  cbn [app map]. now rewrite last_cons.
Qed.

Lemma handle_watches_current (fs : filesystem) (s : session) (e : event) :
  watches_current s -> watches_current (fst (handle fs s e)).
Proof.
  unfold watches_current. destruct s as [cw cf ls].
  cbn [currentWatcher currentFile]. intros Hs.
  destruct e as [m| |]; cbn [handle].
  - unfold on_message. cbn [currentWatcher currentFile lastSize].
    destruct m as [type path| | |message]; cbn [fst currentWatcher currentFile];
      try exact Hs.
    destruct (is_type "tail" type).
    + destruct path as [p|]; [|exact Hs].
      destruct (String.eqb p EmptyString); [exact Hs|].
      destruct (fs p); cbn [fst currentWatcher currentFile]; [reflexivity|exact I].
    + destruct (is_type "stop-tail" type); [|exact Hs].
      destruct cw; cbn [fst currentWatcher currentFile]; exact I.
  - unfold on_change. cbn [currentWatcher currentFile lastSize].
    destruct cw as [w|]; [|exact I].
    destruct cf as [file|]; [|discriminate Hs].
    destruct (fs file) as [n|]; cbn [fst currentWatcher currentFile]; [|exact Hs].
    destruct (ls <? node_size n)%N.
    + destruct n as [bytes|d]; [|exact Hs].
      match goal with
      | |- context [if ?b then _ else _] => destruct b
      end; exact Hs.
    + destruct (node_size n <? ls)%N; exact Hs.
  - exact I.
Qed.

Lemma filter_non_empty_snoc (X : list string) :
  filter non_empty (X ++ [EmptyString]) = filter non_empty X.
Proof. rewrite filter_app. cbn [filter non_empty]. apply app_nil_r. Qed.

(** The batch of a run of bytes cut after a line feed is the batch of the
    first part followed by the batch of the second. *)
Lemma batch_of_cut (a b : list ascii) :
  batch_of ((a ++ [Chars.LF]) ++ b) = batch_of (a ++ [Chars.LF]) ++ batch_of b.
Proof.
  unfold batch_of, JS.toString_utf8. rewrite <- app_assoc. cbn [app].
  destruct (SplitFacts.split_lines_cut a b) as (X & E1 & E2).
  rewrite E1, E2, filter_non_empty_snoc. apply filter_app.
Qed.

Lemma batch_of_concat (chunks : list (list ascii)) :
  Forall ends_with_line_feed chunks ->
  batch_of (concat chunks) = flat_map batch_of chunks.
Proof.
  induction 1 as [|chunk chunks (a & ->) _ IH]; [reflexivity|].
  cbn [concat flat_map]. now rewrite batch_of_cut, IH.
Qed.

Lemma receive_sent_for (c : UseTail.state) (batch : list string) :
  UseTail.receive c (sent_for batch)
  = {| UseTail.tailLines := UseTail.tailLines c ++ batch;
       UseTail.reloads := UseTail.reloads c |}.
Proof.
  destruct batch as [|l ls]; cbn [sent_for UseTail.receive fold_left UseTail.onmessage].
  - rewrite app_nil_r. now destruct c.
  - reflexivity.
Qed.

Lemma holding_one (p : string) (n : node) : MergeSpec.holding [(p, n)] p = Some n.
Proof. cbn [MergeSpec.holding]. now rewrite String.eqb_refl. Qed.

Lemma follow_grows (p : string) (chunks : list (list ascii)) :
  Forall ends_with_line_feed chunks ->
  forall (bytes : list ascii) (c : UseTail.state),
    follow p bytes chunks (watching p (N.of_nat (List.length bytes))) c
    = (watching p (N.of_nat (List.length (bytes ++ concat chunks))),
       {| UseTail.tailLines := UseTail.tailLines c ++ flat_map batch_of chunks;
          UseTail.reloads := UseTail.reloads c |}).
Proof.
  induction 1 as [|chunk chunks (a & ->) _ IH]; intros bytes c.
  - cbn [follow concat flat_map]. rewrite !app_nil_r. now destruct c.
  - cbn [follow handle].
    rewrite (@TailFacts.on_change_grows
               (MergeSpec.holding [(p, File (bytes ++ a ++ [Chars.LF]))])
               (watching p (N.of_nat (List.length bytes))) p p
               (bytes ++ a ++ [Chars.LF]) eq_refl eq_refl
               (holding_one p _)).
    2:{ cbn [watching lastSize]. rewrite !length_app. cbn [List.length]. lia. }
    assert (Happ : appended (lastSize (watching p (N.of_nat (List.length bytes))))
                     (bytes ++ a ++ [Chars.LF]) = a ++ [Chars.LF]).
    { unfold appended. cbn [watching lastSize]. rewrite Nat2N.id.
      rewrite skipn_app, skipn_all, Nat.sub_diag. reflexivity. }
    rewrite Happ, receive_sent_for.
    change (resized (watching p (N.of_nat (List.length bytes)))
              (N.of_nat (List.length (bytes ++ a ++ [Chars.LF]))))
      with (watching p (N.of_nat (List.length (bytes ++ a ++ [Chars.LF])))).
    rewrite IH. cbn [UseTail.tailLines UseTail.reloads concat flat_map].
    now rewrite <- !app_assoc.
Qed.

End TailMoreFacts.

(** X15. Whatever happens on a connection, every batch of new lines the
    server sends is non-empty and none of its lines is empty or holds a
    line feed. *)
Theorem tail_batches_are_well_formed
  (s : Tail.session) (steps : list (filesystem * Tail.event)) :
  Forall TailMore.well_formed (snd (TailMore.run s steps)).
Proof.
  revert s. induction steps as [|[fs e] steps IH]; intros s; cbn [TailMore.run].
  - constructor.
  - pose proof (TailMoreFacts.handle_well_formed fs s e) as H.
    destruct (Tail.handle fs s e) as [s1 ms]. specialize (IH s1).
    destruct (TailMore.run s1 steps) as [s2 ms']. cbn [snd] in *.
    apply Forall_app. now split.
Qed.

(** X16. On every connection, after any events, the current file is the
    path of the last tail request received (none before the first), and
    an open watcher is on that path; with no watcher open a change of any
    file sends nothing and leaves the session as it is. *)
Theorem tail_watches_the_requested_file
  (steps : list (filesystem * Tail.event)) (fs : filesystem) :
  let s := fst (TailMore.run Tail.initial steps) in
  Tail.currentFile s = TailMore.last_request steps
  /\ (forall w, Tail.currentWatcher s = Some w ->
        TailMore.last_request steps = Some w)
  /\ (Tail.currentWatcher s = None -> Tail.handle fs s Tail.Change = (s, [])).
Proof.
  cbv zeta.
  assert (H : forall s, TailMore.watches_current s ->
                TailMore.watches_current (fst (TailMore.run s steps))).
  { induction steps as [|[fs' e] steps IH]; intros s Hs; cbn [TailMore.run].
    - exact Hs.
    - pose proof (@TailMoreFacts.handle_watches_current fs' s e Hs) as H1.
      destruct (Tail.handle fs' s e) as [s1 ms]. specialize (IH s1 H1).
      destruct (TailMore.run s1 steps) as [s2 ms']. exact IH. }
  specialize (H Tail.initial I). unfold TailMore.watches_current in H.
  assert (Hfile : Tail.currentFile (fst (TailMore.run Tail.initial steps))
                  = TailMore.last_request steps)
    by exact (TailMoreFacts.run_current_file steps Tail.initial).
  split; [exact Hfile|]. split.
  - intros w W. rewrite W in H. now rewrite <- Hfile.
  - intros W. cbn [Tail.handle]. unfold Tail.on_change. now rewrite W.
Qed.

(** X17. Tailing a growing log end to end: the client opens a connection
    and asks to tail a log; the log then grows by chunks that each end
    with a line feed, and a change is reported after each.  The server
    ends up watching the log at its full size, and the client holds the
    non-empty lines of all the bytes written since it asked, in order,
    without any reload. *)
Theorem tail_delivers_appended_lines
  (p : string) (base : list ascii) (chunks : list (list ascii)) :
  p <> EmptyString ->
  Forall TailMore.ends_with_line_feed chunks ->
  TailMore.tail_session p base chunks
  = (TailSpec.watching p (N.of_nat (List.length (base ++ concat chunks))),
     {| UseTail.tailLines := TailSpec.batch_of (concat chunks);
        UseTail.reloads := 0 |}).
Proof.
  intros Hp Hchunks. unfold TailMore.tail_session.
  cbn [Tail.handle Tail.on_message Tail.is_type].
  change (String.eqb "tail" "tail") with true. cbv iota.
  apply String.eqb_neq in Hp. rewrite Hp, TailMoreFacts.holding_one.
  cbn [UseTail.receive fold_left UseTail.onmessage node_size].
  change {| Tail.currentWatcher := Some p; Tail.currentFile := Some p;
            Tail.lastSize := N.of_nat (List.length base) |}
    with (TailSpec.watching p (N.of_nat (List.length base))).
  rewrite (@TailMoreFacts.follow_grows p chunks Hchunks base UseTail.opened).
  cbn [UseTail.opened UseTail.tailLines UseTail.reloads app].
  now rewrite (@TailMoreFacts.batch_of_concat chunks Hchunks).
Qed.


Lemma tail_delivers_appended_lines_witness :
  TailMore.tail_session TailSpec.log_path TailSpec.hundred
    [ReadSpec.two_lines; ReadSpec.third_line]
  = (TailSpec.watching TailSpec.log_path
       (N.of_nat (List.length
                    (TailSpec.hundred
                     ++ concat [ReadSpec.two_lines; ReadSpec.third_line]))),
     {| UseTail.tailLines :=
          TailSpec.batch_of (concat [ReadSpec.two_lines; ReadSpec.third_line]);
        UseTail.reloads := 0 |}).
Proof.
  apply tail_delivers_appended_lines.
  - discriminate.
  - repeat constructor.
    + exists (MergeSpec.text "one" ++ [Chars.LF] ++ MergeSpec.text "two"). reflexivity.
    + exists (MergeSpec.text "three"). reflexivity.
Defined.



(* ===================================================================== *)
(** ** The directory listing: what is shown, and in what order *)
(* ===================================================================== *)

Module BrowseMoreFacts.
Import Browse BrowseSpec BrowseMore OrderSpec.

(** The first loop, in closed form. *)
Lemma collect_exact (entries : list dirent) :
  collect entries
  = match stat_error entries with
    | Some message => inl message
    | None => inr (listed_folders entries, listed_files entries)
    end.
Proof.
  unfold listed_folders, listed_files.
  induction entries as [|e rest IH]; [reflexivity|].
  cbn [collect stat_error filter flat_map]. unfold visible_file, visible_folder.
  destruct (startsWith_dot (d_name e)); cbn [negb andb]; [exact IH|].
  destruct (d_isDirectory e); cbn [negb andb].
  - rewrite IH. now destruct (stat_error rest).
  - destruct (Regex.test LOG_FILE_REGEX (d_name e)); [|exact IH].
    destruct (d_stat e) as [st|message]; [|reflexivity].
    rewrite IH. now destruct (stat_error rest).
Qed.

Lemma listed_files_In (entries : list dirent) (f : file_item) :
  In f (listed_files entries) ->
  exists e st, In e entries /\ visible_file e = true /\ d_stat e = inl st
               /\ f = item_of e st.
Proof.
  unfold listed_files. rewrite in_flat_map. intros (e & He & Hf).
  destruct (visible_file e) eqn:V; [|destruct Hf].
  destruct (d_stat e) as [st|message] eqn:S; [|destruct Hf].
  destruct Hf as [<-|[]]. now exists e, st.
Qed.

Lemma listed_files_eligible (entries : list dirent) (f : file_item) :
  In f (listed_files entries) ->
  Regex.test LOG_FILE_REGEX (name f) = true /\ rollNumber f = None.
Proof.
  intros H. apply listed_files_In in H as (e & st & _ & V & _ & ->).
  unfold visible_file in V. apply andb_true_iff in V as [_ V]. now split.
Qed.

Lemma listed_files_plain (entries : list dirent) :
  map plain (listed_files entries) = listed_files entries.
Proof.
  rewrite <- (map_id (listed_files entries)) at 2. apply map_ext_in.
  intros f Hf. apply listed_files_In in Hf as (e & st & _ & _ & _ & ->). reflexivity.
Qed.

Lemma listed_files_names (entries : list dirent) :
  NoDup (map d_name entries) -> NoDup (map name (listed_files entries)).
Proof.
  induction entries as [|e rest IH]; [constructor|].
  cbn [map]. intros Hnd. inversion Hnd as [|? ? Hn Hrest]; subst.
  unfold listed_files. cbn [flat_map]. fold (listed_files rest).
  destruct (visible_file e); [|now apply IH].
  destruct (d_stat e) as [st|message]; [|now apply IH].
  cbn [app map item_of name]. constructor; [|now apply IH].
  intros Hin. apply Hn. apply in_map_iff in Hin as (f & E & Hf).
  apply listed_files_In in Hf as (e' & st' & He' & _ & _ & ->).
  cbn [item_of name] in E. rewrite <- E. now apply in_map.
Qed.

Lemma name_plain (l : list file_item) : map name (map plain l) = map name l.
Proof. rewrite map_map. now apply map_ext. Qed.

Lemma held_members_In (x : file_item) (o : JS.obj pending) :
  In x (held o) <-> exists k g, In (k, g) o /\ In x (members g).
Proof.
  unfold held. rewrite in_flat_map. split.
  - intros ([k g] & H1 & H2). now exists k, g.
  - intros (k & g & H1 & H2). now exists (k, g).
Qed.

Lemma numbered_set (k : string) (v : pending) (o : JS.obj pending) :
  numbered o ->
  (forall y, In y (rolled v) -> rolls_under k y) ->
  (forall b, base v = Some b -> rollNumber b = None) ->
  numbered (JS.set k v o).
Proof.
  intros Ho H1 H2 k0 g0 Hin. apply OrderFacts.set_In_inv in Hin.
  destruct Hin as [E|Hin]; [injection E as -> ->; now split|now apply (Ho k0 g0)].
Qed.

Lemma to_double_not_negative (n : N) : (0 <= JS.to_double n)%Z.
Proof.
  unfold JS.to_double. destruct (N.size n <=? 53)%N.
  - apply N2Z.is_nonneg.
  - apply Z.min_glb; [apply N2Z.is_nonneg|]. unfold JS.INFINITY.
    apply Z.pow_nonneg. lia.
Qed.

Lemma parseInt_not_negative (s : string) : (0 <= JS.parseInt s)%Z.
Proof. unfold JS.parseInt. apply to_double_not_negative. Qed.

(** One turn of the second loop on a file whose name was not met yet. *)
Lemma classify_sorts (files seen : list file_item) (a a' : grouping)
  (file : file_item) :
  sorted_out seen a ->
  ~ In (name file) (map name seen) ->
  Regex.test LOG_FILE_REGEX (name file) = true ->
  rollNumber file = None ->
  classify files (Some a) file = Some a' ->
  sorted_out (seen ++ [file]) a'.
Proof.
  intros (Hb & Hnum & Hperm & Hkeys) Hfresh Hel Hroll. cbn [classify].
  assert (Hgoal : forall o' st' (more : file_item),
            plain more = plain file ->
            based o' -> numbered o' ->
            Permutation (st' ++ held o') ((standalone a ++ held (groups a)) ++ [more]) ->
            NoDup (map fst o') ->
            sorted_out (seen ++ [file]) {| groups := o'; standalone := st' |}).
  { intros o' st' more Hm B N P K. split; [exact B|]. split; [exact N|].
    split; [|exact K].
    unfold all_items. cbn [groups standalone].
    rewrite (Permutation_map plain P), !map_app. cbn [map]. rewrite Hm.
    apply Permutation_app_tail. rewrite <- map_app. exact Hperm. }
  destruct (Regex.exec ROLLED_REGEX (name file)) as [m|] eqn:R.
  - destruct (KeyFacts.browse_rolled_shape _ R) as (digits & Hdig & Hname & Hg2).
    assert (Hmember : rolls_under (group_text 1 m)
                        {| name := name file; path := path file; size := size file;
                           modified := modified file;
                           rollNumber := Some (JS.parseInt (group_text 2 m)) |}).
    { exists digits. cbn [name rollNumber]. rewrite Hg2. auto. }
    set (member := {| name := name file; path := path file; size := size file;
                      modified := modified file;
                      rollNumber := Some (JS.parseInt (group_text 2 m)) |}).
    set (k := group_text 1 m).
    unfold push_rolled, JS.get.
    destruct (JS.own k (groups a)) as [g|] eqn:O.
    + intros H. injection H as <-.
      set (v := {| base := base g; rolled := rolled g ++ [member] |}).
      destruct (@BrowseFacts.set_keeps (groups a) k g v Hb (or_introl O))
        as (B & _ & _).
      { intros b Hbase. eapply Hb; eassumption. }
      { intros nm [H|(y & Hy & Hn)]; [now left|].
        right. exists y. split; [|exact Hn]. apply in_or_app. now left. }
      apply (Hgoal _ _ member eq_refl B).
      * apply numbered_set; [exact Hnum| |].
        -- intros y Hy. apply in_app_iff in Hy as [Hy|[<-|[]]].
           ++ apply JSFacts.own_In in O. now apply (Hnum k g O).
           ++ exact Hmember.
        -- intros b Hbase. apply JSFacts.own_In in O. now apply (Hnum k g O).
      * rewrite <- app_assoc. apply Permutation_app_head.
        apply (@OrderFacts.set_flat_old _ _ members k v g [member] (groups a) O).
        unfold members, v. cbn [rolled base base_list].
        rewrite <- !app_assoc. apply Permutation_app_head, Permutation_app_comm.
      * now apply OrderFacts.set_keys_NoDup.
    + destruct (existsb (String.eqb k) (@JS.proto_keys)); [discriminate|].
      intros H. injection H as <-.
      set (v := {| base := None; rolled := [member] |}).
      destruct (@BrowseFacts.set_keeps (groups a) k fresh v Hb
                  (or_intror (conj O eq_refl))) as (B & _ & _).
      { intros b Hbase. discriminate Hbase. }
      { intros nm Hin. now apply BrowseFacts.in_group_fresh in Hin. }
      apply (Hgoal _ _ member eq_refl B).
      * apply numbered_set; [exact Hnum| |].
        -- intros y [<-|[]]. exact Hmember.
        -- intros b Hbase. discriminate Hbase.
      * rewrite <- app_assoc. apply Permutation_app_head.
        unfold held. rewrite (@OrderFacts.set_flat_new _ _ members k v (groups a) O).
        reflexivity.
      * now apply OrderFacts.set_keys_NoDup.
  - rewrite BrowseRegexFacts.sibling_regex_compiles.
    destruct (existsb _ files).
    + pose proof (@BrowseRegexFacts.eligible_not_inherited pending (name file)
                    (groups a) Hel) as Hk.
      unfold assign_base. unfold JS.get in *.
      destruct (JS.own (name file) (groups a)) as [g|] eqn:O.
      * intros H. injection H as <-.
        assert (Hbase : base g = None).
        { destruct (base g) as [b|] eqn:Eb; [|reflexivity]. exfalso. apply Hfresh.
          rewrite <- (Hb (name file) g b O Eb), <- name_plain.
          change (name b) with (name (plain b)).
          apply in_map. apply (Permutation_in _ Hperm). apply in_map.
          unfold all_items. apply in_or_app. right. apply held_members_In.
          exists (name file), g. split; [now apply JSFacts.own_In|].
          unfold members, base_list. rewrite Eb. apply in_or_app. right. now left. }
        set (v := {| base := Some file; rolled := rolled g |}).
        destruct (@BrowseFacts.set_keeps (groups a) (name file) g v Hb (or_introl O))
          as (B & _ & _).
        { intros b Hv. cbn in Hv. now injection Hv as <-. }
        { intros nm [(b & Hv & _)|H]; [congruence|now right]. }
        apply (Hgoal _ _ file eq_refl B).
        -- apply numbered_set; [exact Hnum| |].
           ++ intros y Hy. apply JSFacts.own_In in O. now apply (Hnum _ g O).
           ++ intros b Hv. cbn in Hv. now injection Hv as <-.
        -- rewrite <- app_assoc. apply Permutation_app_head.
           apply (@OrderFacts.set_flat_old _ _ members (name file) v g [file]
                    (groups a) O).
           unfold members, v, base_list. cbn [rolled base]. rewrite Hbase.
           now rewrite app_nil_r.
        -- now apply OrderFacts.set_keys_NoDup.
      * destruct (existsb (String.eqb (name file)) (@JS.proto_keys));
          [now destruct Hk|].
        intros H. injection H as <-.
        set (v := {| base := Some file; rolled := [] |}).
        destruct (@BrowseFacts.set_keeps (groups a) (name file) fresh v Hb
                    (or_intror (conj O eq_refl))) as (B & _ & _).
        { intros b Hv. cbn in Hv. now injection Hv as <-. }
        { intros nm Hin. now apply BrowseFacts.in_group_fresh in Hin. }
        apply (Hgoal _ _ file eq_refl B).
        -- apply numbered_set; [exact Hnum| |].
           ++ intros y [].
           ++ intros b Hv. cbn in Hv. now injection Hv as <-.
        -- rewrite <- app_assoc. apply Permutation_app_head.
           unfold held. rewrite (@OrderFacts.set_flat_new _ _ members _ v (groups a) O).
           reflexivity.
        -- now apply OrderFacts.set_keys_NoDup.
    + intros H. injection H as <-.
      apply (Hgoal _ _ file eq_refl Hb Hnum); [|exact Hkeys].
      rewrite <- !app_assoc. apply Permutation_app_head, Permutation_app_comm.
Qed.

Lemma fold_classify_None (files todo : list file_item) :
  fold_left (classify files) todo None = None.
Proof. induction todo as [|f todo IH]; [reflexivity|exact IH]. Qed.

Lemma fold_classify_sorts (files todo seen : list file_item) (a a' : grouping) :
  sorted_out seen a ->
  NoDup (map name (seen ++ todo)) ->
  (forall f, In f todo ->
     Regex.test LOG_FILE_REGEX (name f) = true /\ rollNumber f = None) ->
  fold_left (classify files) todo (Some a) = Some a' ->
  sorted_out (seen ++ todo) a'.
Proof.
  revert seen a. induction todo as [|file todo IH]; intros seen a Hs Hnd Hel;
    cbn [fold_left].
  - intros H. injection H as <-. now rewrite app_nil_r.
  - destruct (classify files (Some a) file) as [a1|] eqn:C;
      [|now rewrite fold_classify_None].
    intros H.
    replace (seen ++ file :: todo) with ((seen ++ [file]) ++ todo) in *
      by now rewrite <- app_assoc.
    apply (IH (seen ++ [file]) a1); [|exact Hnd| |exact H].
    + destruct (Hel file (or_introl eq_refl)) as [E1 E2].
      apply (@classify_sorts files seen a a1 file Hs); [|exact E1|exact E2|exact C].
      rewrite <- app_assoc, map_app in Hnd. cbn [app map] in Hnd.
      apply NoDup_remove_2 in Hnd. intros Hin. apply Hnd, in_or_app. now left.
    + intros f Hf. apply Hel. now right.
Qed.

Lemma group_files_perm (kv : string * pending) :
  Permutation (files (make_group kv)) (members (snd kv)).
Proof.
  cbn [make_group files]. unfold members, base_list.
  apply Permutation_app_tail.
  rewrite <- (Permutation_rev (JS.sort by_rollNumber (rolled (snd kv)))).
  apply OrderFacts.sort_perm.
Qed.

Lemma shown_files_perm (cmp : string -> string -> Z) (a : grouping) :
  Permutation
    (standalone a
     ++ flat_map files
          (JS.sort (fun x y => cmp (baseName x) (baseName y))
                   (map make_group (JS.entries (groups a)))))
    (all_items a).
Proof.
  unfold all_items, held. apply Permutation_app_head.
  rewrite (OrderFacts.flat_map_perm files (OrderFacts.sort_perm _ _)).
  rewrite ScanMoreFacts.flat_map_map.
  rewrite (OrderFacts.flat_map_perm_each _ (fun kv => members (snd kv)) _
             group_files_perm).
  apply OrderFacts.flat_map_perm, OrderFacts.entries_perm.
Qed.

(** What an answer for a directory was built from. *)
Lemma browse_Ok (cmp : string -> string -> Z) (resolved dirname : string)
  (entries : list dirent) (l : listing) :
  browse cmp resolved dirname (Directory entries) = Ok l ->
  exists a,
    fold_left (classify (JS.sort (fun x y => cmp (name x) (name y))
                                 (listed_files entries)))
              (JS.sort (fun x y => cmp (name x) (name y)) (listed_files entries))
              (Some {| groups := []; standalone := [] |}) = Some a
    /\ l = {| current := resolved; parent := dirname;
              folders := JS.sort (fun x y => cmp (fo_name x) (fo_name y))
                                 (listed_folders entries);
              l_files := standalone a;
              fileGroups :=
                JS.sort (fun x y => cmp (baseName x) (baseName y))
                        (map make_group (JS.entries (groups a))) |}.
Proof.
  cbn [browse]. rewrite collect_exact.
  destruct (stat_error entries); [discriminate|].
  destruct (fold_left _ _ _) as [a|] eqn:F; [|discriminate].
  intros H. injection H as <-. exists a. split; reflexivity.
Qed.

Lemma sorted_out_start : sorted_out [] {| groups := []; standalone := [] |}.
Proof.
  split; [intros k g b H; discriminate H|]. split; [intros k g []|].
  split; constructor.
Qed.

Lemma sorted_snoc (A : Type) (R : A -> A -> Prop) (l : list A) (x : A) :
  StronglySorted R l -> (forall y, In y l -> R y x) ->
  StronglySorted R (l ++ [x]).
Proof.
  induction 1 as [|z l Hs IH Hall]; intros Hx; cbn [app].
  - repeat constructor.
  - constructor.
    + apply IH. intros y Hy. apply Hx. now right.
    + apply Forall_forall. intros y Hy. apply in_app_iff in Hy as [Hy|[<-|[]]].
      * rewrite Forall_forall in Hall. now apply Hall.
      * apply Hx. now left.
Qed.

Lemma sorted_descending_rev (A : Type) (key : A -> Z) (l : list A) :
  StronglySorted (ascending key) l -> StronglySorted (descending key) (rev l).
Proof.
  induction 1 as [|x l Hs IH Hall]; cbn [rev]; [constructor|].
  apply sorted_snoc; [exact IH|]. intros y Hy. apply in_rev in Hy.
  rewrite Forall_forall in Hall. exact (Hall y Hy).
Qed.

Lemma fold_item_sizes (l : list file_item) (sum : N) :
  fold_left (fun sum f => (sum + size f)%N) l sum = (sum + total_bytes l)%N.
Proof.
  revert sum. induction l as [|x l IH]; intros sum;
    cbn [fold_left total_bytes fold_right].
  - lia.
  - rewrite IH. unfold total_bytes. lia.
Qed.

End BrowseMoreFacts.

(** X19. The listing of a directory whose entries have distinct names
    shows every log of the directory exactly once, alone or in one group,
    and every visible folder exactly once: the files of the answer, their
    roll numbers set aside, are the entries that are not hidden, are no
    directories and have a name the pattern accepts, in some order; hidden
    entries and other files are never shown. *)
Theorem browse_shows_each_log_once
  (localeCompare : string -> string -> Z) (resolved dirname : string)
  (entries : list Browse.dirent) (l : Browse.listing) :
  NoDup (map Browse.d_name entries) ->
  Browse.browse localeCompare resolved dirname (Browse.Directory entries) = Ok l ->
  Permutation (map BrowseMore.plain (BrowseMore.shown_files l))
              (BrowseMore.listed_files entries)
  /\ Permutation (Browse.folders l) (BrowseMore.listed_folders entries)
  /\ Browse.current l = resolved
  /\ Browse.parent l = dirname.
Proof.
  intros Hnd H. apply BrowseMoreFacts.browse_Ok in H as (a & F & ->).
  cbn [Browse.folders Browse.current Browse.parent].
  split; [|split; [apply OrderFacts.sort_perm|split; reflexivity]].
  unfold BrowseMore.shown_files. cbn [Browse.l_files Browse.fileGroups].
  rewrite (Permutation_map BrowseMore.plain
             (BrowseMoreFacts.shown_files_perm localeCompare a)).
  set (sorted := JS.sort (fun x y => localeCompare (Browse.name x) (Browse.name y))
                         (BrowseMore.listed_files entries)) in *.
  assert (Hs : Permutation sorted (BrowseMore.listed_files entries))
    by apply OrderFacts.sort_perm.
  destruct (@BrowseMoreFacts.fold_classify_sorts sorted sorted [] _ a
              BrowseMoreFacts.sorted_out_start) as (_ & _ & P & _).
  - cbn [app]. apply (Permutation_NoDup (Permutation_map Browse.name (Permutation_sym Hs))).
    now apply BrowseMoreFacts.listed_files_names.
  - intros f Hf. apply (BrowseMoreFacts.listed_files_eligible entries).
    now apply (Permutation_in _ Hs).
  - exact F.
  - cbn [app] in P. rewrite P, (Permutation_map BrowseMore.plain Hs).
    now rewrite BrowseMoreFacts.listed_files_plain.
Qed.

(** X20. What a browse request is answered with: a 404 when the path
    is missing, a 400 when it is no directory, a 500 with the message
    thrown when resolving the path, its stat or reading the directory
    throws, a 500 with the message of the first log of the directory
    whose stat throws, and a listing in every other case. *)
Theorem browse_answers_by_case
  (localeCompare : string -> string -> Z) (resolved dirname : string)
  (t : Browse.target) :
  match t with
  | Browse.Missing =>
      Browse.browse localeCompare resolved dirname t
      = Fail 404 "Directory not found"
  | Browse.NotDirectory =>
      Browse.browse localeCompare resolved dirname t
      = Fail 400 "Path is not a directory"
  | Browse.Threw message =>
      Browse.browse localeCompare resolved dirname t = Fail 500 message
  | Browse.Directory entries =>
      match BrowseMore.stat_error entries with
      | Some message =>
          Browse.browse localeCompare resolved dirname t = Fail 500 message
      | None =>
          exists l, Browse.browse localeCompare resolved dirname t = Ok l
      end
  end.
Proof.
  destruct t as [| |entries|message]; try reflexivity.
  cbn [Browse.browse]. rewrite BrowseMoreFacts.collect_exact.
  destruct (BrowseMore.stat_error entries) as [message|]; [reflexivity|].
  set (sorted := JS.sort (fun x y => localeCompare (Browse.name x) (Browse.name y))
                         (BrowseMore.listed_files entries)).
  destruct (@BrowseFacts.fold_classify_places sorted sorted
              {| Browse.groups := []; Browse.standalone := [] |})
    as (a & E & _).
  - intros k g b H. discriminate H.
  - intros f Hf. apply (BrowseMoreFacts.listed_files_eligible entries).
    unfold sorted in Hf. now apply JSFacts.sort_In in Hf.
  - rewrite E. eexists. reflexivity.
Qed.

(** X21. In every group of a listing the rolled files come first, by
    falling roll number, and the file the group is named after comes last
    when the directory has it: no file precedes one with a larger roll
    number, the base counting as 0.  The count of the group is the number
    of its files and its size the sum of theirs. *)
Theorem browse_orders_group_files
  (localeCompare : string -> string -> Z) (resolved dirname : string)
  (entries : list Browse.dirent) (l : Browse.listing) (g : Browse.file_group) :
  NoDup (map Browse.d_name entries) ->
  Browse.browse localeCompare resolved dirname (Browse.Directory entries) = Ok l ->
  In g (Browse.fileGroups l) ->
  StronglySorted (OrderSpec.descending Browse.roll_of) (Browse.files g)
  /\ (forall x, In x (Browse.files g) ->
        Browse.rollNumber x = None -> Browse.name x = Browse.baseName g)
  /\ Browse.fileCount g = List.length (Browse.files g)
  /\ Browse.totalSize g = BrowseMore.total_bytes (Browse.files g).
Proof.
  intros Hnd H Hg. apply BrowseMoreFacts.browse_Ok in H as (a & F & ->).
  cbn [Browse.fileGroups] in Hg.
  set (sorted := JS.sort (fun x y => localeCompare (Browse.name x) (Browse.name y))
                         (BrowseMore.listed_files entries)) in *.
  assert (Hs : Permutation sorted (BrowseMore.listed_files entries))
    by apply OrderFacts.sort_perm.
  destruct (@BrowseMoreFacts.fold_classify_sorts sorted sorted [] _ a
              BrowseMoreFacts.sorted_out_start) as (Hb & Hnum & _ & Hkeys).
  { cbn [app]. apply (Permutation_NoDup (Permutation_map Browse.name (Permutation_sym Hs))).
    now apply BrowseMoreFacts.listed_files_names. }
  { intros f Hf. apply (BrowseMoreFacts.listed_files_eligible entries).
    now apply (Permutation_in _ Hs). }
  { exact F. }
  apply JSFacts.sort_In, in_map_iff in Hg as ([k p] & <- & Hin).
  apply (proj1 (JSFacts.entries_In _ _)) in Hin.
  destruct (Hnum k p Hin) as (Hrolled & Hbase).
  cbn [Browse.make_group Browse.files Browse.fileCount Browse.totalSize
       Browse.baseName fst snd].
  set (rolled := JS.sort Browse.by_rollNumber (Browse.rolled p)).
  assert (Hr : StronglySorted (OrderSpec.descending Browse.roll_of) (rev rolled)).
  { apply BrowseMoreFacts.sorted_descending_rev.
    exact (OrderFacts.sort_ascending Browse.roll_of (Browse.rolled p)). }
  assert (Hin_rolled : forall y, In y (rev rolled) -> In y (Browse.rolled p)).
  { intros y Hy. apply in_rev in Hy. unfold rolled in Hy.
    now apply JSFacts.sort_In in Hy. }
  repeat split.
  - destruct (Browse.base p) as [b|] eqn:Eb; [|now rewrite app_nil_r].
    apply BrowseMoreFacts.sorted_snoc; [exact Hr|].
    intros y Hy. apply Hin_rolled, Hrolled in Hy as (digits & _ & _ & Hn).
    unfold OrderSpec.descending, Browse.roll_of.
    rewrite Hn, (Hbase b eq_refl). apply BrowseMoreFacts.parseInt_not_negative.
  - intros x Hx Hnone. apply in_app_iff in Hx as [Hx|Hx].
    + apply Hin_rolled, Hrolled in Hx as (digits & _ & _ & Hn). congruence.
    + destruct (Browse.base p) as [b|] eqn:Eb; [|destruct Hx].
      destruct Hx as [<-|[]].
      assert (Ho : JS.own k (Browse.groups a) = Some p).
      { now apply OrderFacts.In_own. }
      exact (Hb k p b Ho Eb).
  - now rewrite BrowseMoreFacts.fold_item_sizes.
Qed.


(** X22. A group of a listing holds the file it is named after and its
    rolls, nothing else: every file of the group either has the name of
    the group and no roll number, or is named by the name of the group, a
    dot and digits, and carries the number [parseInt] reads from the
    digits, the double nearest to the number they write.  No two groups
    of a listing share a name. *)
Theorem browse_groups_hold_base_and_rolls
  (localeCompare : string -> string -> Z) (resolved dirname : string)
  (entries : list Browse.dirent) (l : Browse.listing) :
  NoDup (map Browse.d_name entries) ->
  Browse.browse localeCompare resolved dirname (Browse.Directory entries) = Ok l ->
  NoDup (map Browse.baseName (Browse.fileGroups l))
  /\ forall g x, In g (Browse.fileGroups l) -> In x (Browse.files g) ->
       (Browse.name x = Browse.baseName g /\ Browse.rollNumber x = None)
       \/ BrowseMore.rolls_under (Browse.baseName g) x.
Proof.
  intros Hnd H. apply BrowseMoreFacts.browse_Ok in H as (a & F & ->).
  cbn [Browse.fileGroups].
  set (sorted := JS.sort (fun x y => localeCompare (Browse.name x) (Browse.name y))
                         (BrowseMore.listed_files entries)) in *.
  assert (Hs : Permutation sorted (BrowseMore.listed_files entries))
    by apply OrderFacts.sort_perm.
  destruct (@BrowseMoreFacts.fold_classify_sorts sorted sorted [] _ a
              BrowseMoreFacts.sorted_out_start) as (Hb & Hnum & _ & Hkeys).
  { cbn [app]. apply (Permutation_NoDup (Permutation_map Browse.name (Permutation_sym Hs))).
    now apply BrowseMoreFacts.listed_files_names. }
  { intros f Hf. apply (BrowseMoreFacts.listed_files_eligible entries).
    now apply (Permutation_in _ Hs). }
  { exact F. }
  split.
  - rewrite (Permutation_map Browse.baseName (OrderFacts.sort_perm _ _)), map_map.
    rewrite (map_ext _ fst) by reflexivity.
    now rewrite (Permutation_map fst (OrderFacts.entries_perm (Browse.groups a))).
  - intros g x Hg Hx.
    apply JSFacts.sort_In, in_map_iff in Hg as ([k p] & <- & Hin).
    apply (proj1 (JSFacts.entries_In _ _)) in Hin.
    destruct (Hnum k p Hin) as (Hrolled & Hbase).
    cbn [Browse.make_group Browse.files Browse.baseName fst snd] in *.
    apply in_app_iff in Hx as [Hx|Hx].
    + right. apply Hrolled. apply in_rev in Hx. now apply JSFacts.sort_In in Hx.
    + left. destruct (Browse.base p) as [b|] eqn:Eb; [|destruct Hx].
      destruct Hx as [<-|[]]. split; [|now apply Hbase].
      assert (Ho : JS.own k (Browse.groups a) = Some p) by now apply OrderFacts.In_own.
      exact (Hb k p b Ho Eb).
Qed.

Ltac distinct_names :=
  repeat constructor; cbn [map In Browse.d_name BrowseSpec.file_entry];
  intros H; repeat (destruct H as [H|H]; [discriminate H|]); exact H.

Lemma browse_shows_each_log_once_witness :
  Permutation (map BrowseMore.plain (BrowseMore.shown_files BrowseMore.sample_listing))
              (BrowseMore.listed_files BrowseMore.sample_directory).
Proof.
  refine (proj1 (@browse_shows_each_log_once ScanMore.by_length "/logs" "/"
                   BrowseMore.sample_directory BrowseMore.sample_listing _ _)).
  - distinct_names.
  - vm_compute. reflexivity.
Defined.

Lemma browse_orders_group_files_witness :
  Forall (fun g => StronglySorted (OrderSpec.descending Browse.roll_of) (Browse.files g))
         (Browse.fileGroups BrowseMore.sample_listing).
Proof.
  apply Forall_forall. intros g Hg.
  refine (proj1 (@browse_orders_group_files ScanMore.by_length "/logs" "/"
                   BrowseMore.sample_directory BrowseMore.sample_listing g _ _ Hg)).
  - distinct_names.
  - vm_compute. reflexivity.
Defined.

Lemma browse_groups_hold_base_and_rolls_witness :
  NoDup (map Browse.baseName (Browse.fileGroups BrowseMore.sample_listing)).
Proof.
  refine (proj1 (@browse_groups_hold_base_and_rolls ScanMore.by_length "/logs" "/"
                   BrowseMore.sample_directory BrowseMore.sample_listing _ _)).
  - distinct_names.
  - vm_compute. reflexivity.
Defined.


(* ===================================================================== *)
(** ** The file search *)
(* ===================================================================== *)

Module SearchFilesFacts.
Import SearchFiles SearchFilesSpec.

Lemma stat_all_exact (hits : list hit) :
  stat_all hits
  = match stat_failure hits with
    | Some message => inl message
    | None => inr (flat_map item_of hits)
    end.
Proof.
  induction hits as [|h rest IH]; [reflexivity|].
  cbn [stat_all stat_failure flat_map]. unfold item_of at 1.
  destruct (h_stat h) as [st|message]; [|reflexivity].
  rewrite IH. now destruct (stat_failure rest).
Qed.

End SearchFilesFacts.

(** X23. The file search fails, with a 500 and the message of the error,
    exactly when resolving the path or the walk throws, or the stat of a
    found path throws (the first such path gives the message).  In every
    other case it answers one entry for every found path, the most
    recently modified first: no entry precedes one modified later. *)
Theorem search_lists_newest_first (w : SearchFiles.walk) :
  match w with
  | SearchFiles.Threw message => SearchFiles.searchFiles w = Fail 500 message
  | SearchFiles.Found hits =>
      match SearchFilesSpec.stat_failure hits with
      | Some message => SearchFiles.searchFiles w = Fail 500 message
      | None =>
          exists files,
            SearchFiles.searchFiles w = Ok files
            /\ Permutation files (flat_map SearchFilesSpec.item_of hits)
            /\ List.length files = List.length hits
            /\ StronglySorted (OrderSpec.descending SearchFiles.modified) files
      end
  end.
Proof.
  destruct w as [hits|message]; [|reflexivity].
  unfold SearchFiles.searchFiles. rewrite SearchFilesFacts.stat_all_exact.
  destruct (SearchFilesSpec.stat_failure hits) as [message|] eqn:E; [reflexivity|].
  eexists. split; [reflexivity|]. split; [apply OrderFacts.sort_perm|]. split.
  - rewrite OrderFacts.sort_length.
    induction hits as [|h rest IH]; [reflexivity|].
    cbn [SearchFilesSpec.stat_failure flat_map] in *.
    unfold SearchFilesSpec.item_of at 1.
    destruct (SearchFiles.h_stat h); [|discriminate].
    cbn [app List.length]. now rewrite IH.
  - exact (OrderFacts.sort_descending SearchFiles.modified _).
Qed.

(* ===================================================================== *)
(** ** The line view: levels, highlights, filters *)
(* ===================================================================== *)

(** X24. The level detected on a line, when there is one, is one of the
    six levels the filter bar offers. *)
Theorem detectLevel_is_a_filter_level (line : string) :
  match LogViewer.detectLevel line with
  | Some level => In level FilterBar.LOG_LEVELS
  | None => True
  end.
Proof.
  unfold LogViewer.detectLevel.
  destruct (Regex.exec LogViewer.JSON_SEVERITY_REGEX line) as [m|] eqn:J.
  { pose proof (@RegexMoreFacts.captured_word LogViewer.JSON_SEVERITY_REGEX 1
                  _ _ _ line m eq_refl eq_refl eq_refl eq_refl J) as Hin.
    revert Hin. generalize (LogViewer.toUpperCase (group_text 1 m)).
    intros level Hin. vm_compute in Hin.
    repeat (destruct Hin as [<-|Hin]; [vm_compute; tauto|]). destruct Hin. }
  destruct (Regex.exec LogViewer.WS_CLASSIC_LEVEL_REGEX line) as [m|].
  { repeat match goal with
           | |- context [if ?b then _ else _] => destruct b
           end; vm_compute; tauto. }
  destruct (Regex.exec LogViewer.LEVEL_REGEX line) as [m|] eqn:L; [|exact I].
  pose proof (@RegexMoreFacts.captured_word LogViewer.LEVEL_REGEX 1
                _ _ _ line m eq_refl eq_refl eq_refl eq_refl L) as Hin.
  revert Hin. generalize (LogViewer.toUpperCase (group_text 1 m)).
  intros level Hin. vm_compute in Hin.
  repeat (destruct Hin as [<-|Hin]; [vm_compute; tauto|]). destruct Hin.
Qed.

Module HighlightFacts.
Import Regex MatchSpec LogViewer HighlightSpec.

(** What a match found from [from] on tells. *)
Lemma exec_from_spec (fl : flags) (r : re) (text : list ascii) (from index : nat)
  (m0 : string) :
  exec_from fl r text from = Some (index, m0) ->
  from <= index
  /\ exists pre post st',
       text = pre ++ list_ascii_of_string m0 ++ post
       /\ List.length pre = index
       /\ sem fl r (SearchSpec.start_at [] pre (list_ascii_of_string m0 ++ post)) st'
       /\ reads (list_ascii_of_string m0)
            (SearchSpec.start_at [] pre (list_ascii_of_string m0 ++ post)) st'.
Proof.
  unfold exec_from. destruct (Nat.ltb_spec (List.length text) from) as [|Hle];
    [discriminate|].
  destruct (search fl r (rev (firstn from text)) (skipn from text))
    as [[st st']|] eqn:E; [|discriminate].
  intros H. injection H as <- <-.
  apply MatchFacts.search_some in E as (s1 & s2 & Hs & -> & Hm).
  apply SoundFacts.mt_sound in Hm as (st2 & Hsem & Hk). injection Hk as ->.
  destruct (SoundFacts.sem_reads _ _ _ _ Hsem) as (w & Hr).
  assert (Hst : SearchSpec.start_at (rev (firstn from text)) s1 s2
                = SearchSpec.start_at [] (firstn from text ++ s1) s2).
  { unfold SearchSpec.start_at. now rewrite rev_app_distr, app_nil_r. }
  rewrite Hst in *.
  rewrite (SoundFacts.consumed_reads Hr), list_ascii_of_string_of_list_ascii.
  pose proof Hr as [Ha _]. cbn [SearchSpec.start_at after] in Ha.
  cbn [SearchSpec.start_at before]. rewrite app_nil_r, length_rev, length_app,
    length_firstn, Nat.min_l by exact Hle.
  split; [lia|].
  exists (firstn from text ++ s1), (after st'), st'. rewrite <- Ha.
  split; [now rewrite <- app_assoc, <- Hs, firstn_skipn|].
  split; [rewrite length_app, length_firstn; lia|]. split; assumption.
Qed.

Lemma joined_snoc (parts : list part) (p : part) :
  flat_map part_chars (parts ++ [p]) = flat_map part_chars parts ++ part_chars p.
Proof. rewrite flat_map_app. cbn [flat_map]. now rewrite app_nil_r. Qed.

Lemma firstn_more (A : Type) (a b : nat) (l : list A) :
  a <= b ->
  firstn a l ++ firstn (b - a) (skipn a l) = firstn b l.
Proof.
  revert b l. induction a as [|a IH]; intros b l H.
  - cbn [firstn skipn app]. now rewrite Nat.sub_0_r.
  - destruct b as [|b]; [lia|].
    destruct l as [|x l]; [now rewrite skipn_nil, !firstn_nil|].
    cbn [firstn skipn app Nat.sub]. f_equal. apply IH. lia.
Qed.

(** The loop keeps the parts equal to the text before [lastIndex]. *)
Lemma highlight_loop_spec (r : re) (text : list ascii) (fuel : nat) :
  forall lastIndex parts,
    lastIndex <= List.length text ->
    flat_map part_chars parts = firstn lastIndex text ->
    Forall (marks_read r (string_of_list_ascii text)) parts ->
    let out := highlight_loop fuel r text lastIndex parts in
    snd out <= List.length text
    /\ flat_map part_chars (fst out) = firstn (snd out) text
    /\ Forall (marks_read r (string_of_list_ascii text)) (fst out).
Proof.
  induction fuel as [|fuel IH]; intros lastIndex parts Hle Hj Hm; cbn [highlight_loop].
  - cbn [fst snd]. auto.
  - destruct (exec_from GLOBAL_IGNORE_CASE r text lastIndex) as [[index m0]|] eqn:E;
      [|cbn [fst snd]; auto].
    apply exec_from_spec in E as (Hfrom & pre & post & st' & Ht & Hpre & Hsem & Hr).
    set (w := list_ascii_of_string m0) in *.
    assert (Hlen : String.length m0 = List.length w).
    { unfold w. clear. induction m0 as [|c m0 IH]; [reflexivity|].
      cbn [String.length list_ascii_of_string List.length]. now rewrite IH. }
    assert (Hend : index + List.length w <= List.length text)
      by (rewrite Ht, !length_app; lia).
    assert (H1 : flat_map part_chars
                   (if (lastIndex <? index)%nat
                    then parts ++ [Plain (slice text lastIndex index)]
                    else parts)
                 = firstn index text).
    { destruct (Nat.ltb_spec lastIndex index) as [Hlt|Hge].
      - rewrite joined_snoc, Hj. cbn [part_chars]. unfold slice.
        rewrite list_ascii_of_string_of_list_ascii. apply firstn_more. lia.
      - replace index with lastIndex by lia. exact Hj. }
    assert (H2 : flat_map part_chars
                   ((if (lastIndex <? index)%nat
                     then parts ++ [Plain (slice text lastIndex index)]
                     else parts) ++ [Mark m0])
                 = firstn (index + String.length m0) text).
    { rewrite joined_snoc, H1. cbn [part_chars]. fold w. rewrite Hlen, Ht.
      rewrite <- Hpre. rewrite firstn_app, Nat.sub_diag, firstn_all. cbn [firstn].
      rewrite app_nil_r.
      rewrite firstn_app, firstn_all2 by lia.
      replace (List.length pre + List.length w - List.length pre)
        with (List.length w) by lia.
      now rewrite firstn_app, Nat.sub_diag, firstn_all, firstn_O, app_nil_r. }
    assert (H3 : Forall (marks_read r (string_of_list_ascii text))
                   ((if (lastIndex <? index)%nat
                     then parts ++ [Plain (slice text lastIndex index)]
                     else parts) ++ [Mark m0])).
    { apply Forall_app. split.
      - destruct (lastIndex <? index)%nat; [|exact Hm].
        apply Forall_app. split; [exact Hm|]. repeat constructor.
      - repeat constructor. cbn [marks_read]. exists pre, post, st'.
        rewrite list_ascii_of_string_of_list_ascii. fold w. auto. }
    destruct (String.length m0 =? 0)%nat.
    + cbn [fst snd]. split; [lia|]. split; [exact H2|exact H3].
    + apply IH; [lia|exact H2|exact H3].
Qed.

(** The loop ends before its bound: more turns change nothing. *)
Lemma highlight_loop_enough (r : re) (text : list ascii) (fuel : nat) :
  forall fuel' lastIndex parts,
    List.length text - lastIndex < fuel -> fuel <= fuel' ->
    highlight_loop fuel' r text lastIndex parts
    = highlight_loop fuel r text lastIndex parts.
Proof.
  induction fuel as [|fuel IH]; intros fuel' lastIndex parts Hlt Hle; [lia|].
  destruct fuel' as [|fuel']; [lia|]. cbn [highlight_loop].
  destruct (exec_from GLOBAL_IGNORE_CASE r text lastIndex) as [[index m0]|] eqn:E;
    [|reflexivity].
  destruct (Nat.eqb_spec (String.length m0) 0) as [|Hne]; [reflexivity|].
  apply exec_from_spec in E as (Hfrom & pre & post & st' & Ht & Hpre & _).
  assert (Hlen : String.length m0 = List.length (list_ascii_of_string m0)).
  { clear. induction m0 as [|c m0 IH]; [reflexivity|].
    cbn [String.length list_ascii_of_string List.length]. now rewrite IH. }
  assert (Hend : index + String.length m0 <= List.length text)
    by (rewrite Ht, !length_app; lia).
  apply IH; lia.
Qed.

End HighlightFacts.

(** X25. Highlighting loses and adds nothing: the parts of a line, put
    together, are the line; every marked part is a text the search
    pattern reads in the line, letter case apart; and the loop over the
    matches ends by itself, within as many turns as the line has
    characters, plus two. *)
Theorem highlightMatches_keeps_the_text (text : string) (regex : option Regex.regex) :
  HighlightSpec.joined (LogViewer.highlightMatches text regex) = text
  /\ match regex with
     | Some rx =>
         Forall (HighlightSpec.marks_read (Regex.source rx) text)
                (LogViewer.highlightMatches text regex)
         /\ forall more,
              LogViewer.highlight_loop (S (S (String.length text)) + more)
                (Regex.source rx) (list_ascii_of_string text) 0 []
              = LogViewer.highlight_loop (S (S (String.length text)))
                  (Regex.source rx) (list_ascii_of_string text) 0 []
     | None => True
     end.
Proof.
  assert (Hlen : String.length text = List.length (list_ascii_of_string text)).
  { induction text as [|c text IH]; [reflexivity|].
    cbn [String.length list_ascii_of_string List.length]. now rewrite IH. }
  destruct regex as [rx|]; cbn [LogViewer.highlightMatches].
  2:{ split; [|exact I]. unfold HighlightSpec.joined.
      cbn [flat_map HighlightSpec.part_chars]. rewrite app_nil_r.
      apply string_of_list_ascii_of_string. }
  set (t := list_ascii_of_string text) in *.
  pose proof (@HighlightFacts.highlight_loop_spec (Regex.source rx) t
                (S (S (List.length t))) 0 [] ltac:(lia) eq_refl
                ltac:(constructor)) as H.
  cbv zeta in H.
  destruct (LogViewer.highlight_loop (S (S (List.length t))) (Regex.source rx) t 0 [])
    as [parts lastIndex] eqn:E.
  cbn [fst snd] in H. destruct H as (Hle & Hj & Hm).
  assert (Ht : string_of_list_ascii t = text) by apply string_of_list_ascii_of_string.
  rewrite Ht in Hm.
  assert (Hall : HighlightSpec.joined
                   (if (lastIndex <? List.length t)%nat
                    then parts ++ [LogViewer.Plain
                                     (LogViewer.slice t lastIndex (List.length t))]
                    else parts) = text
                 /\ Forall (HighlightSpec.marks_read (Regex.source rx) text)
                      (if (lastIndex <? List.length t)%nat
                       then parts ++ [LogViewer.Plain
                                        (LogViewer.slice t lastIndex (List.length t))]
                       else parts)).
  { unfold HighlightSpec.joined.
    destruct (Nat.ltb_spec lastIndex (List.length t)) as [Hlt|Hge].
    - rewrite HighlightFacts.joined_snoc, Hj. cbn [HighlightSpec.part_chars].
      unfold LogViewer.slice. rewrite list_ascii_of_string_of_list_ascii.
      rewrite HighlightFacts.firstn_more by lia. rewrite firstn_all. split; [exact Ht|].
      apply Forall_app. split; [exact Hm|]. repeat constructor.
    - rewrite Hj, firstn_all2 by lia. split; [exact Ht|exact Hm]. }
  destruct Hall as [Hjoin Hmarks].
  split; [|split].
  - destruct (if (lastIndex <? List.length t)%nat then _ else _) as [|p ps];
      [|exact Hjoin].
    unfold HighlightSpec.joined. cbn [flat_map HighlightSpec.part_chars].
    rewrite app_nil_r. exact Ht.
  - destruct (if (lastIndex <? List.length t)%nat then _ else _) as [|p ps];
      [|exact Hmarks].
    repeat constructor.
  - intros more. rewrite Hlen. fold t.
    apply HighlightFacts.highlight_loop_enough; lia.
Qed.

Module FilterFacts.
Import LogViewer FilterSpec.

Lemma test_from_stateless (rx : Regex.regex) (lastIndex : nat) (text : string) :
  stateless (Some rx) = true ->
  test_from rx lastIndex text = (Regex.test rx text, lastIndex).
Proof.
  unfold stateless, test_from. intros H. apply negb_true_iff in H. now rewrite H.
Qed.

Section Loop.
Variable Date_parse : string -> option Z.
Variable Date_local : Z -> Z -> Z -> Z -> Z -> Z -> Z -> option Z.
Variable f : active_filters.
Variable searchRegex : option Regex.regex.

Lemma process_from_stateless (lines : list string) :
  stateless searchRegex = true ->
  forall i lastIndex,
    process_from Date_parse Date_local f searchRegex i lines lastIndex
    = (map (entry Date_parse Date_local)
           (filter (fun it => passes Date_parse Date_local f searchRegex (snd it))
                   (numbered i lines)),
       lastIndex).
Proof.
  intros Hs. unfold numbered.
  induction lines as [|text rest IH]; intros i lastIndex; [reflexivity|].
  cbn [process_from List.length seq combine filter snd]. unfold passes at 1.
  destruct (level_rejected f (detectLevel text)); cbn [negb andb]; [apply IH|].
  assert (Ht : match searchRegex with
               | Some rx => test_from rx lastIndex text
               | None => (true, lastIndex)
               end = (found searchRegex text, lastIndex)).
  { destruct searchRegex as [rx|]; [|reflexivity]. now apply test_from_stateless. }
  rewrite Ht. destruct (found searchRegex text); cbn [negb andb]; [|apply IH].
  destruct (date_rejected f (extractTimestamp Date_parse Date_local text));
    cbn [negb]; [apply IH|].
  rewrite IH. reflexivity.
Qed.

Lemma process_from_sound (lines : list string) :
  forall i lastIndex e,
    In e (fst (process_from Date_parse Date_local f searchRegex i lines lastIndex)) ->
    i <= p_index e
    /\ nth_error lines (p_index e - i) = Some (p_text e)
    /\ p_level e = detectLevel (p_text e)
    /\ p_timestamp e = extractTimestamp Date_parse Date_local (p_text e)
    /\ level_rejected f (p_level e) = false
    /\ date_rejected f (p_timestamp e) = false.
Proof.
  induction lines as [|text rest IH]; intros i lastIndex e; cbn [process_from];
    [intros []|].
  assert (Hrest : forall li,
            In e (fst (process_from Date_parse Date_local f searchRegex (S i) rest li)) ->
            i <= p_index e
            /\ nth_error (text :: rest) (p_index e - i) = Some (p_text e)
            /\ p_level e = detectLevel (p_text e)
            /\ p_timestamp e = extractTimestamp Date_parse Date_local (p_text e)
            /\ level_rejected f (p_level e) = false
            /\ date_rejected f (p_timestamp e) = false).
  { intros li Hin. destruct (IH (S i) li e Hin) as (Hle & Hn & Hmore).
    split; [lia|]. split; [|exact Hmore].
    replace (p_index e - i) with (S (p_index e - S i)) by lia. exact Hn. }
  destruct (level_rejected f (detectLevel text)) eqn:L; [apply Hrest|].
  destruct (match searchRegex with
            | Some rx => test_from rx lastIndex text
            | None => (true, lastIndex)
            end) as [found_it lastIndex'].
  destruct found_it; cbn [negb]; [|apply Hrest].
  destruct (date_rejected f (extractTimestamp Date_parse Date_local text)) eqn:D;
    [apply Hrest|].
  destruct (process_from Date_parse Date_local f searchRegex (S i) rest lastIndex')
    as [kept final] eqn:P.
  cbn [fst]. intros [<-|Hin].
  - cbn [p_index p_text p_level p_timestamp]. rewrite Nat.sub_diag. cbn [nth_error].
    auto 10.
  - apply (Hrest lastIndex'). now rewrite P.
Qed.

Lemma process_from_ordered (lines : list string) :
  forall i lastIndex,
    StronglySorted lt
      (map p_index
           (fst (process_from Date_parse Date_local f searchRegex i lines lastIndex))).
Proof.
  induction lines as [|text rest IH]; intros i lastIndex; cbn [process_from];
    [constructor|].
  destruct (level_rejected f (detectLevel text)); [apply IH|].
  destruct (match searchRegex with
            | Some rx => test_from rx lastIndex text
            | None => (true, lastIndex)
            end) as [found_it lastIndex'].
  destruct found_it; cbn [negb]; [|apply IH].
  destruct (date_rejected f (extractTimestamp Date_parse Date_local text));
    [apply IH|].
  pose proof (IH (S i) lastIndex') as Hs.
  pose proof (fun e => @process_from_sound rest (S i) lastIndex' e) as Hb.
  destruct (process_from Date_parse Date_local f searchRegex (S i) rest lastIndex')
    as [kept final].
  cbn [fst map p_index] in *. constructor; [exact Hs|].
  apply Forall_forall. intros n Hn. apply in_map_iff in Hn as (e & <- & He).
  destruct (Hb e He) as [Hle _]. lia.
Qed.
End Loop.

End FilterFacts.

(** X26. Every entry of the line view stands for a line of the log: its
    text is the line of its number, its level and timestamp are those
    detected on that text, and it passes the level and date filters; and
    the entries come by rising line number.  This holds for every search
    pattern, also one that keeps a position between tests. *)
Theorem processedLines_keeps_line_numbers
  (Date_parse : string -> option Z)
  (Date_local : Z -> Z -> Z -> Z -> Z -> Z -> Z -> option Z)
  (f : LogViewer.active_filters) (searchRegex : option Regex.regex)
  (lines : list string) (lastIndex : nat) :
  let shown :=
    fst (LogViewer.processedLines Date_parse Date_local f searchRegex lines lastIndex) in
  Forall (FilterSpec.stands_for Date_parse Date_local f lines) shown
  /\ StronglySorted lt (map LogViewer.p_index shown).
Proof.
  cbv zeta. unfold LogViewer.processedLines. split.
  - apply Forall_forall. intros e He.
    destruct (@FilterFacts.process_from_sound Date_parse Date_local f searchRegex
                lines 0 lastIndex e He) as (_ & Hn & Hmore).
    rewrite Nat.sub_0_r in Hn. split; [exact Hn|exact Hmore].
  - apply FilterFacts.process_from_ordered.
Qed.

(** X27. With a search pattern that keeps no position between tests (no
    [g], no [y]) the line view is the filter it looks like: it shows, in
    order and under their own numbers, exactly the lines that pass the
    level filter, the search and the date filter, and leaves the position
    of the pattern alone.  With no filter set it shows every line. *)
Theorem processedLines_is_a_filter
  (Date_parse : string -> option Z)
  (Date_local : Z -> Z -> Z -> Z -> Z -> Z -> Z -> option Z)
  (f : LogViewer.active_filters) (searchRegex : option Regex.regex)
  (lines : list string) (lastIndex : nat) :
  FilterSpec.stateless searchRegex = true ->
  LogViewer.processedLines Date_parse Date_local f searchRegex lines lastIndex
  = (map (FilterSpec.entry Date_parse Date_local)
         (filter (fun it => FilterSpec.passes Date_parse Date_local f searchRegex (snd it))
                 (FilterSpec.numbered 0 lines)),
     lastIndex)
  /\ map LogViewer.p_text
         (fst (LogViewer.processedLines Date_parse Date_local FilterSpec.no_filters
                 None lines lastIndex))
     = lines.
Proof.
  intros Hs. unfold LogViewer.processedLines. split.
  - now apply FilterFacts.process_from_stateless.
  - rewrite FilterFacts.process_from_stateless by reflexivity. cbn [fst].
    unfold FilterSpec.numbered. generalize 0.
    induction lines as [|text rest IH]; intros i; [reflexivity|].
    cbn [List.length seq combine filter snd map].
    assert (Hp : FilterSpec.passes Date_parse Date_local FilterSpec.no_filters None text
                 = true).
    { unfold FilterSpec.passes, LogViewer.level_rejected, LogViewer.date_rejected.
      cbn [FilterSpec.no_filters LogViewer.activeLevels LogViewer.dateFrom
           LogViewer.dateTo FilterSpec.found negb andb orb].
      now destruct (LogViewer.extractTimestamp Date_parse Date_local text). }
    rewrite Hp. cbn [map FilterSpec.entry LogViewer.p_text snd]. now rewrite IH.
Qed.

Lemma processedLines_is_a_filter_witness :
  map LogViewer.p_index
      (fst (LogViewer.processedLines TimestampSpec.sample_Date
              TimestampSpec.sample_Date_local FilterSpec.errors_only
              (Some (Regex.literal "a" "i")) FilterSpec.sample_lines 0))
  = [1; 2].
Proof.
  rewrite (proj1 (@processedLines_is_a_filter TimestampSpec.sample_Date
                    TimestampSpec.sample_Date_local FilterSpec.errors_only
                    (Some (Regex.literal "a" "i")) FilterSpec.sample_lines 0
                    eq_refl)).
  vm_compute. reflexivity.
Defined.

Module FilterBarFacts.
Import FilterBar.

Lemma includes_spec (level : string) (current : list string) :
  existsb (String.eqb level) current = true <-> In level current.
Proof.
  rewrite existsb_exists. split.
  - intros (x & Hx & E). apply String.eqb_eq in E. now subst.
  - intros H. exists level. split; [exact H|apply String.eqb_refl].
Qed.

Lemma toggleLevel_In (current : list string) (level l : string) :
  In l (toggleLevel current level)
  <-> (l <> level /\ In l current) \/ (l = level /\ ~ In level current).
Proof.
  unfold toggleLevel. destruct (existsb (String.eqb level) current) eqn:E.
  - apply includes_spec in E. rewrite filter_In, negb_true_iff, String.eqb_neq.
    split; [intros [H1 H2]; now left|].
    intros [[H1 H2]|[-> H2]]; [now split|contradiction].
  - assert (Hn : ~ In level current).
    { intros H. apply includes_spec in H. congruence. }
    rewrite in_app_iff. cbn [In]. split.
    + intros [H|[<-|[]]]; [left; split; [intros ->; contradiction|exact H]|now right].
    + intros [[_ H]|[-> _]]; [now left|right; now left].
Qed.

End FilterBarFacts.

(** X28. A level button changes the selection of its own level only:
    toggling a level selects it when it was not selected and drops it when
    it was, leaves every other level as it was, keeps a selection free of
    repetitions so, and toggling twice gives the same selection back. *)
Theorem toggleLevel_flips_one_level (current : list string) (level : string) :
  (In level (FilterBar.toggleLevel current level) <-> ~ In level current)
  /\ (forall l, l <> level ->
        (In l (FilterBar.toggleLevel current level) <-> In l current))
  /\ (forall l, In l (FilterBar.toggleLevel (FilterBar.toggleLevel current level) level)
                <-> In l current)
  /\ (NoDup current -> NoDup (FilterBar.toggleLevel current level)).
Proof.
  split; [|split; [|split]].
  - rewrite FilterBarFacts.toggleLevel_In. split; [intros [[H _]|[_ H]]; tauto|].
    intros H. now right.
  - intros l Hne. rewrite FilterBarFacts.toggleLevel_In. tauto.
  - intros l. rewrite !FilterBarFacts.toggleLevel_In.
    destruct (string_dec l level) as [->|Hne]; [|tauto].
    destruct (in_dec string_dec level current); tauto.
  - intros Hnd. unfold FilterBar.toggleLevel.
    destruct (existsb (String.eqb level) current) eqn:E.
    + now apply NoDup_filter.
    + apply NoDup_app; [exact Hnd|repeat constructor; intros []|].
      intros x Hx [<-|[]]. apply FilterBarFacts.includes_spec in Hx. congruence.
Qed.

(** X29. A plain text typed in the search box (one that is not of the
    form of a pattern between bars) filters by content: with no level and
    no date filter, the view shows exactly the lines that hold the text
    somewhere, letter case apart, in the order of the log. *)
Theorem plain_search_shows_lines_holding_it
  (Date_parse : string -> option Z)
  (Date_local : Z -> Z -> Z -> Z -> Z -> Z -> Z -> option Z)
  (search : string) (lines : list string) (lastIndex : nat) :
  search <> EmptyString ->
  Regex.exec LogViewer.DELIMITED_REGEX search = None ->
  let shown :=
    fst (LogViewer.processedLines Date_parse Date_local FilterSpec.no_filters
           (FilterSpec.pattern_of search) lines lastIndex) in
  FilterSpec.pattern_of search = Some (SearchSpec.literal_matcher search)
  /\ map LogViewer.p_text shown
     = filter (Regex.test (SearchSpec.literal_matcher search)) lines
  /\ forall text,
       In text (map LogViewer.p_text shown)
       <-> In text lines /\ SearchSpec.holds search text.
Proof.
  intros Hne Hm. cbv zeta.
  assert (B : FilterSpec.pattern_of search = Some (SearchSpec.literal_matcher search)).
  { unfold FilterSpec.pattern_of, LogViewer.buildSearchRegex.
    destruct (String.eqb_spec search EmptyString) as [E|_]; [contradiction|].
    rewrite Hm. unfold LogViewer.try_RegExp.
    now rewrite ParseFacts.escapeRegex_spec, ParseFacts.RegExp_new_backslashed. }
  rewrite B.
  assert (E : map LogViewer.p_text
                (fst (LogViewer.processedLines Date_parse Date_local
                        FilterSpec.no_filters
                        (Some (SearchSpec.literal_matcher search)) lines lastIndex))
              = filter (Regex.test (SearchSpec.literal_matcher search)) lines).
  { unfold LogViewer.processedLines.
    rewrite FilterFacts.process_from_stateless by reflexivity. cbn [fst].
    unfold FilterSpec.numbered. generalize 0.
    induction lines as [|text rest IH]; intros i; [reflexivity|].
    cbn [List.length seq combine filter snd].
    assert (Hp : FilterSpec.passes Date_parse Date_local FilterSpec.no_filters
                   (Some (SearchSpec.literal_matcher search)) text
                 = Regex.test (SearchSpec.literal_matcher search) text).
    { unfold FilterSpec.passes, LogViewer.level_rejected, LogViewer.date_rejected.
      cbn [FilterSpec.no_filters LogViewer.activeLevels LogViewer.dateFrom
           LogViewer.dateTo FilterSpec.found negb andb orb].
      destruct (LogViewer.extractTimestamp Date_parse Date_local text);
        cbn [negb]; apply andb_true_r. }
    rewrite Hp.
    destruct (Regex.test (SearchSpec.literal_matcher search) text);
      cbn [map FilterSpec.entry LogViewer.p_text snd]; now rewrite IH. }
  split; [reflexivity|]. split; [exact E|].
  intros text. rewrite E, filter_In, MatchFacts.literal_matcher_holds. reflexivity.
Qed.

Lemma plain_search_shows_lines_holding_it_witness :
  map LogViewer.p_text
      (fst (LogViewer.processedLines TimestampSpec.sample_Date
              TimestampSpec.sample_Date_local FilterSpec.no_filters
              (FilterSpec.pattern_of "FAIL") FilterSpec.sample_lines 0))
  = filter (Regex.test (SearchSpec.literal_matcher "FAIL")) FilterSpec.sample_lines.
Proof.
  refine (proj1 (proj2 (@plain_search_shows_lines_holding_it
                          TimestampSpec.sample_Date TimestampSpec.sample_Date_local
                          "FAIL" FilterSpec.sample_lines 0 _ _))).
  - discriminate.
  - vm_compute. reflexivity.
Defined.

(* ===================================================================== *)
(** ** The merged view of a group *)
(* ===================================================================== *)

(** X30. Opening a group of a scan answer as a merged view asks for the
    paths of its files, which are at least one.  When the request is
    answered with a merge, the view shows no error and the lines of the
    group's files that are regular files, file after file in the order of
    the group (by falling roll number as the scan read it, the current
    log last), with one marker for each such file. *)
Theorem merged_view_follows_group_order
  (localeCompareBase : string -> string -> Z) (folders : list Scan.folder)
  (r : Scan.result) (g : Scan.loggroup) (fs : filesystem) (view : App.merged_view)
  (data : ReadMulti.result) :
  Scan.scan localeCompareBase (Some folders) = Ok r ->
  In g (Scan.groups r) ->
  let selection := App.handleGroupSelect g in
  ReadMulti.readMulti fs (Some (App.mergedFiles selection)) = Ok data ->
  let shown := App.loadMerged fs view (App.mergedFiles selection)
                 (App.mergedName selection) in
  App.mergedFiles selection <> []
  /\ App.mergedError shown = None
  /\ App.mergedLines shown = ReadMulti.r_lines data
  /\ App.mergedLines shown
     = ReadMulti.allLines (ReadMulti.merge fs (map Scan.path (Scan.files g)))
  /\ map ReadMulti.path (App.fileMarkers shown)
     = filter (ReadSpec.is_file fs) (map Scan.path (Scan.files g))
  /\ StronglySorted (OrderSpec.descending ScanMore.roll) (Scan.files g).
Proof.
  intros H Hin. cbv zeta.
  apply ScanMoreFacts.scan_Ok, ScanMoreFacts.respond_Ok in H
    as (o & (_ & _ & Hkey & _) & Hg & _).
  rewrite Hg in Hin. apply ScanMoreFacts.group_In in Hin as (k & b & Hin & ->).
  assert (Hne : Scan.files (Scan.make_group (k, b)) <> []).
  { intros E. destruct (Hkey k b Hin) as (_ & Hn & _). apply Hn.
    apply Permutation_nil. rewrite <- E.
    apply (ScanMoreFacts.files_perm (k, b)). }
  cbn [App.handleGroupSelect App.mergedFiles App.mergedName].
  intros Hdata. unfold App.loadMerged. rewrite Hdata. revert Hdata.
  unfold ReadMulti.readMulti.
  destruct (map Scan.path (Scan.files (Scan.make_group (k, b)))) as [|p ps] eqn:E.
  { apply map_eq_nil in E. contradiction. }
  intros Hdata. injection Hdata as <-.
  cbn [App.mergedError App.mergedLines App.fileMarkers
       ReadMulti.r_lines ReadMulti.r_fileMarkers].
  split; [discriminate|].
  split; [reflexivity|]. split; [reflexivity|]. split; [reflexivity|]. split.
  - apply ReadFacts.markers_in_merge.
  - exact (OrderFacts.sort_descending ScanMore.roll (Scan.b_files b)).
Qed.

Lemma merged_view_follows_group_order_witness :
  let selection := App.handleGroupSelect ScanMore.app_group in
  let shown := App.loadMerged MergeSpec.sample_fs ScanMore.empty_view
                 (App.mergedFiles selection) (App.mergedName selection) in
  App.mergedFiles selection = ["/logs/app.log.2"; "/logs/app.log"]
  /\ App.mergedError shown = None
  /\ App.mergedLines shown = ["three"; "four"]
  /\ map ReadMulti.path (App.fileMarkers shown) = ["/logs/app.log"].
Proof.
  destruct (@merged_view_follows_group_order ScanMore.by_length
              [ScanMore.two_families] ScanMore.sample_answer ScanMore.app_group
              MergeSpec.sample_fs ScanMore.empty_view _
              ltac:(vm_compute; reflexivity) ltac:(vm_compute; auto) eq_refl)
    as (_ & He & _ & Hl & Hm & _).
  split; [reflexivity|]. split; [exact He|].
  split; [exact Hl|exact Hm].
Defined.
